(** * HelixLang: a shallow embedding of the language core

    The development follows the Python sources of the repository:
    - [core/types.py]        structural types, subtyping and unification
    - [core/symbols.py]      the scoped symbol table
    - [ir/ir_nodes.py], [ir/ir_optimizer.py]   IR objects and the optimizer
    - [ir/ir_to_runtime.py]  the bytecode emitter
    - [core/interpreter.py]  the tree-walking interpreter
    - [runtime/runtime_env.py]  call frames of the bytecode runtime
    - [runtime/memory.py]    the reference-counted heap

    Python objects that are mutated in place and reachable through more than
    one reference (IR nodes, environments, heap cells) live in explicit
    stores and are named by addresses. *)

From Stdlib Require Import ZArith Lia Bool Floats.
From stdpp Require Import base option list strings pretty gmap.

Set Warnings "-register-all".

Local Open Scope string_scope.
Local Open Scope list_scope.

(** ** Python dictionaries that are iterated

    A [dict] keeps its keys in insertion order and holds each key once.
    Where the source iterates over a dictionary the embedding keeps that
    order in an association list. *)

Module Dict.
Section Dict.
Context {V : Type}.

(** [d.get(key)] *)
Fixpoint get (key : string) (d : list (string * V)) : option V :=
  match d with
  | [] => None
  | (k, v) :: d' => if String.eqb key k then Some v else get key d'
  end.

(** [key in d] *)
Definition contains (key : string) (d : list (string * V)) : bool :=
  match get key d with Some _ => true | None => false end.

(** [d[key] = v]: an existing key keeps its place, a new one goes last. *)
Fixpoint set (key : string) (v : V) (d : list (string * V)) : list (string * V) :=
  match d with
  | [] => [(key, v)]
  | (k, w) :: d' =>
      if String.eqb key k then (k, v) :: d' else (k, w) :: set key v d'
  end.

Definition keys (d : list (string * V)) : list string := map fst d.
Definition values (d : list (string * V)) : list V := map snd d.
End Dict.
End Dict.

(** ** [core/types.py] *)

Module Types.

(** The class hierarchy under [Type]; every class derives from [Type]
    directly, so a value of [Ty] is an instance of exactly one class. *)
Inductive Ty : Type :=
| IntType
| FloatType
| BoolType
| StringType
| GenomeType
| ProteinType
| CellType
| ArrayType (element_type : Ty)
| TupleType (element_types : list Ty)
| StructType (name : string) (fields : list (string * Ty))
| FunctionType (param_types : list Ty) (return_type : Ty).

(** The classes, for [isinstance]. *)
Inductive TyClass :=
| CInt | CFloat | CBool | CString | CGenome | CProtein | CCell
| CArray | CTuple | CStruct | CFunction.

Definition class_of (t : Ty) : TyClass :=
  match t with
  | IntType => CInt | FloatType => CFloat | BoolType => CBool
  | StringType => CString | GenomeType => CGenome | ProteinType => CProtein
  | CellType => CCell | ArrayType _ => CArray | TupleType _ => CTuple
  | StructType _ _ => CStruct | FunctionType _ _ => CFunction
  end.

Definition TyClass_eqb (c d : TyClass) : bool :=
  match c, d with
  | CInt, CInt | CFloat, CFloat | CBool, CBool | CString, CString
  | CGenome, CGenome | CProtein, CProtein | CCell, CCell | CArray, CArray
  | CTuple, CTuple | CStruct, CStruct | CFunction, CFunction => true
  | _, _ => false
  end.

Definition isinstance (t : Ty) (c : TyClass) : bool := TyClass_eqb (class_of t) c.

(** [self == other]: Python calls [type(self).__eq__(self, other)]; every
    class defines [__eq__], none returns [NotImplemented] and none is a
    subclass of another, so the reflected method is never consulted. *)
Fixpoint eq (self other : Ty) {struct self} : bool :=
  match self with
  | IntType => isinstance other CInt
  | FloatType => isinstance other CFloat || isinstance other CInt
  | BoolType => isinstance other CBool
  | StringType => isinstance other CString
  | GenomeType => isinstance other CGenome
  | ProteinType => isinstance other CProtein
  | CellType => isinstance other CCell
  | ArrayType e =>
      match other with
      | ArrayType e' => eq e e'
      | _ => false
      end
  | TupleType es =>
      match other with
      | TupleType es' =>
          (fix all_eq (l l' : list Ty) {struct l} : bool :=
             match l, l' with
             | a :: l, b :: l' => eq a b && all_eq l l'
             | _, _ => true
             end) es es'
          && Nat.eqb (length es) (length es')
      | _ => false
      end
  | StructType name fields =>
      match other with
      | StructType name' fields' =>
          if negb (String.eqb name name') then false
          else
            (* dict equality: same number of keys, and every key of the
               left operand is in the right one with an equal value *)
            Nat.eqb (length fields) (length fields')
            && (fix all_in (d : list (string * Ty)) {struct d} : bool :=
                  match d with
                  | [] => true
                  | (k, a) :: d =>
                      match Dict.get k fields' with
                      | Some b => eq a b && all_in d
                      | None => false
                      end
                  end) fields
      | _ => false
      end
  | FunctionType ps r =>
      match other with
      | FunctionType ps' r' =>
          Nat.eqb (length ps) (length ps')
          && (fix all_eq (l l' : list Ty) {struct l} : bool :=
                match l, l' with
                | a :: l, b :: l' => eq a b && all_eq l l'
                | _, _ => true
                end) ps ps'
          && eq r r'
      | _ => false
      end
  end.

(** Number of constructors, the measure under which [is_subtype_of]
    terminates (its calls in [FunctionType] swap receiver and argument). *)
Fixpoint size (t : Ty) : nat :=
  match t with
  | ArrayType e => S (size e)
  | TupleType es => S (list_sum (map size es))
  | StructType _ fs => S (list_sum (map (fun kv => size (snd kv)) fs))
  | FunctionType ps r => S (list_sum (map size ps) + size r)
  | _ => 1
  end.

(** [all(f(a, b) for a, b in zip(l, l'))] *)
Definition all_zip {A B} (f : A -> B -> bool) (l : list A) (l' : list B) : bool :=
  forallb (fun ab => f (fst ab) (snd ab)) (combine l l').

(** [self.is_subtype_of(other)], dispatched on the class of [self]. *)
Fixpoint is_subtype_of_fuel (fuel : nat) (self other : Ty) : bool :=
  match fuel with
  | O => false
  | S fuel =>
      match self with
      | FloatType =>
          (* FloatType is subtype of itself only *)
          isinstance other CFloat
      | ArrayType e =>
          match other with
          | ArrayType e' => is_subtype_of_fuel fuel e e'
          | _ => false
          end
      | TupleType es =>
          match other with
          | TupleType es' =>
              if negb (Nat.eqb (length es) (length es')) then false
              else all_zip (is_subtype_of_fuel fuel) es es'
          | _ => false
          end
      | StructType name fields =>
          match other with
          | StructType name' fields' =>
              if negb (String.eqb name name') then false
              else
                forallb
                  (fun kt =>
                     match Dict.get (fst kt) fields with
                     | Some t => is_subtype_of_fuel fuel t (snd kt)
                     | None => false
                     end)
                  fields'
          | _ => false
          end
      | FunctionType ps r =>
          match other with
          | FunctionType ps' r' =>
              if negb (Nat.eqb (length ps) (length ps')) then false
              else
                (* contravariant parameters: [a] ranges over [other]'s *)
                all_zip (is_subtype_of_fuel fuel) ps' ps
                && is_subtype_of_fuel fuel r r'
          | _ => false
          end
      | _ =>
          (* Type.is_subtype_of, the inherited default *)
          eq self other
      end
  end.

Definition is_subtype_of (self other : Ty) : bool :=
  is_subtype_of_fuel (size self + size other) self other.

(** Every field that [fb] declares is present in [fa] with a type that is
    a subtype of the declared one. *)
Definition fields_covered (fa fb : list (string * Ty)) : Prop :=
  forall key typ, In (key, typ) fb ->
    exists t, Dict.get key fa = Some t /\ is_subtype_of t typ = true.

(** [self.unify(other)]; [None] is Python's [None]. *)
Fixpoint unify (self other : Ty) {struct self} : option Ty :=
  match self with
  | FloatType =>
      if isinstance other CInt || isinstance other CFloat
      then Some FloatType else None
  | ArrayType e =>
      match other with
      | ArrayType e' =>
          match unify e e' with
          | None => None
          | Some elem_type => Some (ArrayType elem_type)
          end
      | _ => None
      end
  | TupleType es =>
      match other with
      | TupleType es' =>
          if negb (Nat.eqb (length es) (length es')) then None
          else
            match
              (fix go (l l' : list Ty) {struct l} : option (list Ty) :=
                 match l, l' with
                 | a :: l, b :: l' =>
                     match unify a b with
                     | None => None
                     | Some u =>
                         match go l l' with
                         | None => None
                         | Some us => Some (u :: us)
                         end
                     end
                 | _, _ => Some []
                 end) es es'
            with
            | None => None
            | Some unified_elements => Some (TupleType unified_elements)
            end
      | _ => None
      end
  | StructType name fields =>
      match other with
      | StructType name' fields' =>
          if negb (String.eqb name name') then None
          else
            (* [self.fields.keys() | other.fields.keys()]: Python leaves the
               order of a set open; the keys of [self] are taken first.  A key
               of [other] that [self] lacks ends the loop with [None]
               whatever the order. *)
            if negb (forallb (fun kt => Dict.contains (fst kt) fields) fields')
            then None
            else
              match
                (fix go (d : list (string * Ty)) {struct d}
                   : option (list (string * Ty)) :=
                   match d with
                   | [] => Some []
                   | (key, t1) :: d =>
                       match Dict.get key fields' with
                       | None => None
                       | Some t2 =>
                           match unify t1 t2 with
                           | None => None
                           | Some u =>
                               match go d with
                               | None => None
                               | Some us => Some ((key, u) :: us)
                               end
                           end
                       end
                   end) fields
              with
              | None => None
              | Some unified_fields => Some (StructType name unified_fields)
              end
      | _ => None
      end
  | FunctionType ps r =>
      match other with
      | FunctionType ps' r' =>
          if negb (Nat.eqb (length ps) (length ps')) then None
          else
            match
              (fix go (l l' : list Ty) {struct l} : option (list Ty) :=
                 match l, l' with
                 | a :: l, b :: l' =>
                     match unify a b with
                     | None => None
                     | Some u =>
                         match go l l' with
                         | None => None
                         | Some us => Some (u :: us)
                         end
                     end
                 | _, _ => Some []
                 end) ps ps'
            with
            | None => None
            | Some unified_params =>
                match unify r r' with
                | None => None
                | Some unified_return =>
                    Some (FunctionType unified_params unified_return)
                end
            end
      | _ => None
      end
  | _ =>
      (* Type.unify, the inherited default *)
      if eq self other then Some self else None
  end.

(** [least_upper_bound(t1, t2)] *)
Definition least_upper_bound (t1 t2 : Ty) : option Ty :=
  if is_subtype_of t1 t2 then Some t2
  else if is_subtype_of t2 t1 then Some t1
  else if (isinstance t1 CInt && isinstance t2 CFloat)
          || (isinstance t2 CInt && isinstance t1 CFloat)
  then Some FloatType
  else None.

(** [are_compatible(t1, t2)] *)
Definition are_compatible (t1 t2 : Ty) : bool :=
  is_subtype_of t1 t2 || is_subtype_of t2 t1.

(** The registry [PRIMITIVE_TYPES]. *)
Definition PRIMITIVE_TYPES : list (string * Ty) :=
  [ ("int", IntType); ("float", FloatType); ("bool", BoolType);
    ("string", StringType); ("genome", GenomeType);
    ("protein", ProteinType); ("cell", CellType) ].

(** The [fields] of a struct are a [dict]: it holds each key once.  The
    lists of this embedding that stand for such dicts, at every depth of a
    type, are the ones without a repeated key. *)
Fixpoint fields_are_dicts (t : Ty) : bool :=
  match t with
  | ArrayType e => fields_are_dicts e
  | TupleType es => forallb fields_are_dicts es
  | StructType _ fs =>
      bool_decide (NoDup (map fst fs))
      && forallb (fun kt => fields_are_dicts (snd kt)) fs
  | FunctionType ps r => forallb fields_are_dicts ps && fields_are_dicts r
  | _ => true
  end.

End Types.

(** ** [core/symbols.py]

    The [print] calls of the methods are left out; they have no part in
    what the methods return or raise. *)

Module Symbols.

Record Symbol : Type := mkSymbol {
  name : string;
  type : Types.Ty;
  scope_level : Z;
  is_mutable : bool;
  is_global : bool;
  is_function : bool;
  metadata : list (string * string)
}.

Record Scope : Type := mkScope {
  level : Z;
  symbols : gmap string Symbol
}.

Record SymbolTable : Type := mkSymbolTable {
  scopes : list Scope;
  current_level : Z
}.

Inductive exn : Type :=
| KeyError (msg : string)
| IndexError
| RuntimeError (msg : string).

(** The outcome of a method: its value and the table after it, or the
    exception and the table as the method left it. *)
Inductive res (A : Type) : Type :=
| Done (a : A) (t : SymbolTable)
| Raised (e : exn) (t : SymbolTable).
Arguments Done {A} a t.
Arguments Raised {A} e t.

(** [l[i]] for a Python list: a negative index counts from the end. *)
Definition index {A} (l : list A) (i : Z) : option nat :=
  let n := Z.of_nat (length l) in
  if (0 <=? i)%Z && (i <? n)%Z then Some (Z.to_nat i)
  else if (- n <=? i)%Z && (i <? 0)%Z then Some (Z.to_nat (n + i))
  else None.

(** [Scope.insert]: the scope after the insertion, or the [KeyError]. *)
Definition Scope_insert (scope : Scope) (symbol : Symbol) : exn + Scope :=
  match symbols scope !! name symbol with
  | Some _ =>
      inl (KeyError ("Symbol '" ++ name symbol
                     ++ "' already declared in current scope (level "
                     ++ pretty (level scope) ++ ")."))
  | None =>
      inr (mkScope (level scope) (<[name symbol := symbol]> (symbols scope)))
  end.

Definition Scope_lookup (scope : Scope) (name : string) : option Symbol :=
  symbols scope !! name.

Definition enter_scope (t : SymbolTable) : res unit :=
  let current_level := (current_level t + 1)%Z in
  let scope := mkScope current_level ∅ in
  Done tt (mkSymbolTable (scopes t ++ [scope]) current_level).

(** [SymbolTable()] *)
Definition init : SymbolTable :=
  match enter_scope (mkSymbolTable [] (-1)) with
  | Done _ t => t
  | Raised _ t => t
  end.

Definition exit_scope (t : SymbolTable) : res unit :=
  if (current_level t <? 0)%Z then Raised (RuntimeError "No scope to exit.") t
  else
    match scopes t with
    | [] => Raised IndexError t
    | _ =>
        Done tt (mkSymbolTable (removelast (scopes t)) (current_level t - 1))
    end.

Definition insert (name : string) (typ : Types.Ty)
    (is_mutable is_global is_function : bool)
    (metadata : option (list (string * string)))
    (t : SymbolTable) : res Symbol :=
  let symbol :=
    mkSymbol name typ (current_level t) is_mutable is_global is_function
             (default [] metadata) in
  match index (scopes t) (current_level t) with
  | None => Raised IndexError t
  | Some i =>
      match scopes t !! i with
      | None => Raised IndexError t
      | Some scope =>
          match Scope_insert scope symbol with
          | inl e => Raised e t
          | inr scope' =>
              Done symbol
                (mkSymbolTable (<[i := scope']> (scopes t)) (current_level t))
          end
      end
  end.

(** [lookup]: the scopes from the innermost outwards. *)
Fixpoint lookup_in (reversed_scopes : list Scope) (name : string)
    : option Symbol :=
  match reversed_scopes with
  | [] => None
  | scope :: rest =>
      match Scope_lookup scope name with
      | Some symbol => Some symbol
      | None => lookup_in rest name
      end
  end.

Definition lookup (name : string) (t : SymbolTable) : option Symbol :=
  lookup_in (rev (scopes t)) name.

(** [current_scope()] *)
Definition current_scope (t : SymbolTable) : option Scope :=
  match index (scopes t) (current_level t) with
  | Some i => scopes t !! i
  | None => None
  end.

(** What [__init__], [enter_scope] and [exit_scope] keep true:
    [current_level] is the index of the last scope. *)
Definition consistent (t : SymbolTable) : Prop :=
  current_level t = (Z.of_nat (length (scopes t)) - 1)%Z.

(** The table a method leaves, whether it returns or raises. *)
Definition after {A} (r : res A) : SymbolTable :=
  match r with
  | Done _ t => t
  | Raised _ t => t
  end.

(** A call of one of the methods that change the table. *)
Inductive call : Type :=
| EnterScope
| ExitScope
| Insert (name : string) (typ : Types.Ty)
    (is_mutable is_global is_function : bool)
    (metadata : option (list (string * string))).

Definition perform (c : call) (t : SymbolTable) : SymbolTable :=
  match c with
  | EnterScope => after (enter_scope t)
  | ExitScope => after (exit_scope t)
  | Insert x typ m g f md => after (insert x typ m g f md t)
  end.

Definition perform_all (cs : list call) (t : SymbolTable) : SymbolTable :=
  fold_left (fun t c => perform c t) cs t.

Definition is_Insert (c : call) : bool :=
  match c with
  | Insert _ _ _ _ _ _ => true
  | _ => false
  end.

(** The tables a program can make: [SymbolTable()] and what the methods
    leave of a table it can make, a caught exception included. *)
Inductive reachable : SymbolTable -> Prop :=
| reachable_init : reachable init
| reachable_perform c t : reachable t -> reachable (perform c t).

(** Each scope sits at the index that is its [level], and holds each
    symbol under the symbol's own name and with the scope's level. *)
Definition levels_agree (t : SymbolTable) : Prop :=
  forall i sc, scopes t !! i = Some sc ->
    level sc = Z.of_nat i /\
    forall k s, symbols sc !! k = Some s ->
      name s = k /\ scope_level s = Z.of_nat i.

End Symbols.

(** ** Python values and the operators of the [operator] module

    The values a literal or a folded constant can hold.  A [bool] is an
    [int] ([True == 1]); a [float] is an IEEE-754 binary64 number. *)

Module Py.

Inductive value : Type :=
| VNone
| VBool (b : bool)
| VInt (n : Z)
| VFloat (f : float)
| VStr (s : string).

(** Built-in exceptions. *)
Inductive exn : Type :=
| TypeError
| ZeroDivisionError
| OverflowError
| AttributeError
| IndexError
| ValueError (msg : string)
| KeyError (msg : string).

Inductive result : Type :=
| Ok (v : value)
| Raise (e : exn).

(** [type(v).__name__] *)
Definition type_name (v : value) : string :=
  match v with
  | VNone => "NoneType"
  | VBool _ => "bool"
  | VInt _ => "int"
  | VFloat _ => "float"
  | VStr _ => "str"
  end.

(** The integer an [int] or [bool] stands for. *)
Definition as_int (v : value) : option Z :=
  match v with
  | VBool b => Some (Z.b2z b)
  | VInt n => Some n
  | _ => None
  end.

(** [isinstance(v, (int, float))] *)
Definition is_number (v : value) : bool :=
  match v with
  | VBool _ | VInt _ | VFloat _ => true
  | _ => false
  end.

(** [bool(v)] *)
Definition truthy (v : value) : bool :=
  match v with
  | VNone => false
  | VBool b => b
  | VInt n => negb (Z.eqb n 0)
  | VFloat f => negb (PrimFloat.is_zero f)
  | VStr s => negb (String.eqb s "")
  end.

(** A float against an int: Python compares the two numbers exactly, with
    no conversion; a NaN compares with nothing. *)
Definition float_compare_int (f : float) (n : Z) : option comparison :=
  match Prim2SF f with
  | S754_nan => None
  | S754_infinity s => Some (if s then Lt else Gt)
  | S754_zero _ => Some (0 ?= n)%Z
  | S754_finite s m e =>
      let sm := if s then Z.neg m else Z.pos m in
      if (0 <=? e)%Z then Some (sm * 2 ^ e ?= n)%Z
      else Some (sm ?= n * 2 ^ (- e))%Z
  end.

(** The three-way comparison of two numbers, [None] when one is a NaN. *)
Definition compare_numbers (l r : value) : option comparison :=
  match l, r with
  | VFloat a, VFloat b =>
      if PrimFloat.eqb a b then Some Eq
      else if PrimFloat.ltb a b then Some Lt
      else if PrimFloat.ltb b a then Some Gt
      else None
  | VFloat a, _ =>
      match as_int r with
      | Some n => float_compare_int a n
      | None => None
      end
  | _, VFloat b =>
      match as_int l with
      | Some n => option_map CompOpp (float_compare_int b n)
      | None => None
      end
  | _, _ =>
      match as_int l, as_int r with
      | Some a, Some b => Some (a ?= b)%Z
      | _, _ => None
      end
  end.

(** [l == r]; it raises on none of these values. *)
Definition eq (l r : value) : bool :=
  match l, r with
  | VNone, VNone => true
  | VStr a, VStr b => String.eqb a b
  | _, _ =>
      if is_number l && is_number r then
        match compare_numbers l r with
        | Some Eq => true
        | _ => false
        end
      else false
  end.

(** [v == 0] for a number: the divisor test of [/] and [%]. *)
Definition is_zero (v : value) : bool := is_number v && eq v (VInt 0).

(** An int converts to a double unless it rounds to [2 ** 1024]. *)
Definition int_overflows_double (n : Z) : bool :=
  (2 ^ 1024 - 2 ^ 970 <=? Z.abs n)%Z.

Definition overflows_double (v : value) : bool :=
  match v with
  | VInt n => int_overflows_double n
  | _ => false
  end.

Section Operators.

(** Results the embedding does not compute and takes from Python:
    arithmetic on numbers of which one is a [float] ([+ - * / %]), the
    true division of two ints by a non-zero divisor, the repetition of a
    string ([str * int]) and its formatting ([str % value]). *)
Variable extern : string -> value -> value -> result.

(** Float arithmetic first converts an int operand to a double. *)
Definition with_doubles (l r : value) (k : result) : result :=
  if overflows_double l || overflows_double r then Raise OverflowError
  else k.

(** [operator.add] *)
Definition add (l r : value) : result :=
  match l, r with
  | VStr a, VStr b => Ok (VStr (a ++ b))
  | _, _ =>
      match as_int l, as_int r with
      | Some a, Some b => Ok (VInt (a + b))
      | _, _ =>
          if is_number l && is_number r
          then with_doubles l r (extern "+" l r)
          else Raise TypeError
      end
  end.

(** [operator.sub] *)
Definition sub (l r : value) : result :=
  match as_int l, as_int r with
  | Some a, Some b => Ok (VInt (a - b))
  | _, _ =>
      if is_number l && is_number r
      then with_doubles l r (extern "-" l r)
      else Raise TypeError
  end.

(** [operator.mul] *)
Definition mul (l r : value) : result :=
  match as_int l, as_int r with
  | Some a, Some b => Ok (VInt (a * b))
  | _, _ =>
      if is_number l && is_number r
      then with_doubles l r (extern "*" l r)
      else
        match l, r with
        | VStr _, (VBool _ | VInt _) | (VBool _ | VInt _), VStr _ =>
            extern "*" l r
        | _, _ => Raise TypeError
        end
  end.

(** [operator.truediv] *)
Definition truediv (l r : value) : result :=
  match as_int l, as_int r with
  | Some a, Some b =>
      if Z.eqb b 0 then Raise ZeroDivisionError else extern "/" l r
  | _, _ =>
      if is_number l && is_number r
      then with_doubles l r
             (if is_zero r then Raise ZeroDivisionError else extern "/" l r)
      else Raise TypeError
  end.

(** [operator.mod] *)
Definition mod_ (l r : value) : result :=
  match as_int l, as_int r with
  | Some a, Some b =>
      if Z.eqb b 0 then Raise ZeroDivisionError else Ok (VInt (a mod b))
  | _, _ =>
      if is_number l && is_number r
      then with_doubles l r
             (if is_zero r then Raise ZeroDivisionError else extern "%" l r)
      else
        match l with
        | VStr _ => extern "%" l r
        | _ => Raise TypeError
        end
  end.

(** [operator.lt], [le], [gt], [ge]: numbers among themselves, strings
    among themselves. *)
Definition order (test : comparison -> bool) (l r : value) : result :=
  match l, r with
  | VStr a, VStr b => Ok (VBool (test (String.compare a b)))
  | _, _ =>
      if is_number l && is_number r then
        match compare_numbers l r with
        | Some c => Ok (VBool (test c))
        | None => Ok (VBool false)
        end
      else Raise TypeError
  end.

Definition lt := order (fun c => match c with Lt => true | _ => false end).
Definition le := order (fun c => match c with Gt => false | _ => true end).
Definition gt := order (fun c => match c with Gt => true | _ => false end).
Definition ge := order (fun c => match c with Lt => false | _ => true end).

(** [operator.and_] and [operator.or_] are the bitwise [&] and [|]. *)
Definition bitwise (fb : bool -> bool -> bool) (fz : Z -> Z -> Z)
    (l r : value) : result :=
  match l, r with
  | VBool a, VBool b => Ok (VBool (fb a b))
  | _, _ =>
      match as_int l, as_int r with
      | Some a, Some b => Ok (VInt (fz a b))
      | _, _ => Raise TypeError
      end
  end.

Definition and_ := bitwise andb Z.land.
Definition or_ := bitwise orb Z.lor.

(** Unary minus. *)
Definition neg (v : value) : result :=
  match v with
  | VFloat f => Ok (VFloat (PrimFloat.opp f))
  | _ =>
      match as_int v with
      | Some a => Ok (VInt (- a))
      | None => Raise TypeError
      end
  end.

End Operators.

End Py.

(** ** [ir/ir_nodes.py] and [ir/ir_optimizer.py]

    IR nodes are Python objects: the optimizer assigns to [node.children]
    while the [left] and [right] attributes of a [BinaryOpNode] keep
    referring to the objects they were built from.  Nodes therefore live in
    a heap and refer to each other by address. *)

Module IR.

Inductive NodeType : Type :=
| FUNCTION | VARIABLE | ASSIGNMENT | IF | WHILE | EXPRESSION
| CALL | RETURN | CONSTANT | BINARY_OP | UNARY_OP | BLOCK.

Definition NodeType_eqb (a b : NodeType) : bool :=
  match a, b with
  | FUNCTION, FUNCTION | VARIABLE, VARIABLE | ASSIGNMENT, ASSIGNMENT
  | IF, IF | WHILE, WHILE | EXPRESSION, EXPRESSION | CALL, CALL
  | RETURN, RETURN | CONSTANT, CONSTANT | BINARY_OP, BINARY_OP
  | UNARY_OP, UNARY_OP | BLOCK, BLOCK => true
  | _, _ => false
  end.

Abbreviation addr := nat.

(** The class of a node with the attributes its constructor sets besides
    the three slots of [IRNode].  [BinaryOpNode] and [UnaryOpNode] derive
    from [ExpressionNode]. *)
Inductive IRClass : Type :=
| IRNode_ (node_type : NodeType)
| FunctionNode (name : string) (params : list string)
    (return_type : option string)
| VariableNode (name : string) (var_type : option string)
| AssignmentNode (target value : addr)
| IfNode (condition : addr) (then_body else_body : list addr)
| WhileNode (condition : addr) (body : list addr)
| ExpressionNode (expression_type : string) (value : Py.value)
| CallNode (function_name : string) (arguments : list addr)
| ReturnNode (value : option addr)
| ConstantNode (value : Py.value) (const_type : option string)
| BinaryOpNode (operator : string) (left right : addr)
| UnaryOpNode (operator : string) (operand : addr)
| BlockNode (statements : list addr).

(** An object: its class and the slots [children] and [metadata]. *)
Record IRNode : Type := mkIRNode {
  cls : IRClass;
  children : list addr;
  metadata : list (string * Py.value)
}.

(** The slot [node_type] is written by the constructors only. *)
Definition node_type (n : IRNode) : NodeType :=
  match cls n with
  | IRNode_ t => t
  | FunctionNode _ _ _ => FUNCTION
  | VariableNode _ _ => VARIABLE
  | AssignmentNode _ _ => ASSIGNMENT
  | IfNode _ _ _ => IF
  | WhileNode _ _ => WHILE
  | ExpressionNode _ _ => EXPRESSION
  | CallNode _ _ => CALL
  | ReturnNode _ => RETURN
  | ConstantNode _ _ => CONSTANT
  | BinaryOpNode _ _ _ => EXPRESSION
  | UnaryOpNode _ _ => EXPRESSION
  | BlockNode _ => BLOCK
  end.

Abbreviation heap := (list IRNode).

(** *** Computations over the heap

    [Undefined] stands for a run the embedding does not follow: the fuel of
    a recursion ran out, or an address is not in the heap. *)
Inductive res (A : Type) : Type :=
| Done (a : A) (h : heap)
| Raised (e : Py.exn) (h : heap)
| Undefined.
Arguments Done {A} a h.
Arguments Raised {A} e h.
Arguments Undefined {A}.

Definition M (A : Type) : Type := heap -> res A.

Definition ret {A} (a : A) : M A := fun h => Done a h.

Definition bind {A B} (m : M A) (k : A -> M B) : M B :=
  fun h =>
    match m h with
    | Done a h' => k a h'
    | Raised e h' => Raised e h'
    | Undefined => Undefined
    end.

Notation "'let*' x ':=' m 'in' k" := (bind m (fun x => k))
  (at level 10, x name, m at level 100, k at level 200).

Definition raise {A} (e : Py.exn) : M A := fun h => Raised e h.

Definition get (a : addr) : M IRNode :=
  fun h => match h !! a with Some n => Done n h | None => Undefined end.

(** A constructor call: the new object gets the next address. *)
Definition alloc (n : IRNode) : M addr := fun h => Done (length h) (h ++ [n]).

(** [node.children = cs] *)
Definition set_children (a : addr) (cs : list addr) : M unit :=
  fun h =>
    match h !! a with
    | Some n =>
        Done tt (<[a := mkIRNode (cls n) cs (metadata n)]> h)
    | None => Undefined
    end.

(** [node.children[i] = c] *)
Definition setitem_children (a : addr) (i : nat) (c : addr) : M unit :=
  let* n := get a in
  if decide (i < length (children n))
  then set_children a (<[i := c]> (children n))
  else raise Py.IndexError.

(** [[f(x) for x in l]], and the loops that append [f(x)] to a list. *)
Fixpoint mapM {A B} (f : A -> M B) (l : list A) : M (list B) :=
  match l with
  | [] => ret []
  | x :: l =>
      let* y := f x in
      let* ys := mapM f l in
      ret (y :: ys)
  end.

(** *** The constructors of [ir_nodes.py] *)

Definition new (c : IRClass) (children : list addr)
    (metadata : option (list (string * Py.value))) : M addr :=
  alloc (mkIRNode c children (default [] metadata)).

Definition new_FunctionNode name params (body : list addr) return_type metadata :=
  new (FunctionNode name params return_type) body metadata.

Definition new_VariableNode name var_type metadata :=
  new (VariableNode name var_type) [] metadata.

Definition new_AssignmentNode (target value : addr) metadata :=
  new (AssignmentNode target value) [target; value] metadata.

Definition new_IfNode (condition : addr) (then_body : list addr)
    (else_body : option (list addr)) metadata :=
  new (IfNode condition then_body (default [] else_body))
      ([condition] ++ then_body ++ default [] else_body) metadata.

Definition new_WhileNode (condition : addr) (body : list addr) metadata :=
  new (WhileNode condition body) ([condition] ++ body) metadata.

Definition new_ExpressionNode expression_type value
    (children : option (list addr)) metadata :=
  new (ExpressionNode expression_type value) (default [] children) metadata.

Definition new_CallNode function_name (arguments : list addr) metadata :=
  new (CallNode function_name arguments) arguments metadata.

Definition new_ReturnNode (value : option addr) metadata :=
  new (ReturnNode value)
      (match value with Some v => [v] | None => [] end) metadata.

Definition new_ConstantNode (value : Py.value) (const_type : option string)
    metadata :=
  new (ConstantNode value const_type) [] metadata.

Definition new_BinaryOpNode (operator : string) (left right : addr) metadata :=
  new (BinaryOpNode operator left right) [left; right] metadata.

Definition new_UnaryOpNode (operator : string) (operand : addr) metadata :=
  new (UnaryOpNode operator operand) [operand] metadata.

Definition new_BlockNode (statements : list addr) metadata :=
  new (BlockNode statements) statements metadata.

(** *** [IROptimizer] *)

Section Optimizer.

Variable extern : string -> Py.value -> Py.value -> Py.result.

(** The table [ops] of [_evaluate_binary_op]. *)
Definition ops : list (string * (Py.value -> Py.value -> Py.result)) :=
  [ ("+", Py.add extern);
    ("-", Py.sub extern);
    ("*", Py.mul extern);
    ("/", Py.truediv extern);
    ("%", Py.mod_ extern);
    ("==", fun l r => Py.Ok (Py.VBool (Py.eq l r)));
    ("!=", fun l r => Py.Ok (Py.VBool (negb (Py.eq l r))));
    ("<", Py.lt);
    ("<=", Py.le);
    (">", Py.gt);
    (">=", Py.ge);
    ("and", Py.and_);
    ("or", Py.or_) ].

Definition _evaluate_binary_op (operator_str : string)
    (left_val right_val : Py.value) : Py.result :=
  match Dict.get operator_str ops with
  | None =>
      Py.Raise
        (Py.ValueError ("Unsupported operator for folding: " ++ operator_str))
  | Some f => f left_val right_val
  end.

Definition _is_constant_node (n : IRNode) : bool :=
  NodeType_eqb (node_type n) CONSTANT.

(** [node.value] of a node whose [node_type] is [CONSTANT]; a bare
    [IRNode] has no such attribute. *)
Definition constant_value (n : IRNode) : option Py.value :=
  match cls n with
  | ConstantNode v _ => Some v
  | _ => None
  end.

Definition _fold_binary_op (node : addr) : M addr :=
  let* n := get node in
  match cls n with
  | BinaryOpNode op left_ right_ =>
      let* l := get left_ in
      let* r := get right_ in
      if _is_constant_node l && _is_constant_node r then
        (* try: ... except Exception: return node *)
        match constant_value l, constant_value r with
        | Some lv, Some rv =>
            match _evaluate_binary_op op lv rv with
            | Py.Ok value =>
                new_ConstantNode value (Some (Py.type_name value)) None
            | Py.Raise _ => ret node
            end
        | _, _ => ret node
        end
      else ret node
  | _ =>
      (* no [left], [right] and [operator]: not a BinaryOp *)
      ret node
  end.

Fixpoint constant_folding_pass (fuel : nat) (node : addr) : M addr :=
  match fuel with
  | O => fun _ => Undefined
  | S fuel =>
      let* n := get node in
      (* Post-order traversal: optimize children first *)
      let* new_children := mapM (constant_folding_pass fuel) (children n) in
      let* _ := set_children node new_children in
      match node_type n with
      | BINARY_OP | EXPRESSION => _fold_binary_op node
      | ASSIGNMENT =>
          let* n := get node in
          match children n with
          | [target; value] =>
              let* folded_value := constant_folding_pass fuel value in
              let* _ := setitem_children node 1 folded_value in
              ret node
          | _ => raise (Py.ValueError "values to unpack (expected 2)")
          end
      | FUNCTION | BLOCK =>
          let* n := get node in
          let* folded := mapM (constant_folding_pass fuel) (children n) in
          let* _ := set_children node folded in
          ret node
      | _ => ret node
      end
  end.

(** The loop of [_eliminate_dead_code_block]; [pass] is
    [dead_code_elimination_pass]. *)
Fixpoint eliminate_loop (pass : addr -> M addr) (statements : list addr)
    (has_returned : bool) : M (list addr) :=
  match statements with
  | [] => ret []
  | stmt :: statements =>
      if has_returned then
        (* Statement unreachable - drop it *)
        eliminate_loop pass statements has_returned
      else
        let* optimized_stmt := pass stmt in
        let* s := get stmt in
        let* new_statements :=
          eliminate_loop pass statements
            (NodeType_eqb (node_type s) RETURN) in
        ret (optimized_stmt :: new_statements)
  end.

Definition _eliminate_dead_code_block (pass : addr -> M addr)
    (statements : list addr) : M (list addr) :=
  eliminate_loop pass statements false.

Fixpoint dead_code_elimination_pass (fuel : nat) (node : addr) : M addr :=
  match fuel with
  | O => fun _ => Undefined
  | S fuel =>
      let* n := get node in
      match node_type n with
      | FUNCTION | BLOCK =>
          let* new_statements :=
            _eliminate_dead_code_block
              (dead_code_elimination_pass fuel) (children n) in
          let* _ := set_children node new_statements in
          ret node
      | _ =>
          (* Other nodes are returned unchanged *)
          ret node
      end
  end.

(** [self.passes] *)
Definition passes : list (nat -> addr -> M addr) :=
  [constant_folding_pass; dead_code_elimination_pass].

(** [optimize()]: each pass on the result of the one before; the result
    is the new [ir_root]. *)
Definition optimize (fuel : nat) (ir_root : addr) : M addr :=
  fold_left
    (fun (acc : M addr) optimization_pass =>
       let* root := acc in optimization_pass fuel root)
    passes (ret ir_root).

End Optimizer.

(** *** What the dead-code pass leaves *)

(** [stmt.node_type == NodeType.RETURN] for the node at [a]. *)
Definition is_return (h : heap) (a : addr) : bool :=
  match h !! a with
  | Some n => NodeType_eqb (node_type n) RETURN
  | None => false
  end.

(** The statements up to and with the first [Return]. *)
Fixpoint cut (h : heap) (statements : list addr) : list addr :=
  match statements with
  | [] => []
  | stmt :: statements =>
      stmt :: (if is_return h stmt then [] else cut h statements)
  end.

(** Children are made before their parents, as the constructors take
    them as arguments: each child has a smaller address. *)
Definition children_first (h : heap) : Prop :=
  forall a n, h !! a = Some n -> Forall (fun c => c < a) (children n).

(** [h'] has the objects of [h], each of its class and with its
    metadata, and with a prefix of its children. *)
Definition trimmed (h h' : heap) : Prop :=
  length h' = length h /\
  forall a n, h !! a = Some n ->
    exists n', h' !! a = Some n' /\ cls n' = cls n /\
               metadata n' = metadata n /\
               children n' `prefix_of` children n.

(** The blocks and function bodies that the pass visits from [a] have no
    statement after a [Return]: [a] is clean when it is a block or a
    function whose statements end with its first [Return], if it has one,
    and are clean.  A node of another type is clean whatever lies beneath
    it, as the pass does not look into it. *)
Inductive clean (h : heap) : addr -> Prop :=
| clean_other a n :
    h !! a = Some n ->
    node_type n <> FUNCTION -> node_type n <> BLOCK ->
    clean h a
| clean_block a n :
    h !! a = Some n ->
    node_type n = FUNCTION \/ node_type n = BLOCK ->
    cut h (children n) = children n ->
    (forall c, c ∈ children n -> clean h c) ->
    clean h a.

(** [h'] is [h] where some blocks and function bodies have lost the
    statements after their first [Return], and nothing else differs: each
    object keeps its class and metadata, and its children are the ones it
    had, or, for a block or a function, those up to and with the first
    [Return]. *)
Definition drops_after_return (h h' : heap) : Prop :=
  length h' = length h /\
  forall a n, h !! a = Some n ->
    exists n', h' !! a = Some n' /\ cls n' = cls n /\
               metadata n' = metadata n /\
               (children n' = children n \/
                (node_type n = FUNCTION \/ node_type n = BLOCK) /\
                children n' = cut h (children n)).

(** The nodes the pass visits from [a]: [a], and when [a] is a block or a
    function, the nodes visited from its statements up to and with the
    first [Return].  The pass does not look beneath a node of another
    type. *)
Inductive visited (h : heap) : addr -> addr -> Prop :=
| visited_here a : visited h a a
| visited_statement a n c b :
    h !! a = Some n ->
    node_type n = FUNCTION \/ node_type n = BLOCK ->
    c ∈ cut h (children n) -> visited h c b ->
    visited h a b.

(** What every run of the pass on a tree gives. *)
Definition pass_spec (fuel : nat) : Prop :=
  forall c h, children_first h -> c < fuel -> c < length h ->
    exists h',
      dead_code_elimination_pass fuel c h = Done c h' /\
      trimmed h h' /\ clean h' c /\
      (forall b, clean h b -> clean h' b) /\
      (forall b, c < b -> h' !! b = h !! b) /\
      (forall n, h !! c = Some n ->
         h' !! c =
         Some (mkIRNode (cls n)
                 (match node_type n with
                  | FUNCTION | BLOCK => cut h (children n)
                  | _ => children n
                  end) (metadata n))).

(** What a run of the pass that returns has done, on any heap. *)
Definition pass_effect (pass : addr -> M addr) : Prop :=
  forall c h r h', pass c h = Done r h' ->
    r = c /\ drops_after_return h h' /\
    forall b, ~ visited h c b -> h' !! b = h !! b.

End IR.

(** ** [core/interpreter.py]

    The classes [RuntimeError], [ReturnException], [Environment] and
    [TypeChecker] are the ones the module defines at its end; they replace
    the imported names before any method runs.  An [Environment] is shared
    by the frames and closures that refer to it, so environments live in a
    store and [parent] is an address. *)

Module Interp.

Inductive ASTNode : Type :=
| BinaryOpNode (left : ASTNode) (operator : string) (right : ASTNode)
    (line column : Z)
| UnaryOpNode (operator : string) (operand : ASTNode) (line column : Z)
| LiteralNode (value : Py.value) (line column : Z)
| VariableNode (name : string) (line column : Z)
| CallNode (callee : ASTNode) (arguments : list ASTNode) (line column : Z)
| IfNode (condition then_branch : ASTNode) (else_branch : option ASTNode)
    (line column : Z)
| WhileNode (condition body : ASTNode) (line column : Z)
| ForNode (initializer condition increment body : ASTNode) (line column : Z)
| ReturnNode (value : option ASTNode) (line column : Z)
| BlockNode (statements : list ASTNode) (line column : Z)
| FunctionDefNode (name : string) (params : list string) (body : ASTNode)
    (line column : Z)
| VariableDeclNode (name : string) (initializer : option ASTNode)
    (line column : Z)
| AssignmentNode (target value : ASTNode) (line column : Z)
| StructDefNode (name : string) (fields : list (string * option string))
    (line column : Z)
| ImportNode (module_name : string) (line column : Z).

Abbreviation addr := nat.

(** A runtime value: a Python scalar, a [Function] object (an identity,
    the declaration and the closure environment) or the [StructDefNode]
    that [visit_struct_def] binds.  A struct definition is identified by
    its contents and source position. *)
Inductive value : Type :=
| Prim (v : Py.value)
| FunctionV (id : nat) (declaration : ASTNode) (closure : option addr)
| StructDefV (name : string) (fields : list (string * option string))
    (line column : Z).

Record Environment : Type := mkEnvironment {
  values : gmap string value;
  parent : option addr
}.

(** The interpreter object with the store of the environments it made.
    [env] is [None] once [pop_env] has left the global environment. *)
Record Interpreter : Type := mkInterpreter {
  envs : list Environment;
  global_env : addr;
  env : option addr;
  next_id : nat;
  stdout : list string
}.

Inductive exn : Type :=
| RuntimeError (message : string) (line column : Z)
| ReturnException (v : value)
| PyError (e : Py.exn).

(** [Undefined]: out of fuel, or an address that is not in the store. *)
Inductive res (A : Type) : Type :=
| Done (a : A) (i : Interpreter)
| Raised (e : exn) (i : Interpreter)
| Undefined.
Arguments Done {A} a i.
Arguments Raised {A} e i.
Arguments Undefined {A}.

Definition M (A : Type) : Type := Interpreter -> res A.

Definition ret {A} (a : A) : M A := fun i => Done a i.

Definition bind {A B} (m : M A) (k : A -> M B) : M B :=
  fun i =>
    match m i with
    | Done a i' => k a i'
    | Raised e i' => Raised e i'
    | Undefined => Undefined
    end.

Notation "'let*' x ':=' m 'in' k" := (bind m (fun x => k))
  (at level 10, x name, m at level 100, k at level 200).

Definition raise {A} (e : exn) : M A := fun i => Raised e i.

Definition undefined {A} : M A := fun _ => Undefined.

(** [try: m finally: cleanup] *)
Definition finally {A} (m : M A) (cleanup : M unit) : M A :=
  fun i =>
    match m i with
    | Done a i' =>
        match cleanup i' with
        | Done _ i'' => Done a i''
        | Raised e i'' => Raised e i''
        | Undefined => Undefined
        end
    | Raised e i' =>
        match cleanup i' with
        | Done _ i'' => Raised e i''
        | Raised e' i'' => Raised e' i''
        | Undefined => Undefined
        end
    | Undefined => Undefined
    end.

(** [for x in l: f(x)] *)
Fixpoint forM {A} (f : A -> M value) (l : list A) : M unit :=
  match l with
  | [] => ret tt
  | x :: l => let* _ := f x in forM f l
  end.

(** [[f(x) for x in l]] *)
Fixpoint mapM {A B} (f : A -> M B) (l : list A) : M (list B) :=
  match l with
  | [] => ret []
  | x :: l =>
      let* y := f x in
      let* ys := mapM f l in
      ret (y :: ys)
  end.

Definition None_ : value := Prim Py.VNone.

Definition is_None (v : value) : bool :=
  match v with
  | Prim Py.VNone => true
  | _ => false
  end.

(** [bool(v)]: objects of classes without [__bool__] are true. *)
Definition truthy (v : value) : bool :=
  match v with
  | Prim p => Py.truthy p
  | _ => true
  end.

(** [isinstance(v, (int, float))] *)
Definition is_number (v : value) : bool :=
  match v with
  | Prim p => Py.is_number p
  | _ => false
  end.

Definition fields_eqb (a b : list (string * option string)) : bool :=
  bool_decide (a = b).

(** [l == r]: objects without [__eq__] are equal to themselves only. *)
Definition eq (l r : value) : bool :=
  match l, r with
  | Prim a, Prim b => Py.eq a b
  | FunctionV i _ _, FunctionV j _ _ => Nat.eqb i j
  | StructDefV n f ln c, StructDefV n' f' ln' c' =>
      String.eqb n n' && fields_eqb f f' && Z.eqb ln ln' && Z.eqb c c'
  | _, _ => false
  end.

(** [callable(v)]: no class of these values defines [__call__]; the class
    [Function] has a method [call]. *)
Definition callable (v : value) : bool := false.

(** *** [Environment] *)

(** [self.get(name)], following [parent]; [None] when the chain of parents
    does not end within [fuel] steps or leaves the store. *)
Fixpoint Environment_get (fuel : nat) (store : list Environment)
    (self : addr) (name : string) : option value :=
  match fuel with
  | O => None
  | S fuel =>
      match store !! self with
      | None => None
      | Some e =>
          match values e !! name with
          | Some v => Some v
          | None =>
              match parent e with
              | Some p => Environment_get fuel store p name
              | None => Some None_
              end
          end
      end
  end.

(** [self.assign(name, value)]: the answer and the store after it. *)
Fixpoint Environment_assign (fuel : nat) (store : list Environment)
    (self : addr) (name : string) (v : value)
    : option (bool * list Environment) :=
  match fuel with
  | O => None
  | S fuel =>
      match store !! self with
      | None => None
      | Some e =>
          match values e !! name with
          | Some _ =>
              Some (true,
                    <[self := mkEnvironment (<[name := v]> (values e)) (parent e)]>
                      store)
          | None =>
              match parent e with
              | Some p => Environment_assign fuel store p name v
              | None => Some (false, store)
              end
          end
      end
  end.

(** [self.define(name, value)] *)
Definition Environment_define (store : list Environment) (self : addr)
    (name : string) (v : value) : option (list Environment) :=
  match store !! self with
  | None => None
  | Some e =>
      Some (<[self := mkEnvironment (<[name := v]> (values e)) (parent e)]> store)
  end.

Definition with_envs (i : Interpreter) (store : list Environment) : Interpreter :=
  mkInterpreter store (global_env i) (env i) (next_id i) (stdout i).

Definition with_env (i : Interpreter) (e : option addr) : Interpreter :=
  mkInterpreter (envs i) (global_env i) e (next_id i) (stdout i).

(** [Environment(parent=p)] *)
Definition new_Environment (p : option addr) : M addr :=
  fun i => Done (length (envs i)) (with_envs i (envs i ++ [mkEnvironment ∅ p])).

(** [Interpreter()] *)
Definition init : Interpreter :=
  mkInterpreter [mkEnvironment ∅ None] 0 (Some 0) 0 [].

(** [self.env], as the receiver of a method call: [None] has no methods. *)
Definition current_env : M addr :=
  fun i =>
    match env i with
    | Some a => Done a i
    | None => Raised (PyError Py.AttributeError) i
    end.

Definition env_get (a : addr) (name : string) : M value :=
  fun i =>
    match Environment_get (length (envs i)) (envs i) a name with
    | Some v => Done v i
    | None => Undefined
    end.

Definition env_assign (a : addr) (name : string) (v : value) : M bool :=
  fun i =>
    match Environment_assign (length (envs i)) (envs i) a name v with
    | Some (b, store) => Done b (with_envs i store)
    | None => Undefined
    end.

Definition env_define (a : addr) (name : string) (v : value) : M unit :=
  fun i =>
    match Environment_define (envs i) a name v with
    | Some store => Done tt (with_envs i store)
    | None => Undefined
    end.

Definition push_env : M unit :=
  fun i =>
    match new_Environment (env i) i with
    | Done a i' => Done tt (with_env i' (Some a))
    | Raised e i' => Raised e i'
    | Undefined => Undefined
    end.

Definition pop_env : M unit :=
  let* a := current_env in
  fun i =>
    match envs i !! a with
    | Some e => Done tt (with_env i (parent e))
    | None => Undefined
    end.

Definition set_env (e : option addr) : M unit :=
  fun i => Done tt (with_env i e).

Definition print (line : string) : M unit :=
  fun i =>
    Done tt (mkInterpreter (envs i) (global_env i) (env i) (next_id i)
                           (stdout i ++ [line])).

(** [Function(declaration, closure)]: a new object. *)
Definition new_Function (declaration : ASTNode) (closure : option addr)
    : M value :=
  fun i =>
    Done (FunctionV (next_id i) declaration closure)
         (mkInterpreter (envs i) (global_env i) (env i) (S (next_id i))
                        (stdout i)).

(** [node.name], for the node classes that have the attribute. *)
Definition node_name (node : ASTNode) : option string :=
  match node with
  | VariableNode name _ _ => Some name
  | FunctionDefNode name _ _ _ _ => Some name
  | VariableDeclNode name _ _ _ => Some name
  | StructDefNode name _ _ _ => Some name
  | _ => None
  end.

Section Visitor.

(** Float arithmetic and the like, see [Py.Operators]. *)
Variable extern : string -> Py.value -> Py.value -> Py.result.

(** [str(v)], as an f-string formats a value. *)
Variable str : value -> string.

Definition lift (r : Py.result) : M value :=
  match r with
  | Py.Ok v => ret (Prim v)
  | Py.Raise e => raise (PyError e)
  end.

(** A Python operator on two runtime values. *)
Definition apply (f : Py.value -> Py.value -> Py.result) (l r : value)
    : M value :=
  match l, r with
  | Prim a, Prim b => lift (f a b)
  | _, _ => raise (PyError Py.TypeError)
  end.

(** [TypeChecker.check_numeric(left, right, node)] *)
Definition check_numeric (left_ right_ : value) (line column : Z) : M unit :=
  if is_number left_ && (is_None right_ || is_number right_)
  then ret tt
  else raise (RuntimeError "Operands must be numeric" line column).

Definition visit_binary_op (op : string) (left_ right_ : value)
    (line column : Z) : M value :=
  if String.eqb op "+" then
    let* _ := check_numeric left_ right_ line column in
    apply (Py.add extern) left_ right_
  else if String.eqb op "-" then
    let* _ := check_numeric left_ right_ line column in
    apply (Py.sub extern) left_ right_
  else if String.eqb op "*" then
    let* _ := check_numeric left_ right_ line column in
    apply (Py.mul extern) left_ right_
  else if String.eqb op "/" then
    let* _ := check_numeric left_ right_ line column in
    if eq right_ (Prim (Py.VInt 0))
    then raise (RuntimeError "Division by zero" line column)
    else apply (Py.truediv extern) left_ right_
  else if String.eqb op "==" then ret (Prim (Py.VBool (eq left_ right_)))
  else if String.eqb op "!=" then
    ret (Prim (Py.VBool (negb (eq left_ right_))))
  else if String.eqb op "<" then
    let* _ := check_numeric left_ right_ line column in
    apply Py.lt left_ right_
  else if String.eqb op "<=" then
    let* _ := check_numeric left_ right_ line column in
    apply Py.le left_ right_
  else if String.eqb op ">" then
    let* _ := check_numeric left_ right_ line column in
    apply Py.gt left_ right_
  else if String.eqb op ">=" then
    let* _ := check_numeric left_ right_ line column in
    apply Py.ge left_ right_
  else if String.eqb op "&&" then
    ret (Prim (Py.VBool (truthy left_ && truthy right_)))
  else if String.eqb op "||" then
    ret (Prim (Py.VBool (truthy left_ || truthy right_)))
  else
    raise (RuntimeError ("Unknown binary operator '" ++ op ++ "'") line column).

Definition visit_unary_op (op : string) (operand : value)
    (line column : Z) : M value :=
  if String.eqb op "-" then
    let* _ := check_numeric operand None_ line column in
    match operand with
    | Prim p => lift (Py.neg p)
    | _ => raise (PyError Py.TypeError)
    end
  else if String.eqb op "!" then
    ret (Prim (Py.VBool (negb (truthy operand))))
  else
    raise (RuntimeError ("Unknown unary operator '" ++ op ++ "'") line column).

(** [except ReturnException as ret: return ret.value] around a body that
    otherwise falls through to [return None]. *)
Definition catch_return (m : M unit) : M value :=
  fun i =>
    match m i with
    | Done _ i' => Done None_ i'
    | Raised (ReturnException v) i' => Done v i'
    | Raised e i' => Raised e i'
    | Undefined => Undefined
    end.

(** [except RuntimeError as e: raise RuntimeError(str(e), line, column)] *)
Definition relocate_runtime_error {A} (m : M A) (line column : Z) : M A :=
  fun i =>
    match m i with
    | Raised (RuntimeError msg _ _) i' => Raised (RuntimeError msg line column) i'
    | r => r
    end.

Fixpoint define_params (a : addr) (bindings : list (string * value))
    : M unit :=
  match bindings with
  | [] => ret tt
  | (name, v) :: bindings =>
      let* _ := env_define a name v in
      define_params a bindings
  end.

(** [node.accept(self)], [Function.call] and the loop of [visit_for]. *)
Fixpoint accept (fuel : nat) (node : ASTNode) {struct fuel} : M value :=
  match fuel with
  | O => undefined
  | S fuel =>
      match node with
      | LiteralNode v _ _ => ret (Prim v)
      | VariableNode name line column =>
          let* a := current_env in
          let* v := env_get a name in
          if is_None v
          then raise (RuntimeError ("Undefined variable '" ++ name ++ "'")
                                   line column)
          else ret v
      | BinaryOpNode l op r line column =>
          let* left_ := accept fuel l in
          let* right_ := accept fuel r in
          visit_binary_op op left_ right_ line column
      | UnaryOpNode op e line column =>
          let* operand := accept fuel e in
          visit_unary_op op operand line column
      | CallNode callee arguments line column =>
          let* c := accept fuel callee in
          if negb (callable c) then
            raise (RuntimeError
                     ("Attempted to call non-function '" ++ str c ++ "'")
                     line column)
          else
            let* args := mapM (accept fuel) arguments in
            relocate_runtime_error (call fuel c args) line column
      | VariableDeclNode name initializer _ _ =>
          let* v :=
            match initializer with
            | Some e => accept fuel e
            | None => ret None_
            end in
          let* a := current_env in
          let* _ := env_define a name v in
          ret None_
      | AssignmentNode target e line column =>
          let* v := accept fuel e in
          let* a := current_env in
          match node_name target with
          | None => raise (PyError Py.AttributeError)
          | Some name =>
              let* found := env_assign a name v in
              if negb found
              then raise (RuntimeError ("Undefined variable '" ++ name ++ "'")
                                       line column)
              else ret None_
          end
      | BlockNode statements _ _ =>
          let* _ := push_env in
          let* _ := finally (forM (accept fuel) statements) pop_env in
          ret None_
      | IfNode condition then_branch else_branch _ _ =>
          let* cond := accept fuel condition in
          if truthy cond then
            let* _ := accept fuel then_branch in ret None_
          else
            match else_branch with
            | Some e => let* _ := accept fuel e in ret None_
            | None => ret None_
            end
      | WhileNode condition body _ _ =>
          let* cond := accept fuel condition in
          if truthy cond then
            let* _ := accept fuel body in
            accept fuel node
          else ret None_
      | ForNode initializer condition increment body _ _ =>
          let* _ := push_env in
          let* _ :=
            finally
              (let* _ := accept fuel initializer in
               for_loop fuel condition increment body)
              pop_env in
          ret None_
      | ReturnNode e _ _ =>
          let* v :=
            match e with
            | Some e => accept fuel e
            | None => ret None_
            end in
          raise (ReturnException v)
      | FunctionDefNode name _ _ _ _ =>
          fun i =>
            (let* func := new_Function node (env i) in
             let* a := current_env in
             let* _ := env_define a name func in
             ret None_) i
      | StructDefNode name fields line column =>
          let* a := current_env in
          let* _ := env_define a name (StructDefV name fields line column) in
          ret None_
      | ImportNode module_name _ _ =>
          let* _ := print ("Importing module " ++ module_name
                           ++ " (not implemented)") in
          ret None_
      end
  end

with for_loop (fuel : nat) (condition increment body : ASTNode)
    {struct fuel} : M unit :=
  match fuel with
  | O => undefined
  | S fuel =>
      let* cond := accept fuel condition in
      if truthy cond then
        let* _ := accept fuel body in
        let* _ := accept fuel increment in
        for_loop fuel condition increment body
      else ret tt
  end

with call (fuel : nat) (self : value) (arguments : list value)
    {struct fuel} : M value :=
  match fuel with
  | O => undefined
  | S fuel =>
      match self with
      | FunctionV _ declaration closure =>
          (* Create new environment for function call, enclosing closure *)
          let* new_env := new_Environment closure in
          match declaration with
          | FunctionDefNode _ params body line column =>
              if negb (Nat.eqb (length arguments) (length params)) then
                raise (RuntimeError
                         ("Expected " ++ pretty (length params)
                          ++ " arguments but got "
                          ++ pretty (length arguments))
                         line column)
              else
                let* _ := define_params new_env (combine params arguments) in
                finally
                  (catch_return
                     (let* _ := push_env in
                      let* _ := set_env (Some new_env) in
                      let* _ := accept fuel body in
                      ret tt))
                  pop_env
          | _ => raise (PyError Py.AttributeError)
          end
      | _ => raise (PyError Py.AttributeError)
      end
  end.

(** [interpret(node)]: the entry point; it reports a [RuntimeError] and a
    [return] outside a function on the output and answers [None]. *)
Definition interpret (fuel : nat) (node : ASTNode) : M value :=
  fun i =>
    match accept fuel node i with
    | Raised (RuntimeError message line column) i' =>
        (let* _ := print ("Runtime error at " ++ pretty line ++ ":"
                          ++ pretty column ++ " - " ++ message) in
         ret None_) i'
    | Raised (ReturnException _) i' =>
        (let* _ := print "Unexpected return statement outside function." in
         ret None_) i'
    | r => r
    end.

End Visitor.

(** The store only grows, and an environment keeps its parent. *)
Definition store_ext (s s' : list Environment) : Prop :=
  length s <= length s' /\
  forall a e, s !! a = Some e ->
    exists e', s' !! a = Some e' /\ parent e' = parent e.

(** The state a visit may leave: same current environment, larger store. *)
Definition kept (i i' : Interpreter) : Prop :=
  env i' = env i /\ store_ext (envs i) (envs i').

Definition keeps {A} (i : Interpreter) (r : res A) : Prop :=
  match r with
  | Done _ i' | Raised _ i' => kept i i'
  | Undefined => True
  end.

End Interp.

(** ** [runtime/runtime_env.py]

    The scopes are shared objects too: every frame of [call_function] has
    the global scope as the parent of its local scope. *)

Module RuntimeEnv.

Abbreviation addr := nat.

Section Env.
(** The values bound to variables. *)
Context {V : Type}.

Record Scope : Type := mkScope {
  symbols : gmap string (option V);
  parent : option addr
}.

Record StackFrame : Type := mkStackFrame {
  function_name : string;
  local_scope : addr;
  return_address : option Z;
  instruction_pointer : Z;
  metadata : list (string * string)
}.

Record RuntimeEnv : Type := mkRuntimeEnv {
  scopes : list Scope;
  global_scope : addr;
  call_stack : list StackFrame
}.

(** The module's own [RuntimeError(msg)]. *)
Inductive RuntimeError : Type := mkRuntimeError (msg : string).

Inductive res (A : Type) : Type :=
| Done (a : A) (e : RuntimeEnv)
| Raised (err : RuntimeError) (e : RuntimeEnv)
| Undefined.
Arguments Done {A} a e.
Arguments Raised {A} err e.
Arguments Undefined {A}.

(** [Scope.declare(name, value)] on the scope at [a]. *)
Definition declare (a : addr) (name : string) (v : option V)
    (e : RuntimeEnv) : res unit :=
  match scopes e !! a with
  | None => Undefined
  | Some sc =>
      match symbols sc !! name with
      | Some _ =>
          Raised (mkRuntimeError ("Variable '" ++ name
                                  ++ "' already declared in current scope.")) e
      | None =>
          Done tt
            (mkRuntimeEnv
               (<[a := mkScope (<[name := v]> (symbols sc)) (parent sc)]>
                  (scopes e))
               (global_scope e) (call_stack e))
      end
  end.

(** [push_stack_frame]: a [StackFrame] with a new local [Scope]. *)
Definition push_stack_frame (function_name : string)
    (return_address : option Z) (parent_scope : option addr)
    (e : RuntimeEnv) : res StackFrame :=
  let a := length (scopes e) in
  let frame := mkStackFrame function_name a return_address 0 [] in
  Done frame
    (mkRuntimeEnv (scopes e ++ [mkScope ∅ parent_scope]) (global_scope e)
                  (call_stack e ++ [frame])).

(** [RuntimeEnv()] *)
Definition init : RuntimeEnv :=
  let e := mkRuntimeEnv [mkScope ∅ None] 0 [] in
  match push_stack_frame "<global>" None (Some 0) e with
  | Done _ e' => e'
  | _ => e
  end.

(** The stub table of [lookup_function]: name to parameter names. *)
Definition example_functions : list (string * list string) :=
  [("foo", ["x"; "y"]); ("bar", [])].

Definition lookup_function (function_name : string) (e : RuntimeEnv)
    : res (list string) :=
  match Dict.get function_name example_functions with
  | None =>
      Raised (mkRuntimeError ("Function '" ++ function_name
                              ++ "' is not defined.")) e
  | Some params => Done params e
  end.

Fixpoint declare_params (a : addr) (bindings : list (string * V))
    (e : RuntimeEnv) : res unit :=
  match bindings with
  | [] => Done tt e
  | (param_name, arg_value) :: bindings =>
      match declare a param_name (Some arg_value) e with
      | Done _ e' => declare_params a bindings e'
      | Raised err e' => Raised err e'
      | Undefined => Undefined
      end
  end.

Definition with_instruction_pointer (f : StackFrame) (ip : Z) : StackFrame :=
  mkStackFrame (function_name f) (local_scope f) (return_address f) ip
               (metadata f).

(** [new_frame.instruction_pointer = ip]; [new_frame] is the frame that
    was just pushed, the last of [call_stack]. *)
Definition set_top_instruction_pointer (ip : Z) (e : RuntimeEnv) : RuntimeEnv :=
  match last (call_stack e) with
  | None => e
  | Some f =>
      mkRuntimeEnv (scopes e) (global_scope e)
        (removelast (call_stack e) ++ [with_instruction_pointer f ip])
  end.

Definition call_function (function_name : string) (args : list V)
    (e : RuntimeEnv) : res StackFrame :=
  match lookup_function function_name e with
  | Raised err e' => Raised err e'
  | Undefined => Undefined
  | Done params e =>
      if negb (Nat.eqb (length args) (length params)) then
        Raised (mkRuntimeError
                  ("Function '" ++ function_name ++ "' expects "
                   ++ pretty (length params) ++ " arguments, got "
                   ++ pretty (length args) ++ ".")) e
      else
        match push_stack_frame function_name None (Some (global_scope e)) e with
        | Raised err e' => Raised err e'
        | Undefined => Undefined
        | Done new_frame e1 =>
            match declare_params (local_scope new_frame)
                                 (combine params args) e1 with
            | Raised err e' => Raised err e'
            | Undefined => Undefined
            | Done _ e2 =>
                Done (with_instruction_pointer new_frame 0)
                     (set_top_instruction_pointer 0 e2)
            end
        end
  end.

(** *** Variables and the call stack

    The methods below index the call stack; on an empty [deque] that is
    an [IndexError], which the methods above cannot raise. *)
Inductive exn : Type :=
| Runtime (err : RuntimeError)
| IndexError.

(** [Unfollowed]: a chain of parent scopes that does not end within the
    fuel, or leaves the store. *)
Inductive outcome (A : Type) : Type :=
| Returned (a : A) (e : RuntimeEnv)
| Failed (x : exn) (e : RuntimeEnv)
| Unfollowed.
Arguments Returned {A} a e.
Arguments Failed {A} x e.
Arguments Unfollowed {A}.

Definition of_res {A} (r : res A) : outcome A :=
  match r with
  | Done a e => Returned a e
  | Raised err e => Failed (Runtime err) e
  | Undefined => Unfollowed
  end.

(** [Scope.get(name)] on the scope at [self]; a variable that was declared
    without a value holds [None]. *)
Fixpoint Scope_get (fuel : nat) (self : addr) (name : string)
    (e : RuntimeEnv) : outcome (option V) :=
  match fuel with
  | O => Unfollowed
  | S fuel =>
      match scopes e !! self with
      | None => Unfollowed
      | Some sc =>
          match symbols sc !! name with
          | Some v => Returned v e
          | None =>
              match parent sc with
              | Some p => Scope_get fuel p name e
              | None =>
                  Failed
                    (Runtime
                       (mkRuntimeError
                          ("Variable '" ++ name
                           ++ "' is not defined in the current scope chain.")))
                    e
              end
          end
      end
  end.

(** [Scope.has(name)] *)
Fixpoint Scope_has (fuel : nat) (store : list Scope) (self : addr)
    (name : string) : option bool :=
  match fuel with
  | O => None
  | S fuel =>
      match store !! self with
      | None => None
      | Some sc =>
          match symbols sc !! name with
          | Some _ => Some true
          | None =>
              match parent sc with
              | Some p => Scope_has fuel store p name
              | None => Some false
              end
          end
      end
  end.

(** [self.symbols[name] = value] on the scope at [a]. *)
Definition bind_symbol (a : addr) (sc : Scope) (name : string)
    (value : option V) (e : RuntimeEnv) : RuntimeEnv :=
  mkRuntimeEnv
    (<[a := mkScope (<[name := value]> (symbols sc)) (parent sc)]> (scopes e))
    (global_scope e) (call_stack e).

(** [Scope.set(name, value)] *)
Fixpoint Scope_set (fuel : nat) (self : addr) (name : string)
    (value : option V) (e : RuntimeEnv) : outcome unit :=
  match fuel with
  | O => Unfollowed
  | S fuel =>
      match scopes e !! self with
      | None => Unfollowed
      | Some sc =>
          match symbols sc !! name with
          | Some _ => Returned tt (bind_symbol self sc name value e)
          | None =>
              match parent sc with
              | Some p =>
                  match Scope_has fuel (scopes e) p name with
                  | Some true => Scope_set fuel p name value e
                  | Some false =>
                      (* New variable assignment in current scope *)
                      Returned tt (bind_symbol self sc name value e)
                  | None => Unfollowed
                  end
              | None => Returned tt (bind_symbol self sc name value e)
              end
          end
      end
  end.

(** [current_frame()]: [self.call_stack[-1]] *)
Definition current_frame (e : RuntimeEnv) : outcome StackFrame :=
  match last (call_stack e) with
  | Some frame => Returned frame e
  | None => Failed IndexError e
  end.

Definition pop_stack_frame (e : RuntimeEnv) : outcome StackFrame :=
  if Nat.leb (length (call_stack e)) 1 then
    Failed
      (Runtime
         (mkRuntimeError "Attempted to pop global frame which is not allowed."))
      e
  else
    match last (call_stack e) with
    | Some frame =>
        Returned frame
          (mkRuntimeEnv (scopes e) (global_scope e)
                        (removelast (call_stack e)))
    | None => Failed IndexError e
    end.

Definition get_variable (name : string) (e : RuntimeEnv)
    : outcome (option V) :=
  match current_frame e with
  | Returned frame e =>
      Scope_get (length (scopes e)) (local_scope frame) name e
  | Failed x e => Failed x e
  | Unfollowed => Unfollowed
  end.

Definition set_variable (name : string) (value : option V) (e : RuntimeEnv)
    : outcome unit :=
  match current_frame e with
  | Returned frame e =>
      Scope_set (length (scopes e)) (local_scope frame) name value e
  | Failed x e => Failed x e
  | Unfollowed => Unfollowed
  end.

Definition declare_variable (name : string) (value : option V)
    (e : RuntimeEnv) : outcome unit :=
  match current_frame e with
  | Returned frame e => of_res (declare (local_scope frame) name value e)
  | Failed x e => Failed x e
  | Unfollowed => Unfollowed
  end.

Definition variable_exists (name : string) (e : RuntimeEnv) : outcome bool :=
  match current_frame e with
  | Returned frame e =>
      match Scope_has (length (scopes e)) (scopes e) (local_scope frame) name
      with
      | Some b => Returned b e
      | None => Unfollowed
      end
  | Failed x e => Failed x e
  | Unfollowed => Unfollowed
  end.

Definition current_instruction_pointer (e : RuntimeEnv) : outcome Z :=
  match current_frame e with
  | Returned frame e => Returned (instruction_pointer frame) e
  | Failed x e => Failed x e
  | Unfollowed => Unfollowed
  end.

Definition set_instruction_pointer (ip : Z) (e : RuntimeEnv) : outcome unit :=
  match current_frame e with
  | Returned _ e => Returned tt (set_top_instruction_pointer ip e)
  | Failed x e => Failed x e
  | Unfollowed => Unfollowed
  end.

(** The environment a method leaves, whether it returns or raises. *)
Definition left_by {A} (e : RuntimeEnv) (r : outcome A) : RuntimeEnv :=
  match r with
  | Returned _ e' => e'
  | Failed _ e' => e'
  | Unfollowed => e
  end.

(** A call of one of the methods that change the environment.  The
    parent scope given to [push_stack_frame] is a scope of the store, or
    [None]. *)
Inductive call : Type :=
| PushStackFrame (function_name : string) (return_address : option Z)
    (parent_scope : option addr)
| PopStackFrame
| SetVariable (name : string) (value : option V)
| DeclareVariable (name : string) (value : option V)
| CallFunction (function_name : string) (args : list V)
| SetInstructionPointer (ip : Z).

Definition in_store (c : call) (e : RuntimeEnv) : Prop :=
  match c with
  | PushStackFrame _ _ (Some p) => p < length (scopes e)
  | _ => True
  end.

Definition perform (c : call) (e : RuntimeEnv) : RuntimeEnv :=
  match c with
  | PushStackFrame f r p => left_by e (of_res (push_stack_frame f r p e))
  | PopStackFrame => left_by e (pop_stack_frame e)
  | SetVariable x v => left_by e (set_variable x v e)
  | DeclareVariable x v => left_by e (declare_variable x v e)
  | CallFunction f args => left_by e (of_res (call_function f args e))
  | SetInstructionPointer ip => left_by e (set_instruction_pointer ip e)
  end.

(** The environments a program can make: [RuntimeEnv()] and what the
    methods leave, a caught exception included. *)
Inductive reachable : RuntimeEnv -> Prop :=
| reachable_init : reachable init
| reachable_perform c e :
    reachable e -> in_store c e -> reachable (perform c e).

(** The shape of the environments a program can make: the stack is not
    empty; the global scope is in the store, binds nothing and has no
    parent; a parent scope was made before its child; and the local scope
    of a frame is in the store and is not the global scope. *)
(** The symbols after a run of declarations. *)
Definition declared (m : gmap string (option V)) (bindings : list (string * V))
    : gmap string (option V) :=
  foldl (fun m kv => <[fst kv := Some (snd kv)]> m) m bindings.

Definition parents_first (e : RuntimeEnv) : Prop :=
  forall a sc p, scopes e !! a = Some sc -> parent sc = Some p -> p < a.

Definition well_formed (e : RuntimeEnv) : Prop :=
  call_stack e <> [] /\
  scopes e !! global_scope e = Some (mkScope ∅ None) /\
  parents_first e /\
  (forall f, f ∈ call_stack e ->
     local_scope f < length (scopes e) /\ local_scope f <> global_scope e).

End Env.

Arguments RuntimeEnv V : clear implicits.
Arguments res V A : clear implicits.
Arguments Done {V A} a e.
Arguments Raised {V A} err e.
Arguments Undefined {V A}.
Arguments outcome V A : clear implicits.
Arguments Returned {V A} a e.
Arguments Failed {V A} x e.
Arguments Unfollowed {V A}.
Arguments call V : clear implicits.

End RuntimeEnv.

(** ** [runtime/memory.py] *)

Module Memory.

(** [RuntimeValue] is the interface of the stored values; the heap uses
    its method [size_in_bytes] only. *)
Class RuntimeValue (V : Type) : Type := size_in_bytes : V -> Z.

(** [IntValue] and [StringValue] of [runtime/value_types.py]; a string is
    its UTF-8 bytes. *)
Inductive BasicValue : Type :=
| IntValue (value : Z)
| StringValue (value : string).

#[global] Instance BasicValue_RuntimeValue : RuntimeValue BasicValue :=
  fun v =>
    match v with
    | IntValue _ => 4%Z
    | StringValue s => Z.of_nat (String.length s)
    end.

Section Manager.
Context {V : Type} `{RuntimeValue V}.

Record MemoryObject : Type := mkMemoryObject {
  value : V;
  ref_count : Z
}.

(** A stack frame: variable name to address, in insertion order. *)
Definition frame : Type := list (string * Z).

(** What [current_frame_vars] refers to: the dictionary on top of
    [stack_frames], or a dictionary that is not on the stack (the one of
    [__init__], the fresh one after the last frame was popped, or a
    popped frame whose release raised). *)
Inductive frame_ref : Type :=
| Top
| Detached (vars : frame).

Record MemoryManager : Type := mkMemoryManager {
  heap : gmap Z MemoryObject;
  next_addr : Z;
  stack_frames : list frame;
  current_frame_vars : frame_ref;
  heap_size : Z;
  used_heap_size : Z
}.

(** [MemoryError(msg)] *)
Inductive MemoryError : Type := mkMemoryError (msg : string).

Inductive res (A : Type) : Type :=
| Done (a : A) (m : MemoryManager)
| Raised (e : MemoryError) (m : MemoryManager).
Arguments Done {A} a m.
Arguments Raised {A} e m.

(** [MemoryManager(heap_size)] *)
Definition init (heap_size : Z) : MemoryManager :=
  mkMemoryManager ∅ 1 [] (Detached []) heap_size 0.

Definition with_heap (m : MemoryManager) (h : gmap Z MemoryObject)
    (used : Z) : MemoryManager :=
  mkMemoryManager h (next_addr m) (stack_frames m) (current_frame_vars m)
                  (heap_size m) used.

Definition allocate (v : V) (m : MemoryManager) : res Z :=
  let size := size_in_bytes v in
  if (heap_size m <? used_heap_size m + size)%Z
  then Raised (mkMemoryError "Out of heap memory") m
  else
    let addr := next_addr m in
    Done addr
      (mkMemoryManager (<[addr := mkMemoryObject v 1]> (heap m))
                       (next_addr m + 1) (stack_frames m)
                       (current_frame_vars m) (heap_size m)
                       (used_heap_size m + size)).

Definition deallocate (addr : Z) (m : MemoryManager) : res unit :=
  match heap m !! addr with
  | None =>
      Raised (mkMemoryError ("Invalid free at address " ++ pretty addr)) m
  | Some obj =>
      if negb (Z.eqb (ref_count obj) 0)
      then Raised (mkMemoryError
                     ("Attempt to free still-referenced object at "
                      ++ pretty addr)) m
      else
        Done tt (with_heap m (delete addr (heap m))
                           (used_heap_size m - size_in_bytes (value obj)))
  end.

Definition inc_ref (addr : Z) (m : MemoryManager) : res unit :=
  match heap m !! addr with
  | None =>
      Raised (mkMemoryError ("Invalid inc_ref on address " ++ pretty addr)) m
  | Some obj =>
      Done tt
        (with_heap m
           (<[addr := mkMemoryObject (value obj) (ref_count obj + 1)]> (heap m))
           (used_heap_size m))
  end.

Definition dec_ref (addr : Z) (m : MemoryManager) : res unit :=
  match heap m !! addr with
  | None =>
      Raised (mkMemoryError ("Invalid dec_ref on address " ++ pretty addr)) m
  | Some obj =>
      (* obj.dec_ref() *)
      let obj' := mkMemoryObject (value obj) (ref_count obj - 1) in
      let m' := with_heap m (<[addr := obj']> (heap m)) (used_heap_size m) in
      if (ref_count obj' <? 0)%Z
      then Raised (mkMemoryError "Reference count dropped below zero") m'
      else if Z.eqb (ref_count obj') 0 then deallocate addr m'
      else Done tt m'
  end.

Definition read (addr : Z) (m : MemoryManager) : res V :=
  match heap m !! addr with
  | None =>
      Raised (mkMemoryError
                ("Invalid memory read at address " ++ pretty addr)) m
  | Some obj => Done (value obj) m
  end.

Definition write (addr : Z) (v : V) (m : MemoryManager) : res unit :=
  match heap m !! addr with
  | None =>
      Raised (mkMemoryError
                ("Invalid memory write at address " ++ pretty addr)) m
  | Some old_obj =>
      let old_size := size_in_bytes (value old_obj) in
      let new_size := size_in_bytes v in
      Done tt
        (with_heap m
           (<[addr := mkMemoryObject v (ref_count old_obj)]> (heap m))
           (used_heap_size m + (new_size - old_size)))
  end.

Definition push_stack_frame (m : MemoryManager) : res unit :=
  Done tt
    (mkMemoryManager (heap m) (next_addr m) (stack_frames m ++ [[]]) Top
                     (heap_size m) (used_heap_size m)).

(** The loop of [pop_stack_frame] over [frame.items()]. *)
Fixpoint release (items : frame) (m : MemoryManager) : res unit :=
  match items with
  | [] => Done tt m
  | (_, addr) :: items =>
      match dec_ref addr m with
      | Done _ m' => release items m'
      | Raised e m' => Raised e m'
      end
  end.

Definition pop_stack_frame (m : MemoryManager) : res unit :=
  match last (stack_frames m) with
  | None =>
      Raised (mkMemoryError "Pop stack frame called on empty stack") m
  | Some fr =>
      let rest := removelast (stack_frames m) in
      (* the popped dictionary is still what [current_frame_vars] names
         until the last line of the method *)
      let cur :=
        match current_frame_vars m with
        | Top => Detached fr
        | Detached d => Detached d
        end in
      let m1 :=
        mkMemoryManager (heap m) (next_addr m) rest cur
                        (heap_size m) (used_heap_size m) in
      match release fr m1 with
      | Raised e m2 => Raised e m2
      | Done _ m2 =>
          Done tt
            (mkMemoryManager (heap m2) (next_addr m2) (stack_frames m2)
               (match stack_frames m2 with [] => Detached [] | _ => Top end)
               (heap_size m2) (used_heap_size m2))
      end
  end.

(** The dictionary [current_frame_vars] names. *)
Definition current_vars (m : MemoryManager) : frame :=
  match current_frame_vars m with
  | Top => default [] (last (stack_frames m))
  | Detached d => d
  end.

(** [self.current_frame_vars[name] = addr] *)
Definition bind_current (name : string) (addr : Z) (m : MemoryManager)
    : MemoryManager :=
  match current_frame_vars m with
  | Top =>
      mkMemoryManager (heap m) (next_addr m)
        (removelast (stack_frames m)
           ++ [Dict.set name addr (default [] (last (stack_frames m)))])
        Top (heap_size m) (used_heap_size m)
  | Detached d =>
      mkMemoryManager (heap m) (next_addr m) (stack_frames m)
        (Detached (Dict.set name addr d)) (heap_size m) (used_heap_size m)
  end.

Definition declare_local_variable (name : string) (v : V)
    (m : MemoryManager) : res unit :=
  match allocate v m with
  | Raised e m' => Raised e m'
  | Done addr m' => Done tt (bind_current name addr m')
  end.

Definition get_local_variable (name : string) (m : MemoryManager) : res V :=
  match Dict.get name (current_vars m) with
  | None =>
      Raised (mkMemoryError ("Local variable '" ++ name
                             ++ "' not found in current frame")) m
  | Some addr => read addr m
  end.

Definition set_local_variable (name : string) (v : V) (m : MemoryManager)
    : res unit :=
  match Dict.get name (current_vars m) with
  | None =>
      Raised (mkMemoryError ("Local variable '" ++ name
                             ++ "' not found in current frame")) m
  | Some addr => write addr v m
  end.

Definition check_address_valid (addr : Z) (m : MemoryManager) : bool :=
  bool_decide (is_Some (heap m !! addr)).

(** The public methods that touch the manager, as one type of calls. *)
Inductive call : Type :=
| Allocate (v : V)
| Deallocate (addr : Z)
| IncRef (addr : Z)
| DecRef (addr : Z)
| Read (addr : Z)
| Write (addr : Z) (v : V)
| PushStackFrame
| PopStackFrame
| DeclareLocalVariable (name : string) (v : V)
| GetLocalVariable (name : string)
| SetLocalVariable (name : string) (v : V).

Definition after {A} (r : res A) : MemoryManager :=
  match r with
  | Done _ m => m
  | Raised _ m => m
  end.

Definition raises {A} (r : res A) : Prop :=
  match r with
  | Done _ _ => False
  | Raised _ _ => True
  end.

(** The manager a call leaves behind, whether it returned or raised. *)
Definition perform (c : call) (m : MemoryManager) : MemoryManager :=
  match c with
  | Allocate v => after (allocate v m)
  | Deallocate a => after (deallocate a m)
  | IncRef a => after (inc_ref a m)
  | DecRef a => after (dec_ref a m)
  | Read a => after (read a m)
  | Write a v => after (write a v m)
  | PushStackFrame => after (push_stack_frame m)
  | PopStackFrame => after (pop_stack_frame m)
  | DeclareLocalVariable x v => after (declare_local_variable x v m)
  | GetLocalVariable x => after (get_local_variable x m)
  | SetLocalVariable x v => after (set_local_variable x v m)
  end.

(** The heap invariant: every object on the heap is referenced, and was
    given an address below [next_addr]. *)
Definition heap_inv (m : MemoryManager) : Prop :=
  (forall a obj, heap m !! a = Some obj -> (1 <= ref_count obj)%Z) /\
  (forall a obj, heap m !! a = Some obj -> (1 <= a < next_addr m)%Z) /\
  (1 <= next_addr m)%Z.




(** The bytes of the values on the heap. *)
Definition total_size (h : gmap Z MemoryObject) : Z :=
  map_fold (fun _ obj acc => (size_in_bytes (value obj) + acc)%Z) 0%Z h.

(** [used_heap_size] is the size of what is on the heap. *)
Definition accounted (m : MemoryManager) : Prop :=
  used_heap_size m = total_size (heap m).

(** A sequence of calls, one after the other. *)
Definition perform_all (cs : list call) (m : MemoryManager) : MemoryManager :=
  fold_left (fun m c => perform c m) cs m.

(** The managers a program can get: a new one, and what calls of the
    methods make of it, whether they return or raise. *)
Inductive reachable : MemoryManager -> Prop :=
| reachable_init heap_size : reachable (init heap_size)
| reachable_perform c m : reachable m -> reachable (perform c m).

End Manager.

Arguments MemoryObject V : clear implicits.
Arguments MemoryManager V : clear implicits.
Arguments res V A : clear implicits.
Arguments call V : clear implicits.
Arguments Done {V A} a m.
Arguments Raised {V A} e m.

End Memory.

(** ** [ir/ir_to_runtime.py]

    [IRToRuntime] reads the IR objects and appends instructions, which are
    strings, to [self.bytecode].  It does not change the IR. *)

Module IRToRuntime.

Inductive exn : Type :=
| NotImplementedError (msg : string)
| AttributeError
| ValueError (msg : string).

Record IRToRuntime : Type := mkIRToRuntime {
  bytecode : list string;
  debug_info : list (nat * Py.value);
  _label_counter : Z
}.

(** [IRToRuntime(ir_root)], without the root. *)
Definition init : IRToRuntime := mkIRToRuntime [] [] 0.

(** [Undefined]: out of fuel, or an address that is not in the heap. *)
Inductive res (A : Type) : Type :=
| Done (a : A) (c : IRToRuntime)
| Raised (e : exn) (c : IRToRuntime)
| Undefined.
Arguments Done {A} a c.
Arguments Raised {A} e c.
Arguments Undefined {A}.

Definition M (A : Type) : Type := IRToRuntime -> res A.

Definition ret {A} (a : A) : M A := fun c => Done a c.

Definition bind {A B} (m : M A) (k : A -> M B) : M B :=
  fun c =>
    match m c with
    | Done a c' => k a c'
    | Raised e c' => Raised e c'
    | Undefined => Undefined
    end.

Notation "'let*' x ':=' m 'in' k" := (bind m (fun x => k))
  (at level 10, x name, m at level 100, k at level 200).

Definition raise {A} (e : exn) : M A := fun c => Raised e c.

Definition undefined {A} : M A := fun _ => Undefined.

(** [for x in l: f(x)] *)
Fixpoint forM {A} (f : A -> M unit) (l : list A) : M unit :=
  match l with
  | [] => ret tt
  | x :: l => let* _ := f x in forM f l
  end.

(** [str(node.node_type)] *)
Definition NodeType_str (t : IR.NodeType) : string :=
  "NodeType." ++
  match t with
  | IR.FUNCTION => "FUNCTION" | IR.VARIABLE => "VARIABLE"
  | IR.ASSIGNMENT => "ASSIGNMENT" | IR.IF => "IF" | IR.WHILE => "WHILE"
  | IR.EXPRESSION => "EXPRESSION" | IR.CALL => "CALL"
  | IR.RETURN => "RETURN" | IR.CONSTANT => "CONSTANT"
  | IR.BINARY_OP => "BINARY_OP" | IR.UNARY_OP => "UNARY_OP"
  | IR.BLOCK => "BLOCK"
  end.

(** The table [op_map] of [_map_operator_to_instr]. *)
Definition op_map : list (string * string) :=
  [ ("+", "ADD"); ("-", "SUB"); ("*", "MUL"); ("/", "DIV"); ("%", "MOD");
    ("==", "EQ"); ("!=", "NEQ"); ("<", "LT"); ("<=", "LTE"); (">", "GT");
    (">=", "GTE"); ("and", "AND"); ("or", "OR") ].

Definition _map_operator_to_instr (operator_str : string) : M string :=
  match Dict.get operator_str op_map with
  | None =>
      raise (ValueError ("Unknown operator for bytecode: " ++ operator_str))
  | Some instr => ret instr
  end.

(** [_new_label(prefix)] *)
Definition _new_label (prefix : string) : M string :=
  fun c =>
    let n := (_label_counter c + 1)%Z in
    Done (prefix ++ "_" ++ pretty n)%string
         (mkIRToRuntime (bytecode c) (debug_info c) n).

Section Emit.

(** The IR objects. *)
Variable h : IR.heap.

(** [repr] of a float, as an f-string formats it. *)
Variable float_repr : float -> string.

(** [f"{value}"] *)
Definition format (v : Py.value) : string :=
  match v with
  | Py.VNone => "None"
  | Py.VBool true => "True"
  | Py.VBool false => "False"
  | Py.VInt n => pretty n
  | Py.VFloat f => float_repr f
  | Py.VStr s => s
  end.

(** The local function [emit_with_debug] of [_emit_node], for the node
    [n] that is being emitted. *)
Definition emit_with_debug (n : IR.IRNode) (instr : string) : M unit :=
  fun c =>
    let bytecode' := bytecode c ++ [instr] in
    match Dict.get "source_loc" (IR.metadata n) with
    | Some loc =>
        Done tt
          (mkIRToRuntime bytecode'
             (debug_info c ++ [(length bytecode' - 1, loc)])
             (_label_counter c))
    | None => Done tt (mkIRToRuntime bytecode' (debug_info c) (_label_counter c))
    end.

(** [target_node.name], for the classes that have the attribute. *)
Definition name_of (n : IR.IRNode) : option string :=
  match IR.cls n with
  | IR.FunctionNode name _ _ => Some name
  | IR.VariableNode name _ => Some name
  | _ => None
  end.

(** [target_node, value_node = node.children] fails on other lengths. *)
Definition unpack_error (len : nat) : exn :=
  if Nat.ltb len 2
  then ValueError ("not enough values to unpack (expected 2, got "
                   ++ pretty len ++ ")")
  else ValueError "too many values to unpack (expected 2)".

Fixpoint _emit_node (fuel : nat) (node : IR.addr) : M unit :=
  match fuel with
  | O => undefined
  | S fuel =>
      match h !! node with
      | None => undefined
      | Some n =>
          match IR.node_type n with
          | IR.FUNCTION =>
              match IR.cls n with
              | IR.FunctionNode name params _ =>
                  let* _ := emit_with_debug n ("FUNC_START " ++ name) in
                  let* _ :=
                    forM (fun param => emit_with_debug n ("PARAM " ++ param))
                         params in
                  let* _ := forM (_emit_node fuel) (IR.children n) in
                  emit_with_debug n "FUNC_END"
              | _ => raise AttributeError
              end
          | IR.ASSIGNMENT =>
              match IR.children n with
              | [target_node; value_node] =>
                  let* _ := _emit_node fuel value_node in
                  match h !! target_node with
                  | None => undefined
                  | Some t =>
                      match name_of t with
                      | Some name => emit_with_debug n ("STORE " ++ name)
                      | None => raise AttributeError
                      end
                  end
              | cs => raise (unpack_error (length cs))
              end
          | IR.VARIABLE =>
              match name_of n with
              | Some name => emit_with_debug n ("LOAD " ++ name)
              | None => raise AttributeError
              end
          | IR.CONSTANT =>
              let value := default Py.VNone (Dict.get "value" (IR.metadata n)) in
              emit_with_debug n ("PUSH_CONST " ++ format value)
          | IR.BINARY_OP =>
              match IR.cls n with
              | IR.BinaryOpNode operator left_ right_ =>
                  let* _ := _emit_node fuel left_ in
                  let* _ := _emit_node fuel right_ in
                  let* op_instr := _map_operator_to_instr operator in
                  emit_with_debug n op_instr
              | _ => raise AttributeError
              end
          | IR.CALL =>
              match IR.cls n with
              | IR.CallNode function_name arguments =>
                  let* _ := forM (_emit_node fuel) arguments in
                  emit_with_debug n
                    ("CALL " ++ function_name ++ " "
                     ++ pretty (length arguments))
              | _ => raise AttributeError
              end
          | IR.RETURN =>
              let* _ :=
                match IR.children n with
                | value :: _ => _emit_node fuel value
                | [] => emit_with_debug n "PUSH_CONST None"
                end in
              emit_with_debug n "RETURN"
          | IR.IF =>
              let* else_label := _new_label "else" in
              let* end_label := _new_label "endif" in
              match IR.cls n with
              | IR.IfNode condition _ _ =>
                  let* _ := _emit_node fuel condition in
                  let* _ :=
                    emit_with_debug n ("JUMP_IF_FALSE " ++ else_label) in
                  (* [node.then_block]: an [IfNode] has [then_body] *)
                  raise AttributeError
              | _ =>
                  (* a bare [IRNode] has no [condition] *)
                  raise AttributeError
              end
          | IR.WHILE =>
              let* start_label := _new_label "while_start" in
              let* end_label := _new_label "while_end" in
              let* _ := emit_with_debug n ("LABEL " ++ start_label) in
              match IR.cls n with
              | IR.WhileNode condition body =>
                  let* _ := _emit_node fuel condition in
                  let* _ :=
                    emit_with_debug n ("JUMP_IF_FALSE " ++ end_label) in
                  let* _ := forM (_emit_node fuel) body in
                  let* _ := emit_with_debug n ("JUMP " ++ start_label) in
                  emit_with_debug n ("LABEL " ++ end_label)
              | _ => raise AttributeError
              end
          | IR.BLOCK => forM (_emit_node fuel) (IR.children n)
          | t =>
              raise (NotImplementedError
                       ("IRToRuntime: Unsupported node type " ++ NodeType_str t))
          end
      end
  end.

(** [compile()] on a new [IRToRuntime(ir_root)]: the bytecode. *)
Definition compile (fuel : nat) (ir_root : IR.addr) : res (list string) :=
  match _emit_node fuel ir_root init with
  | Done _ c => Done (bytecode c) c
  | Raised e c => Raised e c
  | Undefined => Undefined
  end.

End Emit.

(** The instructions of [op_map]. *)
Definition operator_instructions : list string := map snd op_map.

(** [c'] has the bytecode of [c] and after it instructions that are not
    operator instructions. *)
Definition extends (c c' : IRToRuntime) : Prop :=
  exists new,
    bytecode c' = bytecode c ++ new /\
    Forall (fun instr => instr ∉ operator_instructions) new.

Definition extended {A} (c : IRToRuntime) (r : res A) : Prop :=
  match r with
  | Done _ c' | Raised _ c' => extends c c'
  | Undefined => True
  end.

End IRToRuntime.

(* ===================================================================== *)
(** * Properties *)
(* ===================================================================== *)

(** ** Types: subtyping and unification *)

Section TypesFacts.
Import Types.

Lemma size_pos t : 1 <= size t.
Proof. destruct t; simpl; lia. Qed.

Lemma size_In_le (x : Ty) (l : list Ty) :
  In x l -> size x <= list_sum (map size l).
Proof.
  induction l as [|y l IH]; simpl; [tauto|].
  intros [->|Hin]; [lia|]. specialize (IH Hin). lia.
Qed.

Lemma size_field_le (kt : string * Ty) (fs : list (string * Ty)) :
  In kt fs -> size (snd kt) <= list_sum (map (fun kv => size (snd kv)) fs).
Proof.
  induction fs as [|y l IH]; simpl; [tauto|].
  intros [->|Hin]; [lia|]. specialize (IH Hin). lia.
Qed.

Lemma get_In (key : string) (fs : list (string * Ty)) t :
  Dict.get key fs = Some t -> exists k, In (k, t) fs.
Proof.
  induction fs as [|[k v] fs IH]; simpl; [discriminate|].
  destruct (String.eqb key k).
  - intros [= ->]. eauto.
  - intros H. destruct (IH H) as [k' Hk']. eauto.
Qed.

Lemma size_get_le (key : string) (fs : list (string * Ty)) t :
  Dict.get key fs = Some t ->
  size t <= list_sum (map (fun kv => size (snd kv)) fs).
Proof.
  intros H. destruct (get_In _ _ _ H) as [k Hk].
  apply (size_field_le (k, t)). exact Hk.
Qed.

Lemma forallb_ext_In {A} (f g : A -> bool) (l : list A) :
  (forall x, In x l -> f x = g x) -> forallb f l = forallb g l.
Proof.
  induction l as [|x l IH]; simpl; [reflexivity|].
  intros H. rewrite (H x) by auto. f_equal. apply IH. auto.
Qed.

Lemma all_zip_ext_In (f g : Ty -> Ty -> bool) (l l' : list Ty) :
  (forall a b, In a l -> In b l' -> f a b = g a b) ->
  all_zip f l l' = all_zip g l l'.
Proof.
  intros H. unfold all_zip. apply forallb_ext_In.
  intros [a b] Hin. simpl. apply H.
  - eapply in_combine_l; eauto.
  - eapply in_combine_r; eauto.
Qed.

(** Any fuel at or above the measure gives the same answer. *)
Lemma is_subtype_of_fuel_enough n m a b :
  size a + size b <= n -> size a + size b <= m ->
  is_subtype_of_fuel n a b = is_subtype_of_fuel m a b.
Proof.
  revert m a b. induction n as [|n IH]; intros m a b Hn Hm.
  { pose proof (size_pos a). lia. }
  destruct m as [|m]; [pose proof (size_pos a); lia|].
  destruct a; simpl; try reflexivity; destruct b; try reflexivity;
    simpl in Hn, Hm.
  - apply IH; lia.
  - destruct (negb _); [reflexivity|].
    apply all_zip_ext_In. intros x y Hx Hy.
    apply size_In_le in Hx, Hy. apply IH; lia.
  - destruct (negb _); [reflexivity|].
    apply forallb_ext_In. intros kt Hkt.
    destruct (Dict.get (fst kt) fields) as [t|] eqn:Hget; [|reflexivity].
    apply size_get_le in Hget. apply size_field_le in Hkt.
    apply IH; lia.
  - destruct (negb _); [reflexivity|]. f_equal.
    + apply all_zip_ext_In. intros x y Hx Hy.
      apply size_In_le in Hx, Hy. apply IH; lia.
    + apply IH; lia.
Qed.

Lemma is_subtype_of_fuel_sound n a b :
  size a + size b <= n -> is_subtype_of_fuel n a b = is_subtype_of a b.
Proof. intros H. apply is_subtype_of_fuel_enough; [exact H|lia]. Qed.

(** The body of [StructType.is_subtype_of], read off the definition. *)
Lemma is_subtype_of_struct na fa nb fb :
  is_subtype_of (StructType na fa) (StructType nb fb) =
  String.eqb na nb &&
  forallb (fun kt => match Dict.get (fst kt) fa with
                     | Some t => is_subtype_of t (snd kt)
                     | None => false
                     end) fb.
Proof.
  unfold is_subtype_of at 1. simpl.
  destruct (String.eqb na nb); simpl; [|reflexivity].
  apply forallb_ext_In. intros kt Hkt.
  destruct (Dict.get (fst kt) fa) as [t|] eqn:Hget; [|reflexivity].
  apply size_get_le in Hget. apply size_field_le in Hkt.
  apply is_subtype_of_fuel_sound. lia.
Qed.

Lemma fields_covered_forallb fa fb :
  forallb (fun kt => match Dict.get (fst kt) fa with
                     | Some t => is_subtype_of t (snd kt)
                     | None => false
                     end) fb = true <-> fields_covered fa fb.
Proof.
  rewrite forallb_forall. unfold fields_covered. split.
  - intros H key typ Hin. specialize (H _ Hin). simpl in H.
    destruct (Dict.get key fa) as [t|]; [eauto|discriminate].
  - intros H [key typ] Hin. simpl.
    destruct (H _ _ Hin) as (t & -> & Ht). exact Ht.
Qed.

(** C3, at the call the claim names first: [IntType] inherits
    [Type.unify], whose test [self == other] is [IntType.__eq__] and
    answers [False] for a [FloatType]; the promotion exists only in
    [FloatType.unify].  The other two calls of the claim behave as it
    says. *)
Theorem unify_int_float_not_promoted :
  unify IntType FloatType = None /\
  unify FloatType IntType = Some FloatType /\
  unify BoolType IntType = None.
Proof. repeat split. Qed.

(** C5, as stated, fails: two structs of different names are never
    subtypes, whatever their fields. *)
Lemma struct_subtype_needs_same_name :
  ~ (forall na fa nb fb,
       fields_covered fa fb ->
       is_subtype_of (StructType na fa) (StructType nb fb) = true).
Proof.
  intros H.
  specialize (H "P" [("a", IntType)] "Q" [("a", IntType)]).
  assert (Hc : fields_covered [("a", IntType)] [("a", IntType)]).
  { intros key typ [[= <- <-]|[]]. exists IntType. split; reflexivity. }
  specialize (H Hc). vm_compute in H. discriminate.
Qed.

(** C5, amended: struct subtyping is width subtyping between structs of
    one name.  [StructType.is_subtype_of] answers [True] exactly when the
    names agree and every field the right struct declares is present in
    the left one with a subtype of the declared type; [{a: Int, b: Int}]
    is a subtype of [{a: Int}] of the same name and not the other way
    round. *)
Theorem struct_width_subtyping :
  (forall na fa nb fb,
      is_subtype_of (StructType na fa) (StructType nb fb) = true <->
      na = nb /\ fields_covered fa fb) /\
  (forall n,
      is_subtype_of (StructType n [("a", IntType); ("b", IntType)])
                    (StructType n [("a", IntType)]) = true /\
      is_subtype_of (StructType n [("a", IntType)])
                    (StructType n [("a", IntType); ("b", IntType)]) = false).
Proof.
  split.
  - intros na fa nb fb. rewrite is_subtype_of_struct.
    rewrite andb_true_iff, fields_covered_forallb.
    split; intros [Hn Hc]; split; try exact Hc.
    + apply String.eqb_eq. exact Hn.
    + apply String.eqb_eq. exact Hn.
  - intros n. rewrite !is_subtype_of_struct, String.eqb_refl.
    split; reflexivity.
Qed.

End TypesFacts.

(** The amended statement at the structs of the claim. *)
Lemma struct_width_subtyping_witness :
  Types.is_subtype_of
    (Types.StructType "P" [("a", Types.IntType); ("b", Types.IntType)])
    (Types.StructType "P" [("a", Types.IntType)]) = true.
Proof.
  apply (proj1 struct_width_subtyping). split; [reflexivity|].
  intros key typ [[= <- <-]|[]]. exists Types.IntType. split; reflexivity.
Defined.

(** ** Dictionaries *)

Section DictFacts.
Context {V : Type}.

Lemma contains_In (k : string) (d : list (string * V)) :
  Dict.contains k d = true <-> In k (map fst d).
Proof.
  unfold Dict.contains. induction d as [|[k' v] d IH]; simpl.
  - split; [discriminate|tauto].
  - destruct (String.eqb k k') eqn:Hk.
    + apply String.eqb_eq in Hk. split; auto.
    + apply String.eqb_neq in Hk. rewrite IH. split; [auto|].
      intros [Heq|Hin]; [congruence|exact Hin].
Qed.

End DictFacts.

(** ** Types: the subtype order *)

Section TypesOrder.
Import Types.

Lemma is_subtype_of_array e e' :
  is_subtype_of (ArrayType e) (ArrayType e') = is_subtype_of e e'.
Proof.
  unfold is_subtype_of at 1. simpl.
  apply is_subtype_of_fuel_sound. lia.
Qed.

Lemma all_zip_sound n (l l' : list Ty) :
  list_sum (map size l) + list_sum (map size l') <= n ->
  all_zip (is_subtype_of_fuel n) l l' = all_zip is_subtype_of l l'.
Proof.
  intros Hn. apply all_zip_ext_In. intros a b Ha Hb.
  apply size_In_le in Ha, Hb. apply is_subtype_of_fuel_sound. lia.
Qed.

Lemma is_subtype_of_tuple es es' :
  is_subtype_of (TupleType es) (TupleType es') =
  Nat.eqb (length es) (length es') && all_zip is_subtype_of es es'.
Proof.
  unfold is_subtype_of at 1. simpl.
  destruct (Nat.eqb (length es) (length es')); simpl; [|reflexivity].
  apply all_zip_sound. lia.
Qed.

Lemma is_subtype_of_function ps r ps' r' :
  is_subtype_of (FunctionType ps r) (FunctionType ps' r') =
  Nat.eqb (length ps) (length ps')
  && (all_zip is_subtype_of ps' ps && is_subtype_of r r').
Proof.
  unfold is_subtype_of at 1. simpl.
  destruct (Nat.eqb (length ps) (length ps')); simpl; [|reflexivity].
  f_equal.
  - apply all_zip_sound. lia.
  - apply is_subtype_of_fuel_sound. lia.
Qed.

Lemma is_subtype_of_struct_iff na fa nb fb :
  is_subtype_of (StructType na fa) (StructType nb fb) = true <->
  na = nb /\ fields_covered fa fb.
Proof.
  rewrite is_subtype_of_struct, andb_true_iff, fields_covered_forallb.
  rewrite String.eqb_eq. reflexivity.
Qed.

(** What the constructor of the left operand leaves of the right one. *)
Lemma is_subtype_of_inv a b :
  is_subtype_of a b = true ->
  match a with
  | ArrayType e => exists e', b = ArrayType e' /\ is_subtype_of e e' = true
  | TupleType es =>
      exists es', b = TupleType es' /\ length es = length es' /\
                  all_zip is_subtype_of es es' = true
  | StructType n fa => exists fb, b = StructType n fb /\ fields_covered fa fb
  | FunctionType ps r =>
      exists ps' r', b = FunctionType ps' r' /\ length ps = length ps' /\
                     all_zip is_subtype_of ps' ps = true /\
                     is_subtype_of r r' = true
  | _ => b = a
  end.
Proof.
  destruct a; try (destruct b; now inversion 1).
  - destruct b; try (now inversion 1). rewrite is_subtype_of_array. eauto.
  - destruct b; try (now inversion 1). rewrite is_subtype_of_tuple.
    intros [Hl Hz]%andb_true_iff. apply Nat.eqb_eq in Hl. eauto.
  - destruct b; try (now inversion 1). intros Hs.
    apply is_subtype_of_struct_iff in Hs as [-> Hc]. eauto.
  - destruct b; try (now inversion 1). rewrite is_subtype_of_function.
    intros [Hl [Hz Hr]%andb_true_iff]%andb_true_iff.
    apply Nat.eqb_eq in Hl. eauto 6.
Qed.

Lemma get_In_key (key : string) (fs : list (string * Ty)) t :
  Dict.get key fs = Some t -> In (key, t) fs.
Proof.
  induction fs as [|[k v] fs IH]; simpl; [discriminate|].
  destruct (String.eqb key k) eqn:Hk.
  - apply String.eqb_eq in Hk as ->. intros [= ->]. left. reflexivity.
  - intros H. right. apply IH, H.
Qed.

Lemma get_of_In (key : string) (fs : list (string * Ty)) t :
  NoDup (map fst fs) -> In (key, t) fs -> Dict.get key fs = Some t.
Proof.
  induction fs as [|[k v] fs IH]; simpl; [tauto|].
  intros Hnd [Heq|Hin].
  - injection Heq as -> ->. rewrite String.eqb_refl. reflexivity.
  - apply NoDup_cons in Hnd as [Hk Hnd].
    destruct (String.eqb key k) eqn:Hkey; [|apply IH; assumption].
    apply String.eqb_eq in Hkey as ->. exfalso. apply Hk.
    apply list_elem_of_In. apply (in_map fst) in Hin. exact Hin.
Qed.

Lemma all_zip_refl (R : Ty -> Ty -> bool) (l : list Ty) :
  (forall a, In a l -> R a a = true) -> all_zip R l l = true.
Proof.
  unfold all_zip. induction l as [|a l IH]; intros H; [reflexivity|].
  simpl. rewrite (H a) by (left; reflexivity). simpl.
  apply IH. intros b Hb. apply H. right. exact Hb.
Qed.

Lemma all_zip_trans (R : Ty -> Ty -> bool) (l1 l2 l3 : list Ty) :
  (forall a b c, In a l1 -> In b l2 -> In c l3 ->
     R a b = true -> R b c = true -> R a c = true) ->
  length l1 = length l2 ->
  all_zip R l1 l2 = true -> all_zip R l2 l3 = true -> all_zip R l1 l3 = true.
Proof.
  unfold all_zip. revert l2 l3.
  induction l1 as [|a l1 IH]; intros l2 l3 H Hl; [reflexivity|].
  destruct l2 as [|b l2]; [discriminate|].
  destruct l3 as [|c l3]; [reflexivity|]. simpl.
  intros [Hab H12]%andb_true_iff [Hbc H23]%andb_true_iff.
  apply andb_true_iff. split.
  - apply (H a b c); simpl; auto.
  - apply (IH l2 l3); auto.
    intros x y z Hx Hy Hz. apply H; simpl; auto.
Qed.

Lemma is_subtype_of_refl_bounded n :
  forall t, size t <= n -> fields_are_dicts t = true ->
    is_subtype_of t t = true.
Proof.
  induction n as [|n IH]; intros t Hn Hwf.
  { pose proof (size_pos t). lia. }
  destruct t; try reflexivity; simpl in Hn, Hwf.
  - rewrite is_subtype_of_array. apply IH; [lia|exact Hwf].
  - rewrite is_subtype_of_tuple, Nat.eqb_refl. simpl.
    apply all_zip_refl. intros a Ha. apply IH.
    + apply size_In_le in Ha. lia.
    + rewrite forallb_forall in Hwf. apply Hwf, Ha.
  - apply is_subtype_of_struct_iff. split; [reflexivity|].
    apply andb_true_iff in Hwf as [Hnd Hwf].
    apply bool_decide_eq_true in Hnd. rewrite forallb_forall in Hwf.
    intros key typ Hin. exists typ. split.
    + apply get_of_In; assumption.
    + apply IH.
      * apply (size_field_le (key, typ)) in Hin. simpl in Hin. lia.
      * apply (Hwf (key, typ)), Hin.
  - apply andb_true_iff in Hwf as [Hps Hr].
    rewrite is_subtype_of_function, Nat.eqb_refl. simpl.
    apply andb_true_iff. split.
    + apply all_zip_refl. intros a Ha. apply IH.
      * apply size_In_le in Ha. lia.
      * rewrite forallb_forall in Hps. apply Hps, Ha.
    + apply IH; [lia|exact Hr].
Qed.

Lemma is_subtype_of_trans_bounded n :
  forall a b c, size a + size b + size c <= n ->
    is_subtype_of a b = true -> is_subtype_of b c = true ->
    is_subtype_of a c = true.
Proof.
  induction n as [|n IH]; intros a b c Hn Hab Hbc.
  { pose proof (size_pos a). lia. }
  pose proof (is_subtype_of_inv a b Hab) as Ha.
  destruct a; try (subst b; exact Hbc).
  - destruct Ha as (e' & -> & He).
    destruct (is_subtype_of_inv _ _ Hbc) as (e'' & -> & He').
    rewrite is_subtype_of_array. simpl in Hn.
    apply (IH _ e'); [lia|assumption..].
  - destruct Ha as (es' & -> & Hl & Hz).
    destruct (is_subtype_of_inv _ _ Hbc) as (es'' & -> & Hl' & Hz').
    rewrite is_subtype_of_tuple. apply andb_true_iff. split.
    + apply Nat.eqb_eq. congruence.
    + apply (all_zip_trans _ _ es'); try assumption.
      intros x y z Hx Hy Hz0. simpl in Hn.
      apply size_In_le in Hx, Hy, Hz0. apply IH. lia.
  - destruct Ha as (fb & -> & Hc).
    destruct (is_subtype_of_inv _ _ Hbc) as (fc & -> & Hc').
    apply is_subtype_of_struct_iff. split; [reflexivity|].
    intros key typ Hin.
    destruct (Hc' key typ Hin) as (tb & Hgb & Hb).
    destruct (Hc key tb (get_In_key _ _ _ Hgb)) as (ta & Hga & Ha).
    exists ta. split; [exact Hga|].
    apply (IH _ tb); [|assumption..]. simpl in Hn.
    apply size_get_le in Hga, Hgb.
    apply (size_field_le (key, typ)) in Hin. simpl in Hin. lia.
  - destruct Ha as (ps' & r' & -> & Hl & Hz & Hr).
    destruct (is_subtype_of_inv _ _ Hbc) as (ps'' & r'' & -> & Hl' & Hz' & Hr').
    rewrite is_subtype_of_function. simpl in Hn.
    apply andb_true_iff. split; [apply Nat.eqb_eq; congruence|].
    apply andb_true_iff. split.
    + apply (all_zip_trans _ _ ps'); try assumption; [|congruence].
      intros x y z Hx Hy Hz0.
      apply size_In_le in Hx, Hy, Hz0. apply IH. lia.
    + apply (IH _ r'); [lia|assumption..].
Qed.

(** X1: [is_subtype_of] is a preorder on the types whose struct fields
    are dicts: every such type is a subtype of itself, and a subtype of a
    subtype of [c] is a subtype of [c]. *)
Theorem is_subtype_of_preorder :
  (forall t, fields_are_dicts t = true -> is_subtype_of t t = true) /\
  (forall a b c,
      is_subtype_of a b = true -> is_subtype_of b c = true ->
      is_subtype_of a c = true).
Proof.
  split.
  - intros t. apply (is_subtype_of_refl_bounded (size t)). lia.
  - intros a b c.
    apply (is_subtype_of_trans_bounded (size a + size b + size c)). lia.
Qed.

Lemma registered_primitive name a :
  Dict.get name PRIMITIVE_TYPES = Some a ->
  In a [IntType; FloatType; BoolType; StringType; GenomeType; ProteinType;
        CellType].
Proof.
  unfold PRIMITIVE_TYPES. simpl.
  repeat (destruct (String.eqb name _);
          [intros [= <-]; simpl; tauto|]).
  discriminate.
Qed.

(** X2: between the types of the registry [PRIMITIVE_TYPES] subtyping is
    equality: a registered type is a subtype of itself and of nothing
    else, so [int] is not a subtype of [float], and an array of one
    registered type is a subtype of an array of another only when the two
    are the same type. *)
Theorem primitive_subtyping_is_equality name a b
    (Ha : Dict.get name PRIMITIVE_TYPES = Some a) :
  (is_subtype_of a b = true <-> b = a) /\
  (is_subtype_of (ArrayType a) (ArrayType b) = true <-> b = a).
Proof.
  assert (H : is_subtype_of a b = true <-> b = a).
  { apply registered_primitive in Ha. simpl in Ha.
    repeat (destruct Ha as [<-|Ha]; [destruct b; split; intros H;
      first [reflexivity | discriminate H | inversion H]|]).
    destruct Ha. }
  split; [exact H|]. rewrite is_subtype_of_array. exact H.
Qed.

(** X3: when [least_upper_bound] answers with a type, either both
    arguments are subtypes of it, or the arguments are [int] and [float]
    in some order and the answer is [float], of which [int] is no
    subtype. *)
Theorem least_upper_bound_is_an_upper_bound t1 t2 u
    (H1 : fields_are_dicts t1 = true) (H2 : fields_are_dicts t2 = true)
    (Hu : least_upper_bound t1 t2 = Some u) :
  (is_subtype_of t1 u = true /\ is_subtype_of t2 u = true) \/
  (u = FloatType /\ is_subtype_of IntType u = false /\
   ((t1 = IntType /\ t2 = FloatType) \/ (t1 = FloatType /\ t2 = IntType))).
Proof.
  unfold least_upper_bound in Hu.
  destruct (is_subtype_of t1 t2) eqn:H12.
  { injection Hu as <-. left. split; [exact H12|].
    apply (is_subtype_of_refl_bounded (size t2)); [lia|exact H2]. }
  destruct (is_subtype_of t2 t1) eqn:H21.
  { injection Hu as <-. left. split; [|exact H21].
    apply (is_subtype_of_refl_bounded (size t1)); [lia|exact H1]. }
  destruct (_ || _) eqn:Hp; [|discriminate].
  injection Hu as <-. right. split; [reflexivity|]. split; [reflexivity|].
  apply orb_true_iff in Hp as [Hp|Hp]; apply andb_true_iff in Hp as [Hi Hf];
    destruct t1; try discriminate; destruct t2; try discriminate; tauto.
Qed.

Lemma unify_same_bounded n :
  forall t, size t <= n -> fields_are_dicts t = true -> unify t t = Some t.
Proof.
  induction n as [|n IH]; intros t Hn Hwf.
  { pose proof (size_pos t). lia. }
  destruct t; try reflexivity; simpl in Hn, Hwf.
  - simpl. rewrite IH; [reflexivity|lia|exact Hwf].
  - simpl. rewrite Nat.eqb_refl. simpl.
    match goal with
    | |- match ?g element_types element_types with _ => _ end = _ =>
        assert (Hgo : forall l, (forall a, In a l -> unify a a = Some a) ->
                        g l l = Some l)
    end.
    { induction l as [|a l IHl]; intros H; [reflexivity|].
      rewrite (H a) by (left; reflexivity).
      rewrite IHl; [reflexivity|]. intros b Hb. apply H. right. exact Hb. }
    rewrite Hgo; [reflexivity|]. intros a Ha. apply IH.
    + apply size_In_le in Ha. lia.
    + rewrite forallb_forall in Hwf. apply Hwf, Ha.
  - apply andb_true_iff in Hwf as [Hnd Hwf].
    apply bool_decide_eq_true in Hnd. rewrite forallb_forall in Hwf.
    simpl. rewrite String.eqb_refl. simpl.
    assert (Hall : forallb (fun kt => Dict.contains (fst kt) fields) fields
                   = true).
    { apply forallb_forall. intros [k t] Hin. unfold Dict.contains. simpl.
      rewrite (get_of_In k fields t Hnd Hin). reflexivity. }
    rewrite Hall. simpl.
    match goal with
    | |- match ?g fields with _ => _ end = _ =>
        assert (Hgo : forall d,
                   (forall k t, In (k, t) d ->
                      Dict.get k fields = Some t /\ unify t t = Some t) ->
                   g d = Some d)
    end.
    { induction d as [|[k t] d IHd]; intros H; [reflexivity|].
      destruct (H k t) as [Hg Hu]; [left; reflexivity|].
      rewrite Hg, Hu, IHd; [reflexivity|].
      intros k' t' Hin. apply H. right. exact Hin. }
    rewrite Hgo; [reflexivity|]. intros k t Hin. split.
    + apply get_of_In; assumption.
    + apply IH.
      * apply (size_field_le (k, t)) in Hin. simpl in Hin. lia.
      * apply (Hwf (k, t)), Hin.
  - apply andb_true_iff in Hwf as [Hps Hr].
    simpl. rewrite Nat.eqb_refl. simpl.
    match goal with
    | |- match ?g param_types param_types with _ => _ end = _ =>
        assert (Hgo : forall l, (forall a, In a l -> unify a a = Some a) ->
                        g l l = Some l)
    end.
    { induction l as [|a l IHl]; intros H; [reflexivity|].
      rewrite (H a) by (left; reflexivity).
      rewrite IHl; [reflexivity|]. intros b Hb. apply H. right. exact Hb. }
    rewrite Hgo.
    + rewrite IH; [reflexivity|lia|exact Hr].
    + intros a Ha. apply IH.
      * apply size_In_le in Ha. lia.
      * rewrite forallb_forall in Hps. apply Hps, Ha.
Qed.

(** The loop of [StructType.unify] over the keys of [self]. *)
Lemma unify_struct_inv na fa nb fb u :
  unify (StructType na fa) (StructType nb fb) = Some u ->
  na = nb /\
  forallb (fun kt => Dict.contains (fst kt) fa) fb = true /\
  exists fu, u = StructType na fu /\ map fst fu = map fst fa /\
    forall k, In k (map fst fa) -> Dict.contains k fb = true.
Proof.
  simpl. destruct (String.eqb na nb) eqn:Hn; simpl; [|discriminate].
  apply String.eqb_eq in Hn.
  destruct (forallb _ fb) eqn:Hall; simpl; [|discriminate].
  match goal with
  | |- match ?g fa with _ => _ end = _ -> _ =>
      assert (Hgo : forall d r, g d = Some r ->
                 map fst r = map fst d /\
                 forall k, In k (map fst d) -> Dict.contains k fb = true)
  end.
  { induction d as [|[k t] d IHd]; intros r.
    - intros [= <-]. split; [reflexivity|]. intros k [].
    - destruct (Dict.get k fb) as [t2|] eqn:Hg; [|discriminate].
      destruct (unify t t2) as [x|]; [|discriminate].
      match goal with
      | |- match ?e with _ => _ end = _ -> _ => destruct e as [us|] eqn:Hus
      end; [|discriminate].
      intros [= <-]. destruct (IHd us eq_refl) as [Hk Hc]. split.
      + simpl. f_equal. exact Hk.
      + intros k' Hk'. simpl in Hk'. destruct Hk' as [<-|Hin]; [|apply Hc, Hin].
        unfold Dict.contains. rewrite Hg. reflexivity. }
  match goal with
  | |- match ?e with _ => _ end = _ -> _ => destruct e as [us|] eqn:Hus
  end; [|discriminate].
  intros [= <-]. destruct (Hgo fa us Hus) as [Hk Hc].
  split; [exact Hn|]. split; [reflexivity|]. exists us. auto.
Qed.


(** X4: a type whose struct fields are dicts unifies with itself, and the
    result is that type. *)
Theorem unify_with_itself t (Ht : fields_are_dicts t = true) :
  unify t t = Some t.
Proof. apply (unify_same_bounded (size t)); [lia|exact Ht]. Qed.

(** X5: two struct types unify only when they have the same name and
    declare the same field names, and the result declares these names
    again; a struct does not unify with a struct that declares fewer
    fields, in either order. *)
Theorem unify_struct_needs_the_same_fields na fa nb fb u
    (Hu : unify (StructType na fa) (StructType nb fb) = Some u) :
  na = nb /\
  (forall k, Dict.contains k fa = Dict.contains k fb) /\
  exists fu, u = StructType na fu /\
    forall k, Dict.contains k fu = Dict.contains k fa.
Proof.
  destruct (unify_struct_inv _ _ _ _ _ Hu) as (Hn & Hall & fu & -> & Hk & Hc).
  split; [exact Hn|]. rewrite forallb_forall in Hall. split.
  - intros k. apply eq_true_iff_eq. split; intros Hin.
    + apply Hc, contains_In, Hin.
    + apply contains_In, in_map_iff in Hin as ([k' t] & <- & Hin).
      apply (Hall (k', t)), Hin.
  - exists fu. split; [reflexivity|]. intros k. apply eq_true_iff_eq.
    rewrite !contains_In, Hk. reflexivity.
Qed.

End TypesOrder.

(** The preorder at three structs of one name: each is a subtype of
    itself, and the widest is a subtype of the empty one through the one
    between them. *)
Lemma is_subtype_of_preorder_witness :
  let a := Types.StructType "P" [("a", Types.IntType); ("b", Types.IntType)] in
  let b := Types.StructType "P" [("a", Types.IntType)] in
  let c := Types.StructType "P" [] in
  Types.is_subtype_of a a = true /\ Types.is_subtype_of a c = true.
Proof.
  intros a b c. split.
  - apply (proj1 is_subtype_of_preorder). reflexivity.
  - apply (proj2 is_subtype_of_preorder a b c); reflexivity.
Defined.

Lemma primitive_subtyping_is_equality_witness :
  (Types.is_subtype_of Types.IntType Types.FloatType = true <->
   Types.FloatType = Types.IntType) /\
  (Types.is_subtype_of (Types.ArrayType Types.IntType)
                       (Types.ArrayType Types.FloatType) = true <->
   Types.FloatType = Types.IntType).
Proof.
  apply (primitive_subtyping_is_equality "int" Types.IntType Types.FloatType).
  reflexivity.
Defined.

(** The two branches: a pair of compatible tuples, and [int] with
    [float]. *)
Lemma least_upper_bound_is_an_upper_bound_witness :
  let a := Types.TupleType [Types.IntType; Types.BoolType] in
  (Types.is_subtype_of a a = true /\ Types.is_subtype_of a a = true \/
   a = Types.FloatType /\ Types.is_subtype_of Types.IntType a = false /\
   (a = Types.IntType /\ a = Types.FloatType \/
    a = Types.FloatType /\ a = Types.IntType)) /\
  (Types.is_subtype_of Types.IntType Types.FloatType = true /\
   Types.is_subtype_of Types.FloatType Types.FloatType = true \/
   Types.FloatType = Types.FloatType /\
   Types.is_subtype_of Types.IntType Types.FloatType = false /\
   (Types.IntType = Types.IntType /\ Types.FloatType = Types.FloatType \/
    Types.IntType = Types.FloatType /\ Types.FloatType = Types.IntType)).
Proof.
  intros a. split.
  - apply (least_upper_bound_is_an_upper_bound a a a); reflexivity.
  - apply (least_upper_bound_is_an_upper_bound Types.IntType Types.FloatType);
      reflexivity.
Defined.

Lemma unify_with_itself_witness :
  let t :=
    Types.StructType "Gene"
      [("sequence", Types.GenomeType); ("length", Types.IntType)] in
  Types.unify t t = Some t.
Proof. intros t. apply unify_with_itself. reflexivity. Defined.

(** Two structs that declare [a] and [b] in different orders unify. *)
Lemma unify_struct_needs_the_same_fields_witness :
  let fa := [("a", Types.IntType); ("b", Types.FloatType)] in
  let fb := [("b", Types.IntType); ("a", Types.IntType)] in
  "P" = "P" /\ Dict.contains "b" fa = Dict.contains "b" fb.
Proof.
  intros fa fb.
  destruct (unify_struct_needs_the_same_fields "P" fa "P" fb
              (Types.StructType "P"
                 [("a", Types.IntType); ("b", Types.FloatType)]) eq_refl)
    as (Hn & Hk & _).
  split; [exact Hn|apply Hk].
Defined.

(** ** The IR optimizer *)

Section OptimizerFacts.
Import IR.

Variable extern : string -> Py.value -> Py.value -> Py.result.

(** Dividing by zero raises, whatever the dividend. *)
Lemma truediv_by_zero l r :
  Py.is_zero r = true -> exists e, Py.truediv extern l r = Py.Raise e.
Proof.
  unfold Py.truediv, Py.with_doubles, Py.is_zero.
  intros Hz. apply andb_true_iff in Hz as [Hn Hz].
  destruct (Py.as_int l) as [a|] eqn:Hl, (Py.as_int r) as [b|] eqn:Hr.
  - assert (b = 0%Z) as ->.
    { destruct r as [| c | n | f | s]; simpl in Hr; try discriminate;
        injection Hr as <-.
      - destruct c; [discriminate Hz|reflexivity].
      - unfold Py.eq in Hz. simpl in Hz.
        destruct (n ?= 0)%Z eqn:Hc; try discriminate.
        apply Z.compare_eq in Hc. exact Hc. }
    simpl. eauto.
  - destruct (Py.is_number l && Py.is_number r); [|eauto].
    destruct (_ || _); [eauto|]. rewrite Hn, Hz. simpl. eauto.
  - destruct (Py.is_number l && Py.is_number r); [|eauto].
    destruct (_ || _); [eauto|]. rewrite Hn, Hz. simpl. eauto.
  - destruct (Py.is_number l && Py.is_number r); [|eauto].
    destruct (_ || _); [eauto|]. rewrite Hn, Hz. simpl. eauto.
Qed.

Lemma set_children_same (h : heap) a n :
  h !! a = Some n -> set_children a (children n) h = Done tt h.
Proof.
  intros Ha. unfold set_children. rewrite Ha. f_equal.
  apply list_insert_id. rewrite Ha. destruct n; reflexivity.
Qed.

(** One step of the pass. *)
Lemma constant_folding_pass_unfold fuel node :
  constant_folding_pass extern (S fuel) node =
  (let* n := get node in
   let* new_children :=
     mapM (constant_folding_pass extern fuel) (children n) in
   let* _ := set_children node new_children in
   match node_type n with
   | BINARY_OP | EXPRESSION => _fold_binary_op extern node
   | ASSIGNMENT =>
       let* n := get node in
       match children n with
       | [target; value] =>
           let* folded_value := constant_folding_pass extern fuel value in
           let* _ := setitem_children node 1 folded_value in
           ret node
       | _ => raise (Py.ValueError "values to unpack (expected 2)")
       end
   | FUNCTION | BLOCK =>
       let* n := get node in
       let* folded := mapM (constant_folding_pass extern fuel) (children n) in
       let* _ := set_children node folded in
       ret node
   | _ => ret node
   end).
Proof. reflexivity. Qed.

(** A leaf is returned as it is, and the heap with it. *)
Lemma constant_folding_pass_constant k (h : heap) c n :
  h !! c = Some n -> node_type n = CONSTANT -> children n = [] ->
  constant_folding_pass extern (S k) c h = Done c h.
Proof.
  intros Hc Ht Hch. simpl. unfold bind at 1. unfold get at 1. rewrite Hc.
  rewrite Hch. unfold bind at 1. simpl. unfold bind at 1.
  rewrite <- Hch. rewrite (set_children_same _ _ _ Hc).
  rewrite Ht. reflexivity.
Qed.

(** The dead-code pass looks into blocks and function bodies only. *)
Lemma dead_code_elimination_pass_other k (h : heap) a n :
  h !! a = Some n ->
  node_type n <> FUNCTION -> node_type n <> BLOCK ->
  dead_code_elimination_pass (S k) a h = Done a h.
Proof.
  intros Ha Hf Hb. simpl. unfold bind, get. rewrite Ha.
  destruct (node_type n); try reflexivity; congruence.
Qed.

Lemma eliminate_loop_kept k (h : heap) (cs : list addr) :
  (forall c, c ∈ cs -> exists n, h !! c = Some n /\
               (node_type n = IF \/ node_type n = WHILE)) ->
  eliminate_loop (dead_code_elimination_pass (S k)) cs false h = Done cs h.
Proof.
  induction cs as [|c cs IH]; intros Hcs; [reflexivity|].
  destruct (Hcs c) as (n & Hn & Ht); [left|].
  cbn [eliminate_loop]. unfold bind at 1.
  rewrite (dead_code_elimination_pass_other k h c n Hn)
    by (destruct Ht as [-> | ->]; discriminate).
  unfold bind at 1. unfold get at 1. rewrite Hn.
  assert (NodeType_eqb (node_type n) RETURN = false) as ->
    by (destruct Ht as [-> | ->]; reflexivity).
  unfold bind at 1. rewrite IH; [reflexivity|].
  intros c' Hc'. apply Hcs. right. exact Hc'.
Qed.

(** C1, on the code: the pass folds [3 * 4] to a new constant [12] and
    stores it in [children] of the sum, but [_fold_binary_op] reads the
    operands from [node.left] and [node.right], and [right] is still the
    product node.  The sum is returned unfolded; no constant [14] is
    made. *)
Theorem constant_folding_reads_stale_operands (k : nat) :
  (let* c2 := new_ConstantNode (Py.VInt 2) (Some "int") None in
   let* c3 := new_ConstantNode (Py.VInt 3) (Some "int") None in
   let* c4 := new_ConstantNode (Py.VInt 4) (Some "int") None in
   let* product := new_BinaryOpNode "*" c3 c4 None in
   let* sum := new_BinaryOpNode "+" c2 product None in
   constant_folding_pass extern (S (S (S k))) sum) [] =
  Done 4
    [ mkIRNode (ConstantNode (Py.VInt 2) (Some "int")) [] [];
      mkIRNode (ConstantNode (Py.VInt 3) (Some "int")) [] [];
      mkIRNode (ConstantNode (Py.VInt 4) (Some "int")) [] [];
      mkIRNode (BinaryOpNode "*" 1 2) [1; 2] [];
      mkIRNode (BinaryOpNode "+" 0 3) [0; 5] [];
      mkIRNode (ConstantNode (Py.VInt 12) (Some "int")) [] [] ].
Proof. vm_compute. reflexivity. Qed.

End OptimizerFacts.

(** C2, as stated, fails: in the block [{ if (true) x else y; while (false) z }]
    the conditions are Bool constants, and the pass returns the block with
    the same two statements. *)
Lemma dead_code_elimination_ignores_constant_conditions :
  IR.bind
    (IR.bind (IR.new_ConstantNode (Py.VBool true) (Some "bool") None) (fun t =>
     IR.bind (IR.new_VariableNode "x" None None) (fun x =>
     IR.bind (IR.new_VariableNode "y" None None) (fun y =>
     IR.bind (IR.new_IfNode t [x] (Some [y]) None) (fun i =>
     IR.bind (IR.new_ConstantNode (Py.VBool false) (Some "bool") None) (fun f =>
     IR.bind (IR.new_VariableNode "z" None None) (fun z =>
     IR.bind (IR.new_WhileNode f [z] None) (fun w =>
     IR.new_BlockNode [i; w] None))))))))
    (IR.dead_code_elimination_pass 3) [] =
  IR.Done 7
    [ IR.mkIRNode (IR.ConstantNode (Py.VBool true) (Some "bool")) [] [];
      IR.mkIRNode (IR.VariableNode "x" None) [] [];
      IR.mkIRNode (IR.VariableNode "y" None) [] [];
      IR.mkIRNode (IR.IfNode 0 [1] [2]) [0; 1; 2] [];
      IR.mkIRNode (IR.ConstantNode (Py.VBool false) (Some "bool")) [] [];
      IR.mkIRNode (IR.VariableNode "z" None) [] [];
      IR.mkIRNode (IR.WhileNode 4 [5]) [4; 5] [];
      IR.mkIRNode (IR.BlockNode [3; 6]) [3; 6] [] ].
Proof. vm_compute. reflexivity. Qed.

(** ** The dead-code pass on trees *)

Section DeadCodeFacts.
Import IR.

Lemma trimmed_refl h : trimmed h h.
Proof. split; [reflexivity|]. intros a n Ha. exists n. auto. Qed.

Lemma trimmed_trans h1 h2 h3 : trimmed h1 h2 -> trimmed h2 h3 -> trimmed h1 h3.
Proof.
  intros [L12 H12] [L23 H23]. split; [congruence|].
  intros a n Ha. destruct (H12 a n Ha) as (n2 & Ha2 & Hc2 & Hm2 & Hp2).
  destruct (H23 a n2 Ha2) as (n3 & Ha3 & Hc3 & Hm3 & Hp3).
  exists n3. split; [exact Ha3|]. split; [congruence|]. split; [congruence|].
  etrans; eassumption.
Qed.

Lemma node_type_cls n n' : cls n' = cls n -> node_type n' = node_type n.
Proof. unfold node_type. intros ->. reflexivity. Qed.

Lemma is_return_trimmed h h' a : trimmed h h' -> is_return h' a = is_return h a.
Proof.
  intros [Hlen Ht]. unfold is_return.
  destruct (h !! a) as [n|] eqn:Ha.
  - destruct (Ht a n Ha) as (n' & -> & Hc & _).
    rewrite (node_type_cls _ _ Hc). reflexivity.
  - apply lookup_ge_None in Ha. rewrite <- Hlen in Ha.
    apply lookup_ge_None in Ha. rewrite Ha. reflexivity.
Qed.

Lemma cut_trimmed h h' l : trimmed h h' -> cut h' l = cut h l.
Proof.
  intros Ht. induction l as [|s l IH]; [reflexivity|]. cbn [cut].
  rewrite (is_return_trimmed h h' s Ht), IH. reflexivity.
Qed.

Lemma cut_prefix h l : cut h l `prefix_of` l.
Proof.
  induction l as [|s l IH]; [reflexivity|]. cbn [cut].
  destruct (is_return h s).
  - exists l. reflexivity.
  - apply prefix_cons, IH.
Qed.

Lemma cut_cut h l : cut h (cut h l) = cut h l.
Proof.
  induction l as [|s l IH]; [reflexivity|]. cbn [cut].
  destruct (is_return h s) eqn:Hs; [reflexivity|].
  rewrite IH. reflexivity.
Qed.

Lemma cut_elem_of h l c : c ∈ cut h l -> c ∈ l.
Proof.
  destruct (cut_prefix h l) as [k Hk]. intros Hc. rewrite Hk.
  apply elem_of_app. left. exact Hc.
Qed.

Lemma children_first_trimmed h h' :
  trimmed h h' -> children_first h -> children_first h'.
Proof.
  intros [Hlen Ht] Hf a n' Ha'.
  destruct (h !! a) as [n|] eqn:Ha.
  - destruct (Ht a n Ha) as (n2 & Ha2 & _ & _ & [k Hk]).
    rewrite Ha' in Ha2. injection Ha2 as <-.
    specialize (Hf a n Ha). rewrite Hk in Hf.
    apply Forall_app in Hf as [Hf _]. exact Hf.
  - apply lookup_ge_None in Ha. apply lookup_lt_Some in Ha'. lia.
Qed.

(** [clean] at [s] reads the objects at [s] and below only. *)
Lemma clean_agree h h' s :
  children_first h -> (forall b, b <= s -> h' !! b = h !! b) ->
  clean h s -> clean h' s.
Proof.
  intros Hf Hagree Hc. revert Hagree.
  induction Hc as [a n Ha Hnf Hnb|a n Ha Ht Hcut Hch IH]; intros Hagree.
  - apply (clean_other h' a n); [rewrite Hagree by lia; exact Ha|assumption..].
  - pose proof (Hf a n Ha) as Hlt. rewrite Forall_forall in Hlt.
    apply (clean_block h' a n); [rewrite Hagree by lia; exact Ha|exact Ht| |].
    + rewrite <- Hcut at 2.
      clear -Hlt Hagree. induction (children n) as [|c l IHl]; [reflexivity|].
      cbn [cut]. unfold is_return.
      rewrite Hagree by (specialize (Hlt c ltac:(left)); lia).
      rewrite IHl; [reflexivity|]. intros x Hx. apply Hlt. right. exact Hx.
    + intros c Hc. apply IH; [exact Hc|].
      intros b Hb. apply Hagree. specialize (Hlt c Hc). lia.
Qed.

(** Replacing the children of [a] by a list that makes [a] clean keeps
    clean what was. *)
Lemma clean_insert h a n n' b :
  h !! a = Some n -> cls n' = cls n -> clean (<[a := n']> h) a ->
  clean h b -> clean (<[a := n']> h) b.
Proof.
  intros Ha Hcls Hca Hb.
  assert (Hret : forall c, is_return (<[a := n']> h) c = is_return h c).
  { intros c. unfold is_return. destruct (decide (c = a)) as [->|Hne].
    - rewrite list_lookup_insert_eq by (apply lookup_lt_Some in Ha; exact Ha).
      rewrite Ha, (node_type_cls _ _ Hcls). reflexivity.
    - rewrite list_lookup_insert_ne by congruence. reflexivity. }
  assert (Hcut : forall l, cut (<[a := n']> h) l = cut h l).
  { induction l as [|c l IHl]; [reflexivity|]. cbn [cut].
    rewrite Hret, IHl. reflexivity. }
  induction Hb as [b m Hb Hnf Hnb|b m Hb Ht Hcutb Hch IH].
  - destruct (decide (b = a)) as [->|Hne]; [exact Hca|].
    apply (clean_other _ b m);
      [rewrite list_lookup_insert_ne by congruence; exact Hb|assumption..].
  - destruct (decide (b = a)) as [->|Hne]; [exact Hca|].
    apply (clean_block _ b m);
      [rewrite list_lookup_insert_ne by congruence; exact Hb|exact Ht| |exact IH].
    rewrite Hcut. exact Hcutb.
Qed.

Lemma eliminate_loop_returned pass l h :
  eliminate_loop pass l true h = Done [] h.
Proof. induction l as [|s l IH]; [reflexivity|]. simpl. exact IH. Qed.

Lemma eliminate_loop_spec fuel (IHpass : pass_spec fuel) l :
  forall h, children_first h ->
    Forall (fun c => c < fuel /\ c < length h) l ->
    exists h',
      eliminate_loop (dead_code_elimination_pass fuel) l false h =
      Done (cut h l) h' /\
      trimmed h h' /\
      (forall c, c ∈ cut h l -> clean h' c) /\
      (forall b, clean h b -> clean h' b) /\
      (forall b, Forall (fun c => c < b) l -> h' !! b = h !! b).
Proof.
  induction l as [|s l IH]; intros h Hf Hl.
  { exists h. split; [reflexivity|]. split; [apply trimmed_refl|].
    split; [intros c Hc; apply elem_of_nil in Hc; destruct Hc|]. auto. }
  apply Forall_cons in Hl as [[Hs1 Hs2] Hl].
  destruct (IHpass s h Hf Hs1 Hs2) as (h1 & Hp & Ht1 & Hc1 & Hk1 & Hu1 & _).
  cbn [eliminate_loop cut]. unfold bind at 1. rewrite Hp.
  unfold bind at 1. unfold get at 1.
  assert (Hret : match h1 !! s with
                 | Some n => NodeType_eqb (node_type n) RETURN
                 | None => false
                 end = is_return h s)
    by (apply (is_return_trimmed h h1 s Ht1)).
  destruct (h1 !! s) as [ns|] eqn:Hs.
  2:{ apply lookup_ge_None in Hs. destruct Ht1 as [Hlen _]. lia. }
  rewrite Hret. destruct (is_return h s).
  - unfold bind at 1. rewrite eliminate_loop_returned. unfold ret.
    exists h1. split; [reflexivity|]. split; [exact Ht1|].
    split; [|split; [exact Hk1|]].
    + intros c Hc. apply list_elem_of_singleton in Hc as ->. exact Hc1.
    + intros b Hb. apply Forall_cons in Hb as [Hb _]. apply Hu1, Hb.
  - destruct (IH h1) as (h2 & Hl2 & Ht2 & Hc2 & Hk2 & Hu2).
    + apply (children_first_trimmed h h1 Ht1 Hf).
    + destruct Ht1 as [Hlen _]. rewrite Hlen. exact Hl.
    + unfold bind at 1. rewrite Hl2. unfold ret.
      rewrite (cut_trimmed h h1 l Ht1).
      exists h2. split; [reflexivity|].
      split; [apply (trimmed_trans _ h1); assumption|].
      split; [|split].
      * intros c Hc. apply elem_of_cons in Hc as [->|Hc].
        -- apply Hk2, Hc1.
        -- apply Hc2. rewrite (cut_trimmed h h1 l Ht1). exact Hc.
      * intros b Hb. apply Hk2, Hk1, Hb.
      * intros b Hb. apply Forall_cons in Hb as [Hb1 Hb2].
        rewrite (Hu2 b Hb2). apply Hu1, Hb1.
Qed.

Lemma dead_code_elimination_pass_spec fuel : pass_spec fuel.
Proof.
  induction fuel as [|fuel IH]; intros a h Hf Hfuel Hlen; [lia|].
  destruct (lookup_lt_is_Some_2 h a Hlen) as [n Ha].
  assert (Hrun :
    dead_code_elimination_pass (S fuel) a h =
    match node_type n with
    | FUNCTION | BLOCK =>
        (let* new_statements :=
           _eliminate_dead_code_block (dead_code_elimination_pass fuel)
             (children n) in
         let* _ := set_children a new_statements in
         ret a) h
    | _ => ret a h
    end).
  { cbn [dead_code_elimination_pass]. unfold bind at 1. unfold get at 1.
    rewrite Ha. destruct (node_type n); reflexivity. }
  rewrite Hrun. clear Hrun.
  assert (Hother :
    node_type n <> FUNCTION -> node_type n <> BLOCK ->
    exists h',
      ret a h = Done a h' /\ trimmed h h' /\ clean h' a /\
      (forall b, clean h b -> clean h' b) /\
      (forall b, a < b -> h' !! b = h !! b) /\
      (forall n0, h !! a = Some n0 ->
         h' !! a =
         Some (mkIRNode (cls n0)
                 (match node_type n0 with
                  | FUNCTION | BLOCK => cut h (children n0)
                  | _ => children n0
                  end) (metadata n0)))).
  { intros Hnf Hnb. exists h. split; [reflexivity|].
    split; [apply trimmed_refl|]. split; [apply (clean_other h a n); assumption|].
    split; [auto|]. split; [auto|].
    intros n0 Hn0. rewrite Ha in Hn0. injection Hn0 as <-. rewrite Ha.
    destruct n as [c ch md]. simpl in *.
    destruct (node_type _); try reflexivity; congruence. }
  assert (Hblock :
    node_type n = FUNCTION \/ node_type n = BLOCK ->
    exists h',
      (let* new_statements :=
         _eliminate_dead_code_block (dead_code_elimination_pass fuel)
           (children n) in
       let* _ := set_children a new_statements in
       ret a) h = Done a h' /\ trimmed h h' /\ clean h' a /\
      (forall b, clean h b -> clean h' b) /\
      (forall b, a < b -> h' !! b = h !! b) /\
      (forall n0, h !! a = Some n0 ->
         h' !! a =
         Some (mkIRNode (cls n0)
                 (match node_type n0 with
                  | FUNCTION | BLOCK => cut h (children n0)
                  | _ => children n0
                  end) (metadata n0)))).
  { intros Ht.
    pose proof (Hf a n Ha) as Hlt.
    destruct (eliminate_loop_spec fuel IH (children n) h Hf)
      as (h1 & Hloop & Ht1 & Hc1 & Hk1 & Hu1).
    { eapply Forall_impl; [exact Hlt|]. simpl. intros c Hc. lia. }
    assert (Ha1 : h1 !! a = Some n) by (rewrite (Hu1 a Hlt); exact Ha).
    set (n' := mkIRNode (cls n) (cut h (children n)) (metadata n)).
    exists (<[a := n']> h1).
    unfold bind at 1. unfold _eliminate_dead_code_block. rewrite Hloop.
    unfold bind at 1. unfold set_children. rewrite Ha1.
    assert (Ht' : trimmed h (<[a := n']> h1)).
    { destruct Ht1 as [Hlen1 Hall]. split; [rewrite length_insert; exact Hlen1|].
      intros b m Hb. destruct (decide (b = a)) as [->|Hne].
      - rewrite Ha in Hb. injection Hb as <-. exists n'.
        rewrite list_lookup_insert_eq by (rewrite Hlen1; exact Hlen).
        split; [reflexivity|]. split; [reflexivity|]. split; [reflexivity|].
        apply cut_prefix.
      - rewrite list_lookup_insert_ne by congruence. apply Hall, Hb. }
    assert (Hf1 : children_first h1)
      by (apply (children_first_trimmed h h1 Ht1 Hf)).
    assert (Hclean : clean (<[a := n']> h1) a).
    { apply (clean_block _ a n').
      - apply list_lookup_insert_eq. destruct Ht1 as [-> _]. exact Hlen.
      - exact Ht.
      - rewrite (cut_trimmed h _ _ Ht'). apply cut_cut.
      - intros c Hc. simpl in Hc. apply (clean_agree h1); [exact Hf1| |].
        + intros b Hb. apply list_lookup_insert_ne.
          apply cut_elem_of in Hc. rewrite Forall_forall in Hlt.
          specialize (Hlt c Hc). lia.
        + apply Hc1, Hc. }
    split; [reflexivity|]. split; [exact Ht'|]. split; [exact Hclean|].
    split; [|split].
    - intros b Hb. apply (clean_insert h1 a n n'); [exact Ha1|reflexivity| |].
      + exact Hclean.
      + apply Hk1, Hb.
    - intros b Hb. rewrite list_lookup_insert_ne by lia.
      apply Hu1. eapply Forall_impl; [exact Hlt|]. simpl. intros c Hc. lia.
    - intros n0 Hn0. rewrite Ha in Hn0. injection Hn0 as <-.
      rewrite list_lookup_insert_eq by (destruct Ht1 as [-> _]; exact Hlen).
      unfold n'. destruct Ht as [-> | ->]; reflexivity. }
  destruct (node_type n) eqn:Hty;
    first [apply Hblock; auto | apply Hother; discriminate].
Qed.

(** A clean tree is a fixed point of the pass. *)
Lemma eliminate_loop_clean pass l h :
  (forall c, c ∈ l -> pass c h = Done c h /\ c < length h) ->
  eliminate_loop pass l false h = Done (cut h l) h.
Proof.
  induction l as [|s l IH]; intros H; [reflexivity|].
  destruct (H s) as [Hp Hs]; [left|].
  cbn [eliminate_loop cut]. unfold bind at 1. rewrite Hp.
  unfold bind at 1. unfold get at 1. unfold is_return.
  destruct (lookup_lt_is_Some_2 h s Hs) as [n ->].
  destruct (NodeType_eqb (node_type n) RETURN).
  - unfold bind at 1. rewrite eliminate_loop_returned. reflexivity.
  - unfold bind at 1. rewrite IH; [reflexivity|].
    intros c Hc. apply H. right. exact Hc.
Qed.

Lemma dead_code_elimination_pass_clean fuel :
  forall a h, children_first h -> a < fuel -> clean h a ->
    dead_code_elimination_pass fuel a h = Done a h.
Proof.
  induction fuel as [|fuel IH]; intros a h Hf Hfuel Hc; [lia|].
  cbn [dead_code_elimination_pass]. unfold bind at 1. unfold get at 1.
  destruct Hc as [a n Ha Hnf Hnb|a n Ha Ht Hcut Hch].
  - rewrite Ha. destruct (node_type n); try reflexivity; congruence.
  - rewrite Ha.
    assert (Hrun :
      (let* new_statements :=
         _eliminate_dead_code_block (dead_code_elimination_pass fuel)
           (children n) in
       let* _ := set_children a new_statements in
       ret a) h = Done a h).
    { unfold bind at 1. unfold _eliminate_dead_code_block.
      pose proof (Hf a n Ha) as Hlt. rewrite Forall_forall in Hlt.
      rewrite eliminate_loop_clean.
      - rewrite Hcut. unfold bind at 1.
        rewrite (set_children_same h a n Ha). reflexivity.
      - intros c Hc. specialize (Hlt c Hc). split.
        + apply IH; [exact Hf|lia|apply Hch, Hc].
        + apply lookup_lt_Some in Ha. lia. }
    destruct Ht as [-> | ->]; exact Hrun.
Qed.

Lemma drops_after_return_refl h : drops_after_return h h.
Proof. split; [reflexivity|]. intros a n Ha. exists n. auto. Qed.

Lemma drops_after_return_trimmed h h' :
  drops_after_return h h' -> trimmed h h'.
Proof.
  intros [Hlen Hd]. split; [exact Hlen|]. intros a n Ha.
  destruct (Hd a n Ha) as (n' & Ha' & Hc & Hm & Hch).
  exists n'. split; [exact Ha'|]. split; [exact Hc|]. split; [exact Hm|].
  destruct Hch as [-> | [_ ->]]; [reflexivity|apply cut_prefix].
Qed.

Lemma drops_after_return_trans h1 h2 h3 :
  drops_after_return h1 h2 -> drops_after_return h2 h3 ->
  drops_after_return h1 h3.
Proof.
  intros H12 H23. pose proof (drops_after_return_trimmed _ _ H12) as Ht.
  destruct H12 as [L12 H12], H23 as [L23 H23]. split; [congruence|].
  intros a n Ha. destruct (H12 a n Ha) as (n2 & Ha2 & Hc2 & Hm2 & Hch2).
  destruct (H23 a n2 Ha2) as (n3 & Ha3 & Hc3 & Hm3 & Hch3).
  exists n3. split; [exact Ha3|]. split; [congruence|]. split; [congruence|].
  rewrite (node_type_cls _ _ Hc2), (cut_trimmed h1 h2 _ Ht) in Hch3.
  destruct Hch2 as [E2 | [T2 E2]], Hch3 as [E3 | [T3 E3]].
  - left. congruence.
  - right. split; [exact T3|]. rewrite E3, E2. reflexivity.
  - right. split; [exact T2|]. congruence.
  - right. split; [exact T2|]. rewrite E3, E2. apply cut_cut.
Qed.

(** The visits are the same before and after statements were dropped. *)
Lemma visited_drops_after_return h h' a b :
  drops_after_return h h' -> visited h' a b -> visited h a b.
Proof.
  intros Hd Hv. pose proof (drops_after_return_trimmed _ _ Hd) as Ht.
  destruct Hd as [Hlen Hd].
  induction Hv as [a|a n' c b Ha' Hty Hc Hv IH]; [apply visited_here|].
  destruct (h !! a) as [n|] eqn:Ha.
  2:{ apply lookup_ge_None in Ha. apply lookup_lt_Some in Ha'. lia. }
  destruct (Hd a n Ha) as (n2 & Ha2 & Hc2 & _ & Hch).
  rewrite Ha' in Ha2. injection Ha2 as <-.
  apply (visited_statement h a n c b Ha); [|
    |exact IH].
  - rewrite <- (node_type_cls _ _ Hc2). exact Hty.
  - rewrite (cut_trimmed h h' _ Ht) in Hc.
    destruct Hch as [E | [_ E]]; rewrite E in Hc; [exact Hc|].
    rewrite cut_cut in Hc. exact Hc.
Qed.

Lemma eliminate_loop_effect pass (Hpass : pass_effect pass) l :
  forall h out h',
    eliminate_loop pass l false h = Done out h' ->
    out = cut h l /\ drops_after_return h h' /\
    forall b, (forall c, c ∈ cut h l -> ~ visited h c b) ->
              h' !! b = h !! b.
Proof.
  induction l as [|s l IH]; intros h out h' Hrun.
  { injection Hrun as <- <-. split; [reflexivity|].
    split; [apply drops_after_return_refl|]. auto. }
  cbn [eliminate_loop] in Hrun. unfold bind at 1 in Hrun.
  destruct (pass s h) as [r h1|e h1|] eqn:Hp; try discriminate.
  destruct (Hpass s h r h1 Hp) as (-> & Hd1 & Hu1).
  pose proof (drops_after_return_trimmed _ _ Hd1) as Ht1.
  unfold bind at 1 in Hrun. unfold get at 1 in Hrun.
  pose proof (is_return_trimmed h h1 s Ht1) as Hret.
  unfold is_return at 1 in Hret.
  destruct (h1 !! s) as [ns|] eqn:Hs; [|discriminate].
  rewrite Hret in Hrun. cbn [cut].
  destruct (is_return h s) eqn:Hrs.
  - unfold bind at 1 in Hrun. rewrite eliminate_loop_returned in Hrun.
    injection Hrun as <- <-. split; [reflexivity|]. split; [exact Hd1|].
    intros b Hb. apply Hu1, Hb. left.
  - unfold bind at 1 in Hrun.
    destruct (eliminate_loop pass l false h1) as [out2 h2|e h2|] eqn:Hl;
      try discriminate.
    injection Hrun as <- <-.
    destruct (IH h1 out2 h2 Hl) as (-> & Hd2 & Hu2).
    rewrite (cut_trimmed h h1 l Ht1) in *.
    split; [reflexivity|].
    split; [apply (drops_after_return_trans _ h1); assumption|].
    intros b Hb. rewrite Hu2.
    + apply Hu1, Hb. left.
    + intros c Hc Hv. apply (Hb c); [right; exact Hc|].
      apply (visited_drops_after_return h h1 c b Hd1 Hv).
Qed.

Lemma dead_code_elimination_pass_effect fuel :
  pass_effect (dead_code_elimination_pass fuel).
Proof.
  induction fuel as [|fuel IH]; intros a h r h' Hrun; [discriminate|].
  cbn [dead_code_elimination_pass] in Hrun. unfold bind at 1 in Hrun.
  unfold get at 1 in Hrun.
  destruct (h !! a) as [n|] eqn:Ha; [|discriminate].
  assert (Hother :
    ret a h = Done r h' ->
    r = a /\ drops_after_return h h' /\
    forall b, ~ visited h a b -> h' !! b = h !! b).
  { intros E. injection E as <- <-. split; [reflexivity|].
    split; [apply drops_after_return_refl|]. auto. }
  assert (Hblock :
    node_type n = FUNCTION \/ node_type n = BLOCK ->
    (let* new_statements :=
       _eliminate_dead_code_block (dead_code_elimination_pass fuel)
         (children n) in
     let* _ := set_children a new_statements in
     ret a) h = Done r h' ->
    r = a /\ drops_after_return h h' /\
    forall b, ~ visited h a b -> h' !! b = h !! b).
  { intros Hty E. unfold bind at 1 in E. unfold _eliminate_dead_code_block in E.
    destruct (eliminate_loop (dead_code_elimination_pass fuel) (children n)
                false h) as [out h1|e h1|] eqn:Hl; try discriminate.
    destruct (eliminate_loop_effect _ IH _ _ _ _ Hl) as (-> & Hd1 & Hu1).
    unfold bind at 1 in E. unfold set_children in E.
    destruct (Hd1) as [Hlen1 Hall1].
    destruct (Hall1 a n Ha) as (n1 & Ha1 & Hc1 & Hm1 & _).
    rewrite Ha1 in E. injection E as <- <-. split; [reflexivity|]. split.
    - split; [rewrite length_insert; exact Hlen1|].
      intros b m Hb. destruct (decide (b = a)) as [->|Hne].
      + rewrite Ha in Hb. injection Hb as <-.
        rewrite list_lookup_insert_eq by (apply lookup_lt_Some in Ha1; exact Ha1).
        eexists. split; [reflexivity|]. split; [exact Hc1|].
        split; [exact Hm1|]. right. split; [exact Hty|reflexivity].
      + rewrite list_lookup_insert_ne by congruence. apply Hall1, Hb.
    - intros b Hb. destruct (decide (b = a)) as [->|Hne].
      { destruct Hb. apply visited_here. }
      rewrite list_lookup_insert_ne by congruence. apply Hu1.
      intros c Hc Hv. apply Hb.
      apply (visited_statement h a n c b Ha Hty Hc Hv). }
  destruct (node_type n) eqn:Hty;
    first [apply Hblock; [auto|exact Hrun] | apply Hother; exact Hrun].
Qed.

(** What is visited in a clean heap is clean. *)
Lemma clean_visited h a b : clean h a -> visited h a b -> clean h b.
Proof.
  intros Hc Hv. induction Hv as [a|a n c b Ha Hty Hin Hv IH]; [exact Hc|].
  apply IH. destruct Hc as [a m Hm Hnf Hnb|a m Hm _ Hcut Hch].
  - rewrite Ha in Hm. injection Hm as <-. destruct Hty; contradiction.
  - rewrite Ha in Hm. injection Hm as <-. apply Hch.
    apply (cut_elem_of h _ _ Hin).
Qed.

Lemma clean_cut h a n :
  clean h a -> h !! a = Some n ->
  node_type n = FUNCTION \/ node_type n = BLOCK ->
  cut h (children n) = children n.
Proof.
  intros Hc Ha Hty. destruct Hc as [a m Hm Hnf Hnb|a m Hm _ Hcut _];
    rewrite Ha in Hm; injection Hm as <-; [destruct Hty; contradiction|].
  exact Hcut.
Qed.

(** C2, amended: the dead-code pass returns an [If] or a [While] node as
    it is, whatever its condition, and a block or function body made of
    such nodes keeps all of them.  What the pass drops are the statements
    after a [Return] and nothing else: on a tree of nodes it returns the
    node it was given, every object comes back with its class, its
    metadata and either the children it had or, if it is a block or a
    function, its statements up to and with the first [Return]; the node
    the pass was given comes back so cut when it is a block or a function
    and unchanged when it is not. *)
Theorem dead_code_elimination_keeps_if_and_while (k : nat) (h : heap) :
  (forall a n,
      h !! a = Some n -> node_type n = IF \/ node_type n = WHILE ->
      dead_code_elimination_pass (S k) a h = Done a h) /\
  (forall b n,
      h !! b = Some n -> node_type n = BLOCK \/ node_type n = FUNCTION ->
      (forall c, c ∈ children n ->
         exists m, h !! c = Some m /\
                   (node_type m = IF \/ node_type m = WHILE)) ->
      dead_code_elimination_pass (S (S k)) b h = Done b h) /\
  (forall a n,
      children_first h -> h !! a = Some n -> a <= k ->
      exists h',
        dead_code_elimination_pass (S k) a h = Done a h' /\
        drops_after_return h h' /\
        h' !! a =
        Some (mkIRNode (cls n)
                (match node_type n with
                 | FUNCTION | BLOCK => cut h (children n)
                 | _ => children n
                 end) (metadata n))).
Proof.
  split; [|split].
  - intros a n Ha Ht.
    apply (dead_code_elimination_pass_other k h a n Ha);
      destruct Ht as [-> | ->]; discriminate.
  - intros b n Hb Ht Hcs.
    assert (Hloop :
      (let* new_statements :=
         _eliminate_dead_code_block
           (dead_code_elimination_pass (S k)) (children n) in
       let* _ := set_children b new_statements in
       ret b) h = Done b h).
    { unfold bind at 1. unfold _eliminate_dead_code_block.
      rewrite (eliminate_loop_kept k h (children n) Hcs).
      unfold bind at 1. rewrite (set_children_same h b n Hb). reflexivity. }
    cbn [dead_code_elimination_pass]. unfold bind at 1. unfold get at 1.
    rewrite Hb. destruct Ht as [Ht | Ht]; rewrite Ht; exact Hloop.
  - intros a n Hf Ha Hk.
    destruct (dead_code_elimination_pass_spec (S k) a h Hf)
      as (h' & Hp & _ & _ & _ & _ & Hn);
      [lia|apply lookup_lt_Some in Ha; exact Ha|].
    exists h'. split; [exact Hp|]. split; [|apply Hn, Ha].
    apply (dead_code_elimination_pass_effect (S k) a h a h' Hp).
Qed.

(** X9: on a tree of IR nodes the dead-code pass returns the node it was
    given and does not raise.  It makes no object, keeps the class and the
    metadata of every object and leaves of each list of children a prefix;
    a block or function node comes back with its statements up to and
    with the first [Return], any other node as it was; objects made after
    the node are not touched. *)
Theorem dead_code_elimination_cuts_after_return
    (fuel : nat) (h : heap) (a : addr) (n : IRNode)
    (Hf : children_first h) (Ha : h !! a = Some n) (Hfuel : a < fuel) :
  exists h',
    dead_code_elimination_pass fuel a h = Done a h' /\
    trimmed h h' /\
    h' !! a =
    Some (mkIRNode (cls n)
            (match node_type n with
             | FUNCTION | BLOCK => cut h (children n)
             | _ => children n
             end) (metadata n)) /\
    forall b, a < b -> h' !! b = h !! b.
Proof.
  destruct (dead_code_elimination_pass_spec fuel a h Hf Hfuel)
    as (h' & Hp & Ht & _ & _ & Hu & Hn).
  { apply lookup_lt_Some in Ha. exact Ha. }
  exists h'. split; [exact Hp|]. split; [exact Ht|].
  split; [apply Hn, Ha|exact Hu].
Qed.

(** X10: the dead-code pass is idempotent on trees.  In the heap it
    leaves, every block and function body it visits from the node has no
    statement after a [Return], and a second run returns the node again
    and changes nothing.  The pass visits the statements of blocks and
    functions only: an object it does not visit, such as a block under an
    [If] or a [While], is left as it was, with the statements after its
    [Return]. *)
Theorem dead_code_elimination_is_idempotent
    (fuel : nat) (h : heap) (a : addr)
    (Hf : children_first h) (Ha : a < length h) (Hfuel : a < fuel) :
  exists h',
    dead_code_elimination_pass fuel a h = Done a h' /\
    (forall b n, visited h' a b -> h' !! b = Some n ->
       node_type n = FUNCTION \/ node_type n = BLOCK ->
       cut h' (children n) = children n) /\
    (forall b, ~ visited h a b -> h' !! b = h !! b) /\
    dead_code_elimination_pass fuel a h' = Done a h'.
Proof.
  destruct (dead_code_elimination_pass_spec fuel a h Hf Hfuel Ha)
    as (h' & Hp & Ht & Hc & _).
  exists h'. split; [exact Hp|]. split; [|split].
  - intros b n Hv Hb Hty.
    apply (clean_cut h' b n (clean_visited h' a b Hc Hv) Hb Hty).
  - apply (dead_code_elimination_pass_effect fuel a h a h' Hp).
  - apply dead_code_elimination_pass_clean; [|exact Hfuel|exact Hc].
    apply (children_first_trimmed h h' Ht Hf).
Qed.

End DeadCodeFacts.

(** The amended statement at the block of the counterexample, and at a
    function body [{ if ..; while ..; return; z; { if ..; while .. } }]
    over the same objects: the two statements after the [return] go, the
    [if] and the [while] before it stay. *)
Lemma dead_code_elimination_keeps_if_and_while_witness :
  let h :=
    [ IR.mkIRNode (IR.ConstantNode (Py.VBool true) (Some "bool")) [] [];
      IR.mkIRNode (IR.VariableNode "x" None) [] [];
      IR.mkIRNode (IR.VariableNode "y" None) [] [];
      IR.mkIRNode (IR.IfNode 0 [1] [2]) [0; 1; 2] [];
      IR.mkIRNode (IR.ConstantNode (Py.VBool false) (Some "bool")) [] [];
      IR.mkIRNode (IR.VariableNode "z" None) [] [];
      IR.mkIRNode (IR.WhileNode 4 [5]) [4; 5] [];
      IR.mkIRNode (IR.BlockNode [3; 6]) [3; 6] [];
      IR.mkIRNode (IR.ReturnNode None) [] [];
      IR.mkIRNode (IR.FunctionNode "f" [] None) [3; 6; 8; 5; 7] [] ] in
  IR.dead_code_elimination_pass 1 3 h = IR.Done 3 h /\
  IR.dead_code_elimination_pass 2 7 h = IR.Done 7 h /\
  exists h',
    IR.dead_code_elimination_pass 10 9 h = IR.Done 9 h' /\
    IR.drops_after_return h h' /\
    h' !! 9 = Some (IR.mkIRNode (IR.FunctionNode "f" [] None) [3; 6; 8] []).
Proof.
  intros h. split; [|split].
  - apply (proj1 (dead_code_elimination_keeps_if_and_while 0 h) 3
             (IR.mkIRNode (IR.IfNode 0 [1] [2]) [0; 1; 2] [])).
    + reflexivity.
    + left. reflexivity.
  - apply (proj1 (proj2 (dead_code_elimination_keeps_if_and_while 0 h)) 7
             (IR.mkIRNode (IR.BlockNode [3; 6]) [3; 6] [])).
    + reflexivity.
    + left. reflexivity.
    + intros c Hc. simpl in Hc.
      apply elem_of_cons in Hc as [-> | Hc].
      { eexists. split; [reflexivity|]. left. reflexivity. }
      apply elem_of_cons in Hc as [-> | Hc].
      { eexists. split; [reflexivity|]. right. reflexivity. }
      apply elem_of_nil in Hc. destruct Hc.
  - apply (proj2 (proj2 (dead_code_elimination_keeps_if_and_while 9 h)) 9
             (IR.mkIRNode (IR.FunctionNode "f" [] None) [3; 6; 8; 5; 7] []));
      [|reflexivity|lia].
    intros a n Ha.
    do 10 (destruct a as [|a];
           [injection Ha as <-; repeat constructor; lia|]).
    discriminate.
Defined.

(** A function body [{ x; return 1; y; { return 1; z } }]: the statements
    after the first [return] go. *)
Lemma dead_code_elimination_cuts_after_return_witness :
  let h :=
    [ IR.mkIRNode (IR.VariableNode "x" None) [] [];
      IR.mkIRNode (IR.ConstantNode (Py.VInt 1) (Some "int")) [] [];
      IR.mkIRNode (IR.ReturnNode (Some 1)) [1] [];
      IR.mkIRNode (IR.VariableNode "y" None) [] [];
      IR.mkIRNode (IR.VariableNode "z" None) [] [];
      IR.mkIRNode (IR.BlockNode [2; 4]) [2; 4] [];
      IR.mkIRNode (IR.FunctionNode "f" [] None) [0; 2; 3; 5] [] ] in
  exists h',
    IR.dead_code_elimination_pass 7 6 h = IR.Done 6 h' /\
    IR.trimmed h h' /\
    h' !! 6 = Some (IR.mkIRNode (IR.FunctionNode "f" [] None) [0; 2] []) /\
    forall b, 6 < b -> h' !! b = h !! b.
Proof.
  intros h.
  apply (dead_code_elimination_cuts_after_return 7 h 6
           (IR.mkIRNode (IR.FunctionNode "f" [] None) [0; 2; 3; 5] []));
    [|reflexivity|lia].
  intros a n Ha.
  do 7 (destruct a as [|a];
        [injection Ha as <-; repeat constructor; lia|]).
  discriminate.
Defined.

(** A function body [{ if (c) { { return; x } }; { return; x }; return; x }]:
    the block that is a statement of the body loses its [x], the body
    loses what follows its [return], and the block under the [if] keeps
    its [x]. *)
Lemma dead_code_elimination_is_idempotent_witness :
  let h :=
    [ IR.mkIRNode (IR.VariableNode "x" None) [] [];
      IR.mkIRNode (IR.ReturnNode None) [] [];
      IR.mkIRNode (IR.BlockNode [1; 0]) [1; 0] [];
      IR.mkIRNode (IR.VariableNode "c" None) [] [];
      IR.mkIRNode (IR.IfNode 3 [2] []) [3; 2] [];
      IR.mkIRNode (IR.BlockNode [1; 0]) [1; 0] [];
      IR.mkIRNode (IR.FunctionNode "f" [] None) [4; 5; 1; 0] [] ] in
  exists h',
    IR.dead_code_elimination_pass 7 6 h = IR.Done 6 h' /\
    (forall b n, IR.visited h' 6 b -> h' !! b = Some n ->
       IR.node_type n = IR.FUNCTION \/ IR.node_type n = IR.BLOCK ->
       IR.cut h' (IR.children n) = IR.children n) /\
    (forall b, ~ IR.visited h 6 b -> h' !! b = h !! b) /\
    IR.dead_code_elimination_pass 7 6 h' = IR.Done 6 h' /\
    h' !! 2 = Some (IR.mkIRNode (IR.BlockNode [1; 0]) [1; 0] []) /\
    h' !! 5 = Some (IR.mkIRNode (IR.BlockNode [1; 0]) [1] []).
Proof.
  intros h.
  destruct (dead_code_elimination_is_idempotent 7 h 6)
    as (h' & Hp & Hc & Hu & Hi); [|simpl; lia|lia|].
  { intros a n Ha.
    do 7 (destruct a as [|a];
          [injection Ha as <-; repeat constructor; lia|]).
    discriminate. }
  exists h'. split; [exact Hp|]. split; [exact Hc|]. split; [exact Hu|].
  split; [exact Hi|]. split.
  - rewrite Hu; [reflexivity|]. intros Hv.
    assert (Hleaf : forall c, c = 4 \/ c = 1 -> ~ IR.visited h c 2).
    { intros c Hc4 Hv4. inversion Hv4 as [|? n ? ? Hn Hty _ _].
      - subst. destruct Hc4; discriminate.
      - subst. destruct Hc4 as [-> | ->]; injection Hn as <-;
          destruct Hty; discriminate. }
    inversion Hv as [|? n c ? Hn Hty Hin Hv6]. subst.
    injection Hn as <-. vm_compute in Hin.
    apply elem_of_cons in Hin as [-> | Hin]; [apply (Hleaf 4); auto|].
    apply elem_of_cons in Hin as [-> | Hin].
    2:{ apply list_elem_of_singleton in Hin as ->. apply (Hleaf 1); auto. }
    inversion Hv6 as [|? n c ? Hn Hty' Hin Hv5]. subst.
    injection Hn as <-. vm_compute in Hin.
    apply list_elem_of_singleton in Hin as ->. apply (Hleaf 1); auto.
  - vm_compute in Hp. injection Hp as <-. reflexivity.
Defined.

(** ** Constant folding of an operation on two constants *)

Section ConstantFoldingFacts.
Import IR.

Variable extern : string -> Py.value -> Py.value -> Py.result.

(** X11: a [BinaryOpNode] whose operands are two [ConstantNode]s on which
    the operator of the table gives a value is folded: the pass returns a
    new [ConstantNode] with that value and the name of its Python type,
    made at the end of the heap, and leaves the three old objects as they
    were. *)
Theorem constant_folding_folds_two_constants
    (k : nat) (h : heap) (a l r : addr) (op : string) (lv rv v : Py.value)
    (lt rt : option string) (ma ml mr : list (string * Py.value))
    (Ha : h !! a = Some (mkIRNode (BinaryOpNode op l r) [l; r] ma))
    (Hl : h !! l = Some (mkIRNode (ConstantNode lv lt) [] ml))
    (Hr : h !! r = Some (mkIRNode (ConstantNode rv rt) [] mr))
    (Hv : _evaluate_binary_op extern op lv rv = Py.Ok v) :
  constant_folding_pass extern (S (S k)) a h =
  Done (length h)
       (h ++ [mkIRNode (ConstantNode v (Some (Py.type_name v))) [] []]).
Proof.
  rewrite constant_folding_pass_unfold.
  unfold bind at 1. unfold get at 1.
  rewrite Ha. cbn [children mapM].
  unfold bind at 1. unfold bind at 1.
  rewrite (constant_folding_pass_constant extern k h l _ Hl eq_refl eq_refl).
  unfold bind at 1. unfold bind at 1.
  rewrite (constant_folding_pass_constant extern k h r _ Hr eq_refl eq_refl).
  unfold bind at 1. unfold ret at 1. unfold ret at 1.
  unfold ret at 1. unfold bind at 1.
  pose proof (set_children_same h a _ Ha) as Hs.
  cbn [children] in Hs. rewrite Hs.
  cbn [node_type cls]. unfold _fold_binary_op.
  unfold bind at 1. unfold get at 1. rewrite Ha. cbn [cls].
  unfold bind at 1. unfold get at 1. rewrite Hl.
  unfold bind at 1. unfold get at 1. rewrite Hr.
  cbn [_is_constant_node node_type cls NodeType_eqb andb constant_value].
  rewrite Hv. reflexivity.
Qed.

End ConstantFoldingFacts.

(** [2 + 3] folds to [5] and [2 < 3] to [True]. *)
Lemma constant_folding_folds_two_constants_witness :
  let extern := fun (_ : string) (_ _ : Py.value) => Py.Raise Py.OverflowError in
  let h :=
    [ IR.mkIRNode (IR.ConstantNode (Py.VInt 2) (Some "int")) [] [];
      IR.mkIRNode (IR.ConstantNode (Py.VInt 3) (Some "int")) [] [];
      IR.mkIRNode (IR.BinaryOpNode "+" 0 1) [0; 1] [];
      IR.mkIRNode (IR.BinaryOpNode "<" 0 1) [0; 1] [] ] in
  IR.constant_folding_pass extern 2 2 h =
  IR.Done 4 (h ++ [IR.mkIRNode (IR.ConstantNode (Py.VInt 5) (Some "int")) [] []])
  /\
  IR.constant_folding_pass extern 2 3 h =
  IR.Done 4 (h ++ [IR.mkIRNode (IR.ConstantNode (Py.VBool true) (Some "bool"))
                                [] []]).
Proof.
  intros extern h. split.
  - apply (constant_folding_folds_two_constants extern 0 h 2 0 1 "+"
             (Py.VInt 2) (Py.VInt 3) (Py.VInt 5) (Some "int") (Some "int")
             [] [] []); reflexivity.
  - apply (constant_folding_folds_two_constants extern 0 h 3 0 1 "<"
             (Py.VInt 2) (Py.VInt 3) (Py.VBool true) (Some "int") (Some "int")
             [] [] []); reflexivity.
Defined.

(** ** The bytecode emitter *)

Section EmitterFacts.
Import IRToRuntime.

Variable h : IR.heap.
Variable float_repr : float -> string.

Lemma extends_refl c : extends c c.
Proof. exists []. split; [symmetry; apply app_nil_r|constructor]. Qed.

Lemma extends_trans c1 c2 c3 : extends c1 c2 -> extends c2 c3 -> extends c1 c3.
Proof.
  intros (n1 & H1 & F1) (n2 & H2 & F2). exists (n1 ++ n2). split.
  - rewrite H2, H1, app_assoc. reflexivity.
  - apply Forall_app. split; assumption.
Qed.

Lemma extended_bind {A B} (m : M A) (k : A -> M B) c :
  extended c (m c) -> (forall a c', extended c' (k a c')) ->
  extended c (bind m k c).
Proof.
  intros Hm Hk. unfold bind. destruct (m c) as [a c'|e c'|]; [|exact Hm|exact I].
  specialize (Hk a c'). destruct (k a c') as [b c''|e c''|]; [| |exact I];
    apply (extends_trans _ c'); assumption.
Qed.

Lemma extended_raise {A} e c : extended c (@raise A e c).
Proof. apply extends_refl. Qed.

Lemma extended_ret {A} (a : A) c : extended c (ret a c).
Proof. apply extends_refl. Qed.

Lemma extended_new_label prefix c : extended c (_new_label prefix c).
Proof. exists []. split; [symmetry; apply app_nil_r|constructor]. Qed.

Lemma extended_forM {A} (f : A -> M unit) l :
  (forall x c, extended c (f x c)) -> forall c, extended c (forM f l c).
Proof.
  intros Hf. induction l as [|x l IH]; intros c; [apply extends_refl|].
  cbn [forM]. apply extended_bind; [apply Hf|]. intros _ c'. apply IH.
Qed.

Lemma extended_emit n instr c :
  instr ∉ operator_instructions -> extended c (emit_with_debug n instr c).
Proof.
  intros Hi. unfold emit_with_debug.
  destruct (Dict.get "source_loc" (IR.metadata n));
    (exists [instr]; split; [reflexivity|repeat constructor; exact Hi]).
Qed.

(** An instruction that begins with a keyword the table does not hold. *)
Lemma prefixed_not_operator (kw rest : string) :
  forallb (fun op => negb (String.prefix kw op)) operator_instructions = true ->
  (kw ++ rest)%string ∉ operator_instructions.
Proof.
  intros Hall Hin. rewrite forallb_forall in Hall.
  apply list_elem_of_In in Hin. specialize (Hall _ Hin).
  apply negb_true_iff in Hall.
  assert (Hp : String.prefix kw (kw ++ rest) = true).
  { clear. induction kw as [|a kw IH]; [destruct rest; reflexivity|].
    change (String a kw +:+ rest) with (String a (kw +:+ rest)).
    cbn [String.prefix]. destruct (Ascii.ascii_dec a a); [exact IH|congruence]. }
  congruence.
Qed.

Ltac not_operator :=
  lazymatch goal with
  | |- (?kw ++ ?rest)%string ∉ _ =>
      apply (prefixed_not_operator kw rest); reflexivity
  | |- _ ∉ _ => apply (bool_decide_unpack _); reflexivity
  end.

Ltac extended_step IH :=
  first
    [ apply IH
    | apply extended_raise
    | apply extended_ret
    | apply extended_new_label
    | apply extended_emit; not_operator
    | apply extended_forM; intros
    | apply extended_bind; [|intros] ].

(** The bytecode only grows, and never by an operator instruction. *)
Lemma _emit_node_extended fuel :
  forall node c, extended c (_emit_node h float_repr fuel node c).
Proof.
  induction fuel as [|fuel IH]; intros node c; [exact I|].
  cbn [_emit_node]. destruct (h !! node) as [n|]; [|exact I].
  destruct (IR.node_type n) eqn:Hty.
  - destruct (IR.cls n); repeat extended_step IH.
  - destruct (name_of n); repeat extended_step IH.
  - destruct (IR.children n) as [|t [|v [|x l]]]; repeat extended_step IH.
    destruct (h !! t) as [tn|]; [|exact I].
    destruct (name_of tn); repeat extended_step IH.
  - repeat extended_step IH.
    destruct (IR.cls n); repeat extended_step IH.
  - repeat extended_step IH.
    destruct (IR.cls n); repeat extended_step IH.
  - repeat extended_step IH.
  - destruct (IR.cls n); repeat extended_step IH.
  - repeat extended_step IH. destruct (IR.children n); repeat extended_step IH.
  - repeat extended_step IH.
  - destruct (IR.cls n) eqn:Hcls;
      try (unfold IR.node_type in Hty; rewrite Hcls in Hty; discriminate);
      repeat extended_step IH.
  - repeat extended_step IH.
  - repeat extended_step IH.
Qed.

(** X24: the emitter has no code for conditionals and expressions.
    [_emit_node] returns for no node whose [node_type] is [IF],
    [EXPRESSION], [BINARY_OP] or [UNARY_OP]; for an [ExpressionNode], a
    [BinaryOpNode] and a [UnaryOpNode], whose [node_type] is
    [EXPRESSION], it raises [NotImplementedError] and emits nothing.  A
    constant is emitted from its metadata, not from its [value]: a
    [ConstantNode] without the key [value] in its metadata gives
    [PUSH_CONST None]. *)
Theorem compile_refuses_conditionals_and_expressions
    (a : IR.addr) (n : IR.IRNode) (Ha : h !! a = Some n) :
  (forall fuel c u c',
      _emit_node h float_repr fuel a c = Done u c' ->
      IR.node_type n <> IR.IF /\ IR.node_type n <> IR.EXPRESSION /\
      IR.node_type n <> IR.BINARY_OP /\ IR.node_type n <> IR.UNARY_OP) /\
  (forall fuel c,
      (exists t v, IR.cls n = IR.ExpressionNode t v) \/
      (exists op l r, IR.cls n = IR.BinaryOpNode op l r) \/
      (exists op e, IR.cls n = IR.UnaryOpNode op e) ->
      _emit_node h float_repr (S fuel) a c =
      Raised
        (NotImplementedError
           "IRToRuntime: Unsupported node type NodeType.EXPRESSION") c) /\
  (forall fuel c v t,
      IR.cls n = IR.ConstantNode v t ->
      Dict.get "value" (IR.metadata n) = None ->
      Dict.get "source_loc" (IR.metadata n) = None ->
      _emit_node h float_repr (S fuel) a c =
      Done tt (mkIRToRuntime (bytecode c ++ ["PUSH_CONST None"])
                             (debug_info c) (_label_counter c))).
Proof.
  split; [|split].
  - intros fuel c u c' Hrun. destruct fuel as [|fuel]; [discriminate|].
    cbn [_emit_node] in Hrun. rewrite Ha in Hrun.
    destruct (IR.node_type n) eqn:Hty;
      try (repeat split; discriminate); exfalso.
    + (* IF *)
      unfold bind at 1 in Hrun. cbn [_new_label] in Hrun.
      unfold bind at 1 in Hrun. cbn [_new_label] in Hrun.
      destruct (IR.cls n); try discriminate.
      unfold bind at 1 in Hrun.
      destruct (_emit_node h float_repr fuel condition _); try discriminate.
      unfold bind at 1 in Hrun.
      destruct (emit_with_debug n _ _); discriminate.
    + (* BINARY_OP *)
      destruct (IR.cls n) eqn:Hcls; try discriminate.
      unfold IR.node_type in Hty. rewrite Hcls in Hty. discriminate.
  - intros fuel c Hcls. cbn [_emit_node]. rewrite Ha.
    assert (Hty : IR.node_type n = IR.EXPRESSION).
    { unfold IR.node_type.
      destruct Hcls as [(t & v & ->)|[(op & l & r & ->)|(op & e & ->)]];
        reflexivity. }
    rewrite Hty. reflexivity.
  - intros fuel c v t Hcls Hv Hloc. cbn [_emit_node]. rewrite Ha.
    assert (Hty : IR.node_type n = IR.CONSTANT)
      by (unfold IR.node_type; rewrite Hcls; reflexivity).
    rewrite Hty, Hv. unfold emit_with_debug. rewrite Hloc. reflexivity.
Qed.

(** X25: the bytecode of [compile], and what an interrupted [compile] has
    put into [self.bytecode], holds no operator instruction ([ADD], [SUB],
    ..., [OR]): the branch that maps an operator to its instruction is
    taken for a [node_type] that no node with the attributes [left],
    [right] and [operator] has. *)
Theorem bytecode_has_no_operator_instruction (fuel : nat) (ir_root : IR.addr) :
  match compile h float_repr fuel ir_root with
  | Done code c =>
      code = bytecode c /\
      Forall (fun instr => instr ∉ operator_instructions) code
  | Raised _ c => Forall (fun instr => instr ∉ operator_instructions) (bytecode c)
  | Undefined => True
  end.
Proof.
  unfold compile.
  pose proof (_emit_node_extended fuel ir_root init) as Hext.
  destruct (_emit_node h float_repr fuel ir_root init) as [u c|e c|];
    [| |exact I]; destruct Hext as (new & Hnew & Hall);
    cbn in Hnew; rewrite Hnew; auto.
Qed.

End EmitterFacts.

(** [if (x) { return }] is refused after the code of the condition, and
    the sum [1 + 2] is refused at once. *)
Lemma compile_refuses_conditionals_and_expressions_witness :
  let float_repr := fun _ : float => "" in
  let h :=
    [ IR.mkIRNode (IR.ConstantNode (Py.VInt 1) (Some "int")) [] [];
      IR.mkIRNode (IR.ConstantNode (Py.VInt 2) (Some "int")) [] [];
      IR.mkIRNode (IR.BinaryOpNode "+" 0 1) [0; 1] [];
      IR.mkIRNode (IR.VariableNode "x" None) [] [];
      IR.mkIRNode (IR.ReturnNode None) [] [];
      IR.mkIRNode (IR.IfNode 3 [4] []) [3; 4] [] ] in
  IRToRuntime._emit_node h float_repr 2 2 IRToRuntime.init =
  IRToRuntime.Raised
    (IRToRuntime.NotImplementedError
       "IRToRuntime: Unsupported node type NodeType.EXPRESSION")
    IRToRuntime.init /\
  IRToRuntime._emit_node h float_repr 1 0 IRToRuntime.init =
  IRToRuntime.Done tt (IRToRuntime.mkIRToRuntime ["PUSH_CONST None"] [] 0) /\
  IRToRuntime.compile h float_repr 3 5 =
  IRToRuntime.Raised IRToRuntime.AttributeError
    (IRToRuntime.mkIRToRuntime ["LOAD x"; "JUMP_IF_FALSE else_1"] [] 2).
Proof.
  intros float_repr h.
  pose proof (compile_refuses_conditionals_and_expressions h float_repr 2
                (IR.mkIRNode (IR.BinaryOpNode "+" 0 1) [0; 1] []) eq_refl)
    as (_ & Hexpr & _).
  pose proof (compile_refuses_conditionals_and_expressions h float_repr 0
                (IR.mkIRNode (IR.ConstantNode (Py.VInt 1) (Some "int")) [] [])
                eq_refl) as (_ & _ & Hconst).
  split; [|split].
  - apply Hexpr. right. left. eexists _, _, _. reflexivity.
  - apply (Hconst 0 IRToRuntime.init (Py.VInt 1) (Some "int")); reflexivity.
  - vm_compute. reflexivity.
Defined.

(** [def f(a): y = g(a); while a: return y] compiles. *)
Lemma bytecode_has_no_operator_instruction_witness :
  let float_repr := fun _ : float => "" in
  let h :=
    [ IR.mkIRNode (IR.VariableNode "a" None) [] [];
      IR.mkIRNode (IR.VariableNode "y" None) [] [];
      IR.mkIRNode (IR.CallNode "g" [0]) [0] [];
      IR.mkIRNode (IR.AssignmentNode 1 2) [1; 2] [];
      IR.mkIRNode (IR.ReturnNode (Some 1)) [1] [];
      IR.mkIRNode (IR.WhileNode 0 [4]) [0; 4] [];
      IR.mkIRNode (IR.FunctionNode "f" ["a"] None) [3; 5] [] ] in
  let code :=
    [ "FUNC_START f"; "PARAM a"; "LOAD a"; "CALL g 1"; "STORE y";
      "LABEL while_start_1"; "LOAD a"; "JUMP_IF_FALSE while_end_2";
      "LOAD y"; "RETURN"; "JUMP while_start_1"; "LABEL while_end_2";
      "FUNC_END" ] in
  IRToRuntime.compile h float_repr 4 6 =
  IRToRuntime.Done code (IRToRuntime.mkIRToRuntime code [] 2) /\
  Forall (fun instr => instr ∉ IRToRuntime.operator_instructions) code.
Proof.
  intros float_repr h code.
  assert (Hc : IRToRuntime.compile h float_repr 4 6 =
               IRToRuntime.Done code (IRToRuntime.mkIRToRuntime code [] 2))
    by (vm_compute; reflexivity).
  split; [exact Hc|].
  pose proof (bytecode_has_no_operator_instruction h float_repr 4 6) as H.
  rewrite Hc in H. exact (proj2 H).
Defined.

(** ** The tree-walking interpreter and the runtime environment *)

Section InterpreterFacts.
Import Interp.

Variable extern : string -> Py.value -> Py.value -> Py.result.
Variable str : value -> string.

Lemma is_zero_is_number v : Py.is_zero v = true -> Py.is_number v = true.
Proof. unfold Py.is_zero. intros H. apply andb_true_iff in H. tauto. Qed.

Lemma is_zero_eq_zero v : Py.is_zero v = true -> Py.eq v (Py.VInt 0) = true.
Proof. unfold Py.is_zero. intros H. apply andb_true_iff in H. tauto. Qed.

(** [visit_binary_op] on a division whose operands are literals and whose
    divisor is zero. *)
Lemma accept_division_by_zero k lv rv l1 c1 l2 c2 line column i :
  Py.is_zero rv = true ->
  accept extern str (S (S k))
    (BinaryOpNode (LiteralNode lv l1 c1) "/" (LiteralNode rv l2 c2) line column) i =
  Raised
    (RuntimeError (if Py.is_number lv then "Division by zero"
                   else "Operands must be numeric") line column) i.
Proof.
  intros Hz. cbn [accept]. unfold bind, ret.
  unfold visit_binary_op. cbn [String.eqb Ascii.eqb Bool.eqb].
  unfold check_numeric, bind, ret, raise. cbn [is_number is_None].
  rewrite (is_zero_is_number _ Hz), orb_true_r, andb_true_r.
  destruct (Py.is_number lv); [|reflexivity].
  cbn [eq]. rewrite (is_zero_eq_zero _ Hz). reflexivity.
Qed.

(** [Function.call] with the wrong number of arguments: the error names
    both counts; nothing is bound and the current environment stays. *)
Lemma call_arity_mismatch k id name params body line column closure args i :
  length args <> length params ->
  call extern str (S k)
    (FunctionV id (FunctionDefNode name params body line column) closure)
    args i =
  Raised
    (RuntimeError ("Expected " ++ pretty (length params)
                   ++ " arguments but got " ++ pretty (length args))
                  line column)
    (with_envs i (envs i ++ [mkEnvironment ∅ closure])).
Proof.
  intros Hlen. cbn [call]. unfold bind at 1. unfold new_Environment.
  apply Nat.eqb_neq in Hlen. rewrite Hlen. reflexivity.
Qed.





Lemma call_function_arity_mismatch {V : Type} function_name params
    (args : list V) (e : RuntimeEnv.RuntimeEnv V) :
  Dict.get function_name RuntimeEnv.example_functions = Some params ->
  length args <> length params ->
  RuntimeEnv.call_function function_name args e =
  RuntimeEnv.Raised
    (RuntimeEnv.mkRuntimeError
       ("Function '" ++ function_name ++ "' expects "
        ++ pretty (length params) ++ " arguments, got "
        ++ pretty (length args) ++ ".")) e.
Proof.
  intros Hf Hlen. unfold RuntimeEnv.call_function, RuntimeEnv.lookup_function.
  rewrite Hf. apply Nat.eqb_neq in Hlen. rewrite Hlen. reflexivity.
Qed.

Lemma store_ext_refl s : store_ext s s.
Proof. split; [lia|]. eauto. Qed.

Lemma store_ext_trans s1 s2 s3 :
  store_ext s1 s2 -> store_ext s2 s3 -> store_ext s1 s3.
Proof.
  intros [H1 H2] [H3 H4]. split; [lia|].
  intros a e Ha. destruct (H2 a e Ha) as (e' & Ha' & Hp).
  destruct (H4 a e' Ha') as (e'' & Ha'' & Hp').
  exists e''. split; [exact Ha''|congruence].
Qed.

Lemma store_ext_app s e : store_ext s (s ++ [e]).
Proof.
  split; [rewrite length_app; lia|].
  intros a e0 Ha. exists e0. split; [|reflexivity].
  rewrite lookup_app_l; [exact Ha|]. eapply lookup_lt_Some; eauto.
Qed.

Lemma store_ext_insert s a e vs :
  s !! a = Some e ->
  store_ext s (<[a := mkEnvironment vs (parent e)]> s).
Proof.
  intros Ha. split; [rewrite length_insert; lia|].
  intros b e0 Hb. destruct (decide (a = b)) as [->|Hne].
  - rewrite list_lookup_insert_eq by (eapply lookup_lt_Some; eauto).
    eexists. split; [reflexivity|]. simpl. congruence.
  - rewrite list_lookup_insert_ne by assumption. eauto.
Qed.

Lemma kept_refl i : kept i i.
Proof. split; [reflexivity|apply store_ext_refl]. Qed.

Lemma kept_trans i1 i2 i3 : kept i1 i2 -> kept i2 i3 -> kept i1 i3.
Proof.
  intros [H1 H2] [H3 H4]. split; [congruence|].
  eapply store_ext_trans; eassumption.
Qed.

Lemma keeps_bind {A B} (m : M A) (k : A -> M B) i :
  keeps i (m i) ->
  (forall a i', kept i i' -> keeps i' (k a i')) ->
  keeps i (bind m k i).
Proof.
  intros Hm Hk. unfold bind. destruct (m i) as [a i'|e i'|]; simpl in *.
  - specialize (Hk a i' Hm). destruct (k a i') as [b i''|e i''|]; simpl in *;
      try exact I; eapply kept_trans; eassumption.
  - exact Hm.
  - exact I.
Qed.

Lemma keeps_ret {A} (a : A) i : keeps i (ret a i).
Proof. apply kept_refl. Qed.

Lemma keeps_raise {A} e i : keeps i (@raise A e i).
Proof. apply kept_refl. Qed.

Lemma keeps_weaken {A} i i' (r : res A) : kept i i' -> keeps i' r -> keeps i r.
Proof.
  intros Hk Hr. destruct r; simpl in *; try exact I;
    eapply kept_trans; eassumption.
Qed.

Lemma keeps_current_env i : keeps i (current_env i).
Proof. unfold current_env. destruct (env i); apply kept_refl. Qed.

Lemma keeps_env_get a x i : keeps i (env_get a x i).
Proof. unfold env_get. destruct (Environment_get _ _ _ _); [apply kept_refl|exact I]. Qed.

Lemma keeps_env_define a x v i : keeps i (env_define a x v i).
Proof.
  unfold env_define, Environment_define.
  destruct (envs i !! a) as [e|] eqn:Ha; [|exact I].
  split; [reflexivity|]. apply store_ext_insert. exact Ha.
Qed.

Lemma Environment_assign_ext fuel s a x v b s' :
  Environment_assign fuel s a x v = Some (b, s') -> store_ext s s'.
Proof.
  revert a. induction fuel as [|fuel IH]; intros a; simpl; [discriminate|].
  destruct (s !! a) as [e|] eqn:Ha; [|discriminate].
  destruct (values e !! x).
  - intros [= <- <-]. apply store_ext_insert. exact Ha.
  - destruct (parent e) as [p|]; [apply IH|].
    intros [= <- <-]. apply store_ext_refl.
Qed.

Lemma keeps_env_assign a x v i : keeps i (env_assign a x v i).
Proof.
  unfold env_assign.
  destruct (Environment_assign _ _ _ _ _) as [[b s']|] eqn:Hs; [|exact I].
  split; [reflexivity|]. eapply Environment_assign_ext. exact Hs.
Qed.

Lemma keeps_print l i : keeps i (print l i).
Proof. split; [reflexivity|apply store_ext_refl]. Qed.

Lemma keeps_new_Function d c i : keeps i (new_Function d c i).
Proof. split; [reflexivity|apply store_ext_refl]. Qed.

Lemma keeps_lift r i : keeps i (lift r i).
Proof. destruct r; apply kept_refl. Qed.

Lemma keeps_apply f l r i : keeps i (apply f l r i).
Proof. unfold apply. destruct l, r; try apply kept_refl; apply keeps_lift. Qed.

Lemma keeps_check_numeric l r line column i :
  keeps i (check_numeric l r line column i).
Proof. unfold check_numeric. destruct (_ && _); apply kept_refl. Qed.

Lemma keeps_visit_binary_op op l r line column i :
  keeps i (visit_binary_op extern op l r line column i).
Proof.
  unfold visit_binary_op.
  repeat match goal with
  | |- context [if String.eqb op ?s then _ else _] => destruct (String.eqb op s)
  end;
  try (apply keeps_bind; [apply keeps_check_numeric|intros [] i' _]);
  try apply keeps_apply; try apply kept_refl.
  destruct (eq r _); [apply kept_refl|apply keeps_apply].
Qed.

Lemma keeps_visit_unary_op op v line column i :
  keeps i (visit_unary_op op v line column i).
Proof.
  unfold visit_unary_op.
  repeat match goal with
  | |- context [if String.eqb op ?s then _ else _] => destruct (String.eqb op s)
  end; try apply kept_refl.
  apply keeps_bind; [apply keeps_check_numeric|intros [] i' _].
  destruct v; try apply kept_refl. apply keeps_lift.
Qed.

Lemma keeps_forM {A} (f : A -> M value) l i :
  (forall x i', keeps i' (f x i')) -> keeps i (forM f l i).
Proof.
  intros Hf. revert i. induction l as [|x l IH]; intros i; simpl.
  - apply kept_refl.
  - apply keeps_bind; [apply Hf|]. intros _ i' _. apply IH.
Qed.

Lemma keeps_mapM {A B} (f : A -> M B) l i :
  (forall x i', keeps i' (f x i')) -> keeps i (mapM f l i).
Proof.
  intros Hf. revert i. induction l as [|x l IH]; intros i; simpl.
  - apply kept_refl.
  - apply keeps_bind; [apply Hf|]. intros y i' _.
    apply keeps_bind; [apply IH|]. intros ys i'' _. apply kept_refl.
Qed.

(** [push_env], a body that keeps the environment it runs in, [pop_env]:
    the current environment is the one before. *)
Lemma keeps_pop_after_push i i2 :
  kept (with_env (with_envs i (envs i ++ [mkEnvironment ∅ (env i)]))
                 (Some (length (envs i)))) i2 ->
  keeps i (pop_env i2).
Proof.
  intros [He [Hlen Hpar]]. unfold pop_env, bind, current_env.
  rewrite He. cbn [env with_env].
  destruct (Hpar (length (envs i)) (mkEnvironment ∅ (env i))) as (e' & Hn & Hp).
  { cbn [envs with_env with_envs].
    rewrite lookup_app_r by lia. rewrite Nat.sub_diag. reflexivity. }
  rewrite Hn. cbn [keeps]. split.
  - cbn [env with_env]. exact Hp.
  - cbn [envs with_env]. eapply store_ext_trans; [apply store_ext_app|].
    split; [exact Hlen|exact Hpar].
Qed.

Lemma keeps_bracket {A B} (body : M A) (k : A -> M B) i :
  (forall i', keeps i' (body i')) ->
  (forall a i', keeps i' (k a i')) ->
  keeps i ((let* _ := push_env in
            let* x := finally body pop_env in
            k x) i).
Proof.
  intros Hbody Hk. unfold bind at 1. unfold push_env, new_Environment.
  set (i1 := with_env (with_envs i (envs i ++ [mkEnvironment ∅ (env i)]))
                      (Some (length (envs i)))).
  specialize (Hbody i1). unfold bind, finally.
  destruct (body i1) as [a i2|e i2|]; cbn [keeps] in Hbody; [| |exact I];
    pose proof (keeps_pop_after_push i i2 Hbody) as Hpop;
    destruct (pop_env i2) as [[] i3|e' i3|]; cbn [keeps] in Hpop |- *;
    try exact Hpop; try exact I.
  eapply keeps_weaken; [exact Hpop|apply Hk].
Qed.

Ltac keeps_step IHa IHf :=
  first
    [ apply IHa
    | apply IHf
    | apply keeps_ret
    | apply keeps_raise
    | apply keeps_current_env
    | apply keeps_env_get
    | apply keeps_env_define
    | apply keeps_env_assign
    | apply keeps_print
    | apply keeps_new_Function
    | apply keeps_visit_binary_op
    | apply keeps_visit_unary_op
    | apply keeps_forM; intros
    | apply keeps_mapM; intros
    | apply keeps_bracket; [intros|intros]
    | apply keeps_bind; [|intros]
    | match goal with
      | |- keeps _ ((if ?b then _ else _) _) => destruct b
      | |- keeps _ ((match ?o with Some _ => _ | None => _ end) _) => destruct o
      end ].

(** A visit leaves the interpreter in the environment it started in. *)
Lemma accept_keeps fuel :
  (forall node i, keeps i (accept extern str fuel node i)) /\
  (forall c inc b i, keeps i (for_loop extern str fuel c inc b i)).
Proof.
  induction fuel as [|fuel [IHa IHf]]; [split; intros; exact I|].
  split.
  - intros node i. destruct node; cbn [accept callable negb];
      repeat keeps_step IHa IHf.
  - intros c inc b i. cbn [for_loop]. repeat keeps_step IHa IHf.
Qed.

Lemma define_params_keeps a bindings i :
  keeps i (define_params a bindings i).
Proof.
  revert i. induction bindings as [|[x v] bs IH]; intros i; cbn [define_params].
  - apply kept_refl.
  - apply keeps_bind; [apply keeps_env_define|]. intros _ i' _. apply IH.
Qed.

Lemma define_params_never_raises a bindings i :
  match define_params a bindings i with
  | Raised _ _ => False
  | _ => True
  end.
Proof.
  revert i. induction bindings as [|[x v] bs IH]; intros i; cbn [define_params].
  - exact I.
  - unfold bind, env_define. destruct (Environment_define _ _ _ _); [|exact I].
    apply IH.
Qed.

Lemma call_unfold fuel id name params body line column closure args :
  call extern str (S fuel)
    (FunctionV id (FunctionDefNode name params body line column) closure) args =
  (let* new_env := new_Environment closure in
   if negb (Nat.eqb (length args) (length params)) then
     raise (RuntimeError
              ("Expected " ++ pretty (length params)
               ++ " arguments but got " ++ pretty (length args))
              line column)
   else
     let* _ := define_params new_env (combine params args) in
     finally
       (catch_return
          (let* _ := push_env in
           let* _ := set_env (Some new_env) in
           let* _ := accept extern str fuel body in
           ret tt))
       pop_env).
Proof. reflexivity. Qed.

(** The environment in which [Function.call] leaves the interpreter is the
    closure of the function, whatever the caller's environment was. *)
Lemma call_ends_in_the_closure_environment
    fuel id name params body line column closure args i :
  length args = length params ->
  match call extern str (S fuel)
          (FunctionV id (FunctionDefNode name params body line column) closure)
          args i with
  | Done _ i' | Raised _ i' => env i' = closure
  | Undefined => True
  end.
Proof.
  intros Hlen. rewrite call_unfold. unfold bind at 1. unfold new_Environment.
  apply Nat.eqb_eq in Hlen. rewrite Hlen. cbn [negb].
  set (n := length (envs i)).
  set (i0 := with_envs i (envs i ++ [mkEnvironment ∅ closure])).
  assert (Hn0 : envs i0 !! n = Some (mkEnvironment ∅ closure)).
  { cbn [i0 envs with_envs]. unfold n. rewrite lookup_app_r by lia.
    rewrite Nat.sub_diag. reflexivity. }
  unfold bind at 1.
  pose proof (define_params_keeps n (combine params args) i0) as Hdef.
  pose proof (define_params_never_raises n (combine params args) i0) as Hnr.
  destruct (define_params n (combine params args) i0) as [[] i1|e i1|];
    cbn [keeps] in Hdef; [|destruct Hnr|exact I].
  destruct Hdef as [_ Hext1].
  (* the body of the try statement *)
  unfold finally, catch_return. unfold bind at 1. unfold push_env, new_Environment.
  unfold bind at 1. unfold set_env. unfold bind at 1.
  set (i3 := with_env
               (with_env (with_envs i1 (envs i1 ++ [mkEnvironment ∅ (env i1)]))
                         (Some (length (envs i1))))
               (Some n)).
  pose proof (proj1 (accept_keeps fuel) body i3) as Hbody.
  assert (Hpop : forall i4, kept i3 i4 ->
            exists i5, pop_env i4 = Done tt i5 /\ env i5 = closure).
  { intros i4 [He Hext4]. unfold pop_env, bind, current_env.
    rewrite He. cbn [i3 env with_env].
    assert (Hext : store_ext (envs i0) (envs i4)).
    { eapply store_ext_trans; [exact Hext1|].
      eapply store_ext_trans; [apply (store_ext_app _ (mkEnvironment ∅ (env i1)))|].
      exact Hext4. }
    destruct (proj2 Hext n _ Hn0) as (e' & Hn4 & Hp).
    rewrite Hn4. eexists. split; [reflexivity|]. exact Hp. }
  destruct (accept extern str fuel body i3) as [v i4|e i4|];
    cbn [keeps] in Hbody; [| |exact I].
  - unfold ret. destruct (Hpop i4 Hbody) as (i5 & -> & He5). exact He5.
  - destruct e as [msg l c|v|pe];
      destruct (Hpop i4 Hbody) as (i5 & -> & He5); exact He5.
Qed.

(** C4, on the code: [call] pushes an environment and at once replaces it
    by the call environment, whose parent is the closure; [pop_env] then
    lands on the closure.  Called from a block inside the global scope, a
    function defined in the global scope leaves the interpreter in the
    global environment on all three exits of its body. *)
Theorem call_returns_to_the_closure_environment (k : nat) :
  let caller :=
    mkInterpreter [mkEnvironment ∅ None; mkEnvironment ∅ (Some 0)]
                  0 (Some 1) 1 [] in
  let after_call :=
    mkInterpreter
      [mkEnvironment ∅ None; mkEnvironment ∅ (Some 0);
       mkEnvironment ∅ (Some 0); mkEnvironment ∅ (Some 1);
       mkEnvironment ∅ (Some 2)]
      0 (Some 0) 1 [] in
  let f body :=
    FunctionV 0 (FunctionDefNode "f" [] (BlockNode body 1 10) 1 1) (Some 0) in
  let run body := call extern str (S (S (S (S k)))) (f body) [] caller in
  env caller = Some 1 /\ env after_call = Some 0 /\
  run [] = Done None_ after_call /\
  run [ReturnNode (Some (LiteralNode (Py.VInt 1) 2 8)) 2 1] =
    Done (Prim (Py.VInt 1)) after_call /\
  run [VariableNode "y" 2 1] =
    Raised (RuntimeError "Undefined variable 'y'" 2 1) after_call.
Proof.
  intros caller after_call f run. subst run f after_call caller.
  split; [reflexivity|]. split; [reflexivity|].
  split; [|split]; vm_compute; reflexivity.
Qed.

(** C6: a division of two constants by the constant zero comes out of
    either pass, and so of [optimize], as the node it was, in an unchanged
    heap; the interpreter answers the same division with a
    [RuntimeError]. *)
Theorem division_by_constant_zero_is_left_to_run_time
    (h : IR.heap) (a l r : nat) (lv rv : Py.value)
    (lt rt : option string) (ma ml mr : list (string * Py.value))
    (k : nat)
    (Ha : h !! a = Some (IR.mkIRNode (IR.BinaryOpNode "/" l r) [l; r] ma))
    (Hl : h !! l = Some (IR.mkIRNode (IR.ConstantNode lv lt) [] ml))
    (Hr : h !! r = Some (IR.mkIRNode (IR.ConstantNode rv rt) [] mr))
    (Hz : Py.is_zero rv = true) :
  IR.constant_folding_pass extern (S (S k)) a h = IR.Done a h /\
  IR.dead_code_elimination_pass (S k) a h = IR.Done a h /\
  IR.optimize extern (S (S k)) a h = IR.Done a h /\
  forall k' l1 c1 l2 c2 line column i,
    accept extern str (S (S k'))
      (BinaryOpNode (LiteralNode lv l1 c1) "/" (LiteralNode rv l2 c2)
                    line column) i =
    Raised
      (RuntimeError (if Py.is_number lv then "Division by zero"
                     else "Operands must be numeric") line column) i.
Proof.
  assert (Hdce : forall n, IR.dead_code_elimination_pass (S n) a h = IR.Done a h)
    by (intros n; apply (dead_code_elimination_pass_other n h a _ Ha);
        discriminate).
  assert (Hfold : IR.constant_folding_pass extern (S (S k)) a h = IR.Done a h).
  { rewrite constant_folding_pass_unfold.
    unfold IR.bind at 1. unfold IR.get at 1.
    rewrite Ha. cbn [IR.children IR.mapM].
    unfold IR.bind at 1. unfold IR.bind at 1.
    rewrite (constant_folding_pass_constant extern k h l _ Hl eq_refl eq_refl).
    unfold IR.bind at 1. unfold IR.bind at 1.
    rewrite (constant_folding_pass_constant extern k h r _ Hr eq_refl eq_refl).
    unfold IR.bind at 1. unfold IR.ret at 1. unfold IR.ret at 1.
    unfold IR.ret at 1. unfold IR.bind at 1.
    pose proof (set_children_same h a _ Ha) as Hs.
    cbn [IR.children] in Hs. rewrite Hs.
    cbn [IR.node_type IR.cls]. unfold IR._fold_binary_op.
    unfold IR.bind at 1. unfold IR.get at 1. rewrite Ha. cbn [IR.cls].
    unfold IR.bind at 1. unfold IR.get at 1. rewrite Hl.
    unfold IR.bind at 1. unfold IR.get at 1. rewrite Hr.
    cbn [IR._is_constant_node IR.node_type IR.cls IR.NodeType_eqb andb
         IR.constant_value].
    unfold IR._evaluate_binary_op.
    cbn [Dict.get IR.ops String.eqb Ascii.eqb Bool.eqb].
    destruct (truediv_by_zero extern lv rv Hz) as [e ->]. reflexivity. }
  split; [exact Hfold|]. split; [apply Hdce|].
  split; [|intros; apply accept_division_by_zero; exact Hz].
  unfold IR.optimize, IR.passes. cbn [fold_left].
  unfold IR.bind at 1. unfold IR.bind at 1. unfold IR.ret at 1.
  rewrite Hfold. apply Hdce.
Qed.

(** C9: both call paths answer a wrong number of arguments with a
    [RuntimeError] whose message holds the expected and the actual count;
    no parameter is bound and no frame is pushed. *)
Theorem arity_mismatch_is_a_runtime_error :
  (forall k id name params body line column closure args i,
      length args <> length params ->
      call extern str (S k)
        (FunctionV id (FunctionDefNode name params body line column) closure)
        args i =
      Raised
        (RuntimeError ("Expected " ++ pretty (length params)
                       ++ " arguments but got " ++ pretty (length args))
                      line column)
        (with_envs i (envs i ++ [mkEnvironment ∅ closure]))) /\
  (forall (V : Type) function_name params (args : list V)
          (e : RuntimeEnv.RuntimeEnv V),
      Dict.get function_name RuntimeEnv.example_functions = Some params ->
      length args <> length params ->
      RuntimeEnv.call_function function_name args e =
      RuntimeEnv.Raised
        (RuntimeEnv.mkRuntimeError
           ("Function '" ++ function_name ++ "' expects "
            ++ pretty (length params) ++ " arguments, got "
            ++ pretty (length args) ++ ".")) e).
Proof.
  split.
  - intros. apply call_arity_mismatch. assumption.
  - intros. apply call_function_arity_mismatch; assumption.
Qed.


End InterpreterFacts.

(** Instances of the statements above that have hypotheses. *)

Lemma division_by_constant_zero_is_left_to_run_time_witness :
  let extern := fun (_ : string) (_ _ : Py.value) => Py.Raise Py.OverflowError in
  let str := fun _ : Interp.value => "" in
  let h :=
    [ IR.mkIRNode (IR.ConstantNode (Py.VInt 1) (Some "int")) [] [];
      IR.mkIRNode (IR.ConstantNode (Py.VInt 0) (Some "int")) [] [];
      IR.mkIRNode (IR.BinaryOpNode "/" 0 1) [0; 1] [] ] in
  IR.optimize extern 2 2 h = IR.Done 2 h /\
  Interp.accept extern str 2
    (Interp.BinaryOpNode (Interp.LiteralNode (Py.VInt 1) 1 1) "/"
                         (Interp.LiteralNode (Py.VInt 0) 1 5) 1 3)
    Interp.init =
  Interp.Raised (Interp.RuntimeError "Division by zero" 1 3) Interp.init.
Proof.
  intros extern str h.
  pose proof (division_by_constant_zero_is_left_to_run_time extern str
                h 2 0 1 (Py.VInt 1) (Py.VInt 0) (Some "int") (Some "int")
                [] [] [] 0 eq_refl eq_refl eq_refl eq_refl)
    as (_ & _ & Hopt & Hrun).
  split; [exact Hopt|]. exact (Hrun 0 1%Z 1%Z 1%Z 5%Z 1%Z 3%Z Interp.init).
Defined.

Lemma arity_mismatch_is_a_runtime_error_witness :
  let extern := fun (_ : string) (_ _ : Py.value) => Py.Raise Py.OverflowError in
  let str := fun _ : Interp.value => "" in
  Interp.call extern str 1
    (Interp.FunctionV 0
       (Interp.FunctionDefNode "f" ["a"; "b"] (Interp.BlockNode [] 1 12) 1 1)
       (Some 0))
    [Interp.Prim (Py.VInt 1)] Interp.init =
  Interp.Raised
    (Interp.RuntimeError "Expected 2 arguments but got 1" 1 1)
    (Interp.with_envs Interp.init
       (Interp.envs Interp.init ++ [Interp.mkEnvironment ∅ (Some 0)])) /\
  RuntimeEnv.call_function "foo" [1%Z] RuntimeEnv.init =
  RuntimeEnv.Raised
    (RuntimeEnv.mkRuntimeError "Function 'foo' expects 2 arguments, got 1.")
    RuntimeEnv.init.
Proof.
  intros extern str.
  pose proof (arity_mismatch_is_a_runtime_error extern str) as [Hcall Henv].
  split.
  - apply (Hcall 0 0 "f" ["a"; "b"] (Interp.BlockNode [] 1 12) 1%Z 1%Z (Some 0)
             [Interp.Prim (Py.VInt 1)] Interp.init).
    simpl. lia.
  - apply (Henv Z "foo" ["x"; "y"] [1%Z] RuntimeEnv.init).
    + reflexivity.
    + simpl. lia.
Defined.


(** ** The interpreter: environments and visits *)

Section EnvironmentFacts.
Import Interp.

Variable extern : string -> Py.value -> Py.value -> Py.result.
Variable str : value -> string.

(** X12: a visit of any node, whether it returns or raises, leaves the
    interpreter in the environment it started in: [visit_block] and
    [visit_for] pop what they push on every path.  The store of
    environments only grows, and each environment keeps its parent. *)
Theorem visit_restores_the_environment (fuel : nat) (node : ASTNode)
    (i : Interpreter) :
  match accept extern str fuel node i with
  | Done _ i' | Raised _ i' =>
      env i' = env i /\
      length (envs i) <= length (envs i') /\
      forall a e, envs i !! a = Some e ->
        exists e', envs i' !! a = Some e' /\ parent e' = parent e
  | Undefined => True
  end.
Proof.
  pose proof (proj1 (accept_keeps extern str fuel) node i) as H.
  destruct (accept extern str fuel node i) as [v i'|e i'|]; [| |exact I];
    destruct H as [He [Hl Hs]]; auto.
Qed.

(** X13: no value of the interpreter is callable: [Function] has a method
    [call] and no [__call__].  A call expression whose callee evaluates to
    a value raises the [RuntimeError] of a non-function at the position of
    the call, without evaluating an argument; so does the call of a name
    that a function definition has just bound. *)
Theorem visit_call_never_calls (fuel : nat) (callee : ASTNode)
    (arguments : list ASTNode) (line column : Z) (i : Interpreter) :
  accept extern str (S fuel) (CallNode callee arguments line column) i =
  match accept extern str fuel callee i with
  | Done c i' =>
      Raised (RuntimeError ("Attempted to call non-function '" ++ str c ++ "'")
                           line column) i'
  | Raised e i' => Raised e i'
  | Undefined => Undefined
  end /\
  forall name params body l c l' c' a,
    env i = Some a -> a < length (envs i) ->
    exists f i1,
      accept extern str (S fuel) (FunctionDefNode name params body l c) i =
      Done None_ i1 /\
      accept extern str (S (S fuel))
        (CallNode (VariableNode name l' c') arguments line column) i1 =
      Raised (RuntimeError ("Attempted to call non-function '" ++ str f ++ "'")
                           line column) i1 /\
      f = FunctionV (next_id i) (FunctionDefNode name params body l c) (Some a).
Proof.
  split.
  - cbn [accept]. unfold bind at 1.
    destruct (accept extern str fuel callee i); reflexivity.
  - intros name params body l c l' c' a Hen Ha.
    destruct (lookup_lt_is_Some_2 (envs i) a Ha) as [e He].
    eexists _, _. split; [|split; [|reflexivity]].
    + cbn [accept]. unfold bind at 1, new_Function at 1. rewrite Hen.
      unfold bind at 1, current_env at 1. cbn [env]. 
      unfold bind at 1, env_define at 1, Environment_define at 1.
      cbn [envs]. rewrite He. reflexivity.
    + cbn [accept]. unfold bind at 1. unfold bind at 1.
      unfold current_env at 1. cbn [env with_envs].
      unfold bind at 1. unfold env_get at 1. cbn [envs with_envs].
      rewrite length_insert.
      destruct (length (envs i)) as [|n] eqn:Hlen; [lia|].
      cbn [Environment_get].
      rewrite list_lookup_insert_eq by lia. cbn [values].
      rewrite lookup_insert_eq. cbn [is_None callable negb].
      reflexivity.
Qed.

(** [assign] changes one environment, one that binds the name. *)
Lemma Environment_assign_found fuel : forall s a x v s',
  Environment_assign fuel s a x v = Some (true, s') ->
  exists q e, s !! q = Some e /\ is_Some (values e !! x) /\
    s' = <[q := mkEnvironment (<[x := v]> (values e)) (parent e)]> s.
Proof.
  induction fuel as [|fuel IH]; intros s a x v s' H; [discriminate|].
  cbn [Environment_assign] in H.
  destruct (s !! a) as [e|] eqn:Ha; [|discriminate].
  destruct (values e !! x) as [w|] eqn:Hx.
  - injection H as <-. exists a, e. rewrite Hx. eauto.
  - destruct (parent e) as [p|]; [|discriminate]. apply (IH _ _ _ _ _ H).
Qed.

Lemma Environment_assign_not_found fuel : forall s a x v s',
  Environment_assign fuel s a x v = Some (false, s') ->
  s' = s /\ Environment_get fuel s a x = Some None_.
Proof.
  induction fuel as [|fuel IH]; intros s a x v s' H; [discriminate|].
  cbn [Environment_assign] in H. cbn [Environment_get].
  destruct (s !! a) as [e|] eqn:Ha; [|discriminate].
  destruct (values e !! x) as [w|] eqn:Hx; [discriminate|].
  destruct (parent e) as [p|].
  - apply (IH _ _ _ _ _ H).
  - injection H as <-. auto.
Qed.

Lemma Environment_assign_get fuel : forall s a x v s',
  Environment_assign fuel s a x v = Some (true, s') ->
  Environment_get fuel s' a x = Some v.
Proof.
  induction fuel as [|fuel IH]; intros s a x v s' H; [discriminate|].
  pose proof H as H0. cbn [Environment_assign] in H. cbn [Environment_get].
  destruct (s !! a) as [e|] eqn:Ha; [|discriminate].
  destruct (values e !! x) as [w|] eqn:Hx.
  - injection H as <-.
    rewrite list_lookup_insert_eq by (apply lookup_lt_Some in Ha; exact Ha).
    cbn [values]. rewrite lookup_insert_eq. reflexivity.
  - destruct (parent e) as [p|] eqn:Hp; [|discriminate].
    destruct (Environment_assign_found _ _ _ _ _ _ H) as (q & eq & Hq & Hsome & ->).
    assert (q <> a).
    { intros ->. rewrite Ha in Hq. injection Hq as <-.
      rewrite Hx in Hsome. destruct Hsome as [? ?]. discriminate. }
    rewrite list_lookup_insert_ne by assumption. rewrite Ha, Hx, Hp.
    apply (IH _ _ _ _ _ H).
Qed.

(** A store that differs in the value of [x] in one environment answers
    alike for every other name. *)
Lemma Environment_get_other_gen fuel : forall s q e e' c y,
  s !! q = Some e -> parent e' = parent e ->
  values e' !! y = values e !! y ->
  Environment_get fuel (<[q := e']> s) c y = Environment_get fuel s c y.
Proof.
  induction fuel as [|fuel IH]; intros s q e e' c y Hq Hp Hy; [reflexivity|].
  cbn [Environment_get]. destruct (decide (c = q)) as [->|Hne].
  - rewrite list_lookup_insert_eq by (apply lookup_lt_Some in Hq; exact Hq).
    rewrite Hq, Hy, Hp.
    destruct (values e !! y) eqn:Hey; [reflexivity|].
    destruct (parent e) eqn:Hpe; [|reflexivity].
    apply (IH _ _ e); congruence.
  - rewrite list_lookup_insert_ne by congruence.
    destruct (s !! c) as [ec|]; [|reflexivity].
    destruct (values ec !! y); [reflexivity|].
    destruct (parent ec); [|reflexivity]. apply (IH _ _ e); assumption.
Qed.

Lemma Environment_get_other fuel s q e x v c y :
  s !! q = Some e -> y <> x ->
  Environment_get fuel
    (<[q := mkEnvironment (<[x := v]> (values e)) (parent e)]> s) c y =
  Environment_get fuel s c y.
Proof.
  intros Hq Hy. apply (Environment_get_other_gen _ _ _ e); [exact Hq|reflexivity|].
  cbn [values]. apply lookup_insert_ne. congruence.
Qed.

(** X14: [Environment.assign] and [Environment.get] agree on the binding
    of a name.  After [assign] has answered [True], [get] of the name from
    the same environment gives the assigned value, and [get] of any other
    name from any environment gives what it gave before; an [assign] that
    answers [False] has changed nothing, and [get] of the name gives
    [None].  After [define], [get] gives the defined value. *)
Theorem assign_then_get (fuel : nat) (s s' : list Environment) (a : addr)
    (x : string) (v : value) :
  (Environment_assign fuel s a x v = Some (true, s') ->
   Environment_get fuel s' a x = Some v /\
   length s' = length s /\
   forall fuel' c y, y <> x ->
     Environment_get fuel' s' c y = Environment_get fuel' s c y) /\
  (Environment_assign fuel s a x v = Some (false, s') ->
   s' = s /\ Environment_get fuel s a x = Some None_) /\
  (Environment_define s a x v = Some s' ->
   Environment_get (S fuel) s' a x = Some v /\
   forall fuel' c y, y <> x ->
     Environment_get fuel' s' c y = Environment_get fuel' s c y).
Proof.
  split; [|split].
  - intros H. split; [apply (Environment_assign_get _ _ _ _ _ _ H)|].
    destruct (Environment_assign_found _ _ _ _ _ _ H) as (q & e & Hq & _ & ->).
    split; [apply length_insert|].
    intros fuel' c y Hy. apply Environment_get_other; assumption.
  - apply Environment_assign_not_found.
  - unfold Environment_define. destruct (s !! a) as [e|] eqn:Ha; [|discriminate].
    intros [= <-]. split.
    + cbn [Environment_get].
      rewrite list_lookup_insert_eq by (apply lookup_lt_Some in Ha; exact Ha).
      cbn [values]. rewrite lookup_insert_eq. reflexivity.
    + intros fuel' c y Hy. apply Environment_get_other; assumption.
Qed.



(** X16: [check_numeric] accepts [None] as right operand, so the
    arithmetic and ordering operators reach Python's own operator with it:
    a number and [None] raise a [TypeError], which [interpret] does not
    catch, while [None] and a number raise the [RuntimeError] of the
    check, which [interpret] reports on the output, answering [None]. *)
Theorem None_right_operand_escapes_the_numeric_check
    (op : string) (n : Py.value) (line column l1 c1 l2 c2 : Z)
    (k : nat) (i : Interpreter)
    (Hop : In op ["+"; "-"; "*"; "/"; "<"; "<="; ">"; ">="])
    (Hn : Py.is_number n = true) :
  visit_binary_op extern op (Prim n) None_ line column i =
  Raised (PyError Py.TypeError) i /\
  visit_binary_op extern op None_ (Prim n) line column i =
  Raised (RuntimeError "Operands must be numeric" line column) i /\
  interpret extern str (S (S k))
    (BinaryOpNode (LiteralNode n l1 c1) op (LiteralNode Py.VNone l2 c2)
                  line column) i =
  Raised (PyError Py.TypeError) i /\
  interpret extern str (S (S k))
    (BinaryOpNode (LiteralNode Py.VNone l1 c1) op (LiteralNode n l2 c2)
                  line column) i =
  Done None_
    (mkInterpreter (envs i) (global_env i) (env i) (next_id i)
       (stdout i ++ [("Runtime error at " ++ pretty line ++ ":"
                      ++ pretty column
                      ++ " - Operands must be numeric")%string])).
Proof.
  assert (H1 : visit_binary_op extern op (Prim n) None_ line column i =
               Raised (PyError Py.TypeError) i).
  { simpl in Hop.
    repeat (destruct Hop as [<-|Hop];
            [destruct n; try discriminate Hn; reflexivity|]).
    destruct Hop. }
  assert (H2 : visit_binary_op extern op None_ (Prim n) line column i =
               Raised (RuntimeError "Operands must be numeric" line column) i).
  { simpl in Hop.
    repeat (destruct Hop as [<-|Hop]; [reflexivity|]).
    destruct Hop. }
  split; [exact H1|]. split; [exact H2|]. split.
  - unfold interpret. cbn [accept]. unfold bind at 1, ret at 1.
    unfold bind at 1, ret at 1. fold None_. rewrite H1. reflexivity.
  - unfold interpret. cbn [accept]. unfold bind at 1, ret at 1.
    unfold bind at 1, ret at 1. fold None_. rewrite H2. reflexivity.
Qed.

End EnvironmentFacts.

(** A block that declares [x] and then returns: the [ReturnException]
    leaves the block, and the interpreter is in the global environment
    again. *)
Lemma visit_restores_the_environment_witness :
  let extern := fun (_ : string) (_ _ : Py.value) => Py.Raise Py.OverflowError in
  let str := fun _ : Interp.value => "" in
  let node :=
    Interp.BlockNode
      [ Interp.VariableDeclNode "x" (Some (Interp.LiteralNode (Py.VInt 1) 1 9)) 1 1;
        Interp.ReturnNode (Some (Interp.VariableNode "x" 2 8)) 2 1 ] 1 0 in
  Interp.accept extern str 3 node Interp.init =
  Interp.Raised (Interp.ReturnException (Interp.Prim (Py.VInt 1)))
    (Interp.mkInterpreter
       [ Interp.mkEnvironment ∅ None;
         Interp.mkEnvironment {[ "x" := Interp.Prim (Py.VInt 1) ]} (Some 0) ]
       0 (Some 0) 0 []) /\
  match Interp.accept extern str 3 node Interp.init with
  | Interp.Done _ i' | Interp.Raised _ i' =>
      Interp.env i' = Interp.env Interp.init /\
      length (Interp.envs Interp.init) <= length (Interp.envs i') /\
      forall a e, Interp.envs Interp.init !! a = Some e ->
        exists e', Interp.envs i' !! a = Some e' /\
                   Interp.parent e' = Interp.parent e
  | Interp.Undefined => True
  end.
Proof.
  intros extern str node. split; [vm_compute; reflexivity|].
  apply (visit_restores_the_environment extern str 3 node Interp.init).
Defined.

Lemma visit_call_never_calls_witness :
  let extern := fun (_ : string) (_ _ : Py.value) => Py.Raise Py.OverflowError in
  let str := fun _ : Interp.value => "f" in
  let def := Interp.FunctionDefNode "f" [] (Interp.BlockNode [] 1 9) 1 1 in
  exists i1,
    Interp.accept extern str 1 def Interp.init = Interp.Done Interp.None_ i1 /\
    Interp.accept extern str 2
      (Interp.CallNode (Interp.VariableNode "f" 2 1) [] 2 2) i1 =
    Interp.Raised
      (Interp.RuntimeError "Attempted to call non-function 'f'" 2 2) i1.
Proof.
  intros extern str def.
  destruct (proj2 (visit_call_never_calls extern str 0
                     (Interp.VariableNode "f" 2 1) [] 2 2 Interp.init)
              "f" [] (Interp.BlockNode [] 1 9) 1%Z 1%Z 2%Z 1%Z 0 eq_refl
              (Nat.lt_0_succ 0))
    as (f & i1 & Hdef & Hcall & Hf).
  exists i1. split; [exact Hdef|]. rewrite Hcall, Hf. reflexivity.
Defined.

(** [x] is bound in the global environment and assigned from a block. *)
Lemma assign_then_get_witness :
  let s :=
    [ Interp.mkEnvironment {[ "x" := Interp.Prim (Py.VInt 1) ]} None;
      Interp.mkEnvironment ∅ (Some 0) ] in
  let s' :=
    [ Interp.mkEnvironment
        (<[ "x" := Interp.Prim (Py.VInt 2) ]> {[ "x" := Interp.Prim (Py.VInt 1) ]})
        None;
      Interp.mkEnvironment ∅ (Some 0) ] in
  Interp.Environment_get 2 s' 1 "x" = Some (Interp.Prim (Py.VInt 2)) /\
  length s' = length s.
Proof.
  intros s s'.
  destruct (proj1 (assign_then_get 2 s s' 1 "x" (Interp.Prim (Py.VInt 2)))
              eq_refl) as (Hg & Hl & _).
  split; assumption.
Defined.


Lemma None_right_operand_escapes_the_numeric_check_witness :
  let extern := fun (_ : string) (_ _ : Py.value) => Py.Raise Py.OverflowError in
  Interp.visit_binary_op extern "+" (Interp.Prim (Py.VInt 1)) Interp.None_
    3 4 Interp.init =
  Interp.Raised (Interp.PyError Py.TypeError) Interp.init.
Proof.
  intros extern.
  apply (None_right_operand_escapes_the_numeric_check extern
           (fun _ => "") "+" (Py.VInt 1) 3%Z 4%Z 0%Z 0%Z 0%Z 0%Z 0 Interp.init).
  - left. reflexivity.
  - reflexivity.
Defined.

(** ** The runtime environment: frames and scopes *)

Section RuntimeEnvFacts.
Import RuntimeEnv.
Context {V : Type}.
Implicit Types e : RuntimeEnv V.

Lemma Scope_has_total fuel : forall e self name,
  parents_first e -> self < length (scopes e) -> self < fuel ->
  is_Some (Scope_has fuel (scopes e) self name).
Proof.
  induction fuel as [|fuel IH]; intros e self name Hp Hs Hf; [lia|].
  cbn [Scope_has]. destruct (lookup_lt_is_Some_2 _ _ Hs) as [sc Hsc].
  rewrite Hsc. destruct (symbols sc !! name); [eauto|].
  destruct (parent sc) as [p|] eqn:Hpar; [|eauto].
  pose proof (Hp self sc p Hsc Hpar). apply IH; [assumption|lia..].
Qed.

(** When [has] answers [True], [set] writes a scope that binds the
    name. *)
Lemma Scope_set_bound fuel : forall e self name v,
  Scope_has fuel (scopes e) self name = Some true ->
  parents_first e ->
  exists q sc,
    Scope_set fuel self name v e = Returned tt (bind_symbol q sc name v e) /\
    scopes e !! q = Some sc /\ q <= self /\ is_Some (symbols sc !! name).
Proof.
  induction fuel as [|fuel IH]; intros e self name v Hh Hp; [discriminate|].
  cbn [Scope_has Scope_set] in *.
  destruct (scopes e !! self) as [sc|] eqn:Hsc; [|discriminate].
  destruct (symbols sc !! name) as [w|] eqn:Hw.
  { exists self, sc. rewrite Hw. eauto 6. }
  destruct (parent sc) as [p|] eqn:Hpar; [|discriminate].
  rewrite Hh.
  destruct (IH e p name v Hh Hp) as (q & scq & Hset & Hq & Hle & Hsome).
  pose proof (Hp self sc p Hsc Hpar).
  exists q, scq. split; [exact Hset|]. split; [exact Hq|]. split; [lia|].
  exact Hsome.
Qed.

(** [Scope.set] returns, and writes one scope at or below the one it was
    called on: that scope itself, or one that binds the name. *)
Lemma Scope_set_inv fuel e self name v :
  parents_first e -> self < length (scopes e) -> self < fuel ->
  exists q sc,
    Scope_set fuel self name v e = Returned tt (bind_symbol q sc name v e) /\
    scopes e !! q = Some sc /\ q <= self /\
    (q = self \/ is_Some (symbols sc !! name)).
Proof.
  intros Hp Hs Hf. destruct fuel as [|fuel]; [lia|].
  cbn [Scope_set]. destruct (lookup_lt_is_Some_2 _ _ Hs) as [sc Hsc].
  rewrite Hsc. destruct (symbols sc !! name) as [w|] eqn:Hw.
  { exists self, sc. rewrite Hw. eauto 6. }
  destruct (parent sc) as [p|] eqn:Hpar; [|exists self, sc; eauto 6].
  pose proof (Hp self sc p Hsc Hpar) as Hlt.
  destruct (Scope_has_total fuel e p name Hp) as [b Hb]; [lia..|].
  rewrite Hb. destruct b; [|exists self, sc; eauto 6].
  destruct (Scope_set_bound fuel e p name v Hb Hp)
    as (q & scq & Hset & Hq & Hle & Hsome).
  exists q, scq. split; [exact Hset|]. split; [exact Hq|]. split; [lia|].
  right. exact Hsome.
Qed.

(** Writing the symbols of a scope other than the global one keeps the
    shape. *)
Lemma well_formed_write e a sc m :
  scopes e !! a = Some sc -> a <> global_scope e -> well_formed e ->
  well_formed
    (mkRuntimeEnv (<[a := mkScope m (parent sc)]> (scopes e))
                  (global_scope e) (call_stack e)).
Proof.
  intros Ha Hne (Hst & Hg & Hp & Hf). split; [exact Hst|]. split; [|split].
  - cbn [scopes global_scope].
    rewrite list_lookup_insert_ne by congruence. exact Hg.
  - intros b scb p. cbn [scopes].
    destruct (decide (b = a)) as [->|Hne'].
    + rewrite list_lookup_insert_eq by (apply lookup_lt_Some in Ha; exact Ha).
      intros [= <-]. cbn [parent]. apply (Hp a sc p Ha).
    + rewrite list_lookup_insert_ne by congruence. apply Hp.
  - intros f Hin. cbn [scopes global_scope call_stack] in *.
    rewrite length_insert. apply Hf, Hin.
Qed.

Lemma well_formed_bind_symbol e a sc name v :
  scopes e !! a = Some sc -> a <> global_scope e ->
  well_formed e -> well_formed (bind_symbol a sc name v e).
Proof. apply well_formed_write. Qed.

Lemma global_scope_binds_nothing e sc name :
  well_formed e -> scopes e !! global_scope e = Some sc ->
  symbols sc !! name = None.
Proof.
  intros (_ & Hg & _) Hsc. rewrite Hg in Hsc. injection Hsc as <-.
  apply lookup_empty.
Qed.

Lemma current_frame_well_formed e :
  well_formed e ->
  exists f, current_frame e = Returned f e /\ last (call_stack e) = Some f /\
            f ∈ call_stack e.
Proof.
  intros (Hst & _). unfold current_frame.
  destruct (last (call_stack e)) as [f|] eqn:Hl.
  - exists f. split; [reflexivity|]. split; [reflexivity|].
    apply last_Some in Hl as [l' ->]. apply elem_of_app. right. left.
  - apply last_None in Hl. contradiction.
Qed.

Lemma well_formed_push e f r p :
  well_formed e -> in_store (PushStackFrame f r p) e ->
  well_formed (left_by e (of_res (push_stack_frame f r p e))) /\
  scopes (left_by e (of_res (push_stack_frame f r p e))) =
    scopes e ++ [mkScope ∅ p] /\
  call_stack (left_by e (of_res (push_stack_frame f r p e))) =
    call_stack e ++ [mkStackFrame f (length (scopes e)) r 0 []].
Proof.
  intros (Hst & Hg & Hp & Hf) Hin. cbn.
  split; [|split; reflexivity].
  pose proof (lookup_lt_Some _ _ _ Hg) as Hglt.
  split; [|split; [|split]].
  - cbn. intros Happ. apply app_eq_nil in Happ as [_ Hcontra]. discriminate.
  - cbn. apply lookup_app_l_Some. exact Hg.
  - intros a sc q. cbn [scopes]. intros Ha Hq.
    apply lookup_app_Some in Ha as [Ha|[Hlen Ha]]; [apply (Hp a sc q Ha Hq)|].
    apply list_lookup_singleton_Some in Ha as [Ha <-]. cbn in Hq. subst p.
    cbn in Hin. lia.
  - intros fr. cbn [call_stack scopes global_scope]. rewrite length_app. cbn.
    intros Hfr. apply elem_of_app in Hfr as [Hfr|Hfr].
    + destruct (Hf fr Hfr). split; [lia|assumption].
    + apply list_elem_of_singleton in Hfr as ->. cbn. split; lia.
Qed.

Lemma well_formed_pop e :
  well_formed e -> well_formed (left_by e (pop_stack_frame e)).
Proof.
  intros Hw. pose proof Hw as (Hst & Hg & Hp & Hf). unfold pop_stack_frame.
  destruct (Nat.leb_spec (length (call_stack e)) 1) as [Hle|Hgt]; [exact Hw|].
  destruct (last (call_stack e)) as [f|] eqn:Hl; [|exact Hw].
  apply last_Some in Hl as [l' Hl']. cbn [left_by].
  rewrite Hl' in Hgt |- *. rewrite removelast_last.
  rewrite length_app in Hgt. cbn in Hgt.
  split; [|split; [|split]]; cbn [call_stack scopes global_scope];
    try assumption.
  - destruct l'; [cbn in Hgt; lia|discriminate].
  - intros fr Hfr. apply Hf. rewrite Hl'. apply elem_of_app. left. exact Hfr.
Qed.

Lemma well_formed_set_top_instruction_pointer ip e :
  well_formed e -> well_formed (set_top_instruction_pointer ip e).
Proof.
  intros Hw. pose proof Hw as (Hst & Hg & Hp & Hf).
  unfold set_top_instruction_pointer.
  destruct (last (call_stack e)) as [f|] eqn:Hl; [|exact Hw].
  apply last_Some in Hl as [l' Hl'].
  split; [|split; [|split]]; cbn [call_stack scopes global_scope];
    try assumption.
  - intros Happ. apply app_eq_nil in Happ as [_ Hcontra]. discriminate.
  - rewrite Hl', removelast_last. intros fr Hfr.
    apply elem_of_app in Hfr as [Hfr|Hfr].
    + apply Hf. rewrite Hl'. apply elem_of_app. left. exact Hfr.
    + apply list_elem_of_singleton in Hfr as ->. cbn.
      apply Hf. rewrite Hl'. apply elem_of_app. right. left.
Qed.

Lemma well_formed_declare e a name v :
  well_formed e -> a <> global_scope e ->
  well_formed (left_by e (of_res (declare a name v e))).
Proof.
  intros Hw Hne. unfold declare.
  destruct (scopes e !! a) as [sc|] eqn:Ha; [|exact Hw].
  destruct (symbols sc !! name); [exact Hw|].
  apply (well_formed_bind_symbol e a sc name v Ha Hne Hw).
Qed.

Lemma well_formed_set_variable e name v :
  well_formed e -> well_formed (left_by e (set_variable name v e)).
Proof.
  intros Hw. pose proof Hw as (Hst & Hg & Hp & Hf).
  destruct (current_frame_well_formed e Hw) as (f & Hcur & _ & Hin).
  unfold set_variable. rewrite Hcur.
  destruct (Hf f Hin) as [Hlt Hne].
  destruct (Scope_set_inv (length (scopes e)) e (local_scope f) name v Hp Hlt Hlt)
    as (q & sc & -> & Hq & Hle & Hor).
  cbn [left_by]. apply well_formed_bind_symbol; [exact Hq| |exact Hw].
  destruct Hor as [->|Hsome]; [exact Hne|].
  intros ->. rewrite (global_scope_binds_nothing e sc name Hw Hq) in Hsome.
  destruct Hsome as [? ?]. discriminate.
Qed.

Lemma well_formed_declare_variable e name v :
  well_formed e -> well_formed (left_by e (declare_variable name v e)).
Proof.
  intros Hw. pose proof Hw as (Hst & Hg & Hp & Hf).
  destruct (current_frame_well_formed e Hw) as (f & Hcur & _ & Hin).
  unfold declare_variable. rewrite Hcur.
  apply well_formed_declare; [exact Hw|apply (Hf f Hin)].
Qed.

Lemma well_formed_set_instruction_pointer e ip :
  well_formed e -> well_formed (left_by e (set_instruction_pointer ip e)).
Proof.
  intros Hw.
  destruct (current_frame_well_formed e Hw) as (f & Hcur & _ & Hin).
  unfold set_instruction_pointer. rewrite Hcur. cbn [left_by].
  apply well_formed_set_top_instruction_pointer, Hw.
Qed.

Lemma map_fst_combine {A B} (l : list A) (k : list B) :
  length l = length k -> map fst (combine l k) = l.
Proof.
  revert k. induction l as [|x l IH]; intros [|y k] Hlen;
    try discriminate; [reflexivity|].
  cbn. f_equal. apply IH. cbn in Hlen. lia.
Qed.

Lemma declared_cons (m : gmap string (option V)) k v bindings :
  declared m ((k, v) :: bindings) = declared (<[k := Some v]> m) bindings.
Proof. reflexivity. Qed.

Lemma declared_other (m : gmap string (option V)) bindings x :
  x ∉ map fst bindings -> declared m bindings !! x = m !! x.
Proof.
  revert m. induction bindings as [|[k v] bs IH]; intros m Hx; [reflexivity|].
  cbn in Hx. apply not_elem_of_cons in Hx as [Hne Hx].
  rewrite declared_cons, IH by exact Hx. apply lookup_insert_ne. congruence.
Qed.

Lemma declared_lookup (m : gmap string (option V)) bindings i k v :
  NoDup (map fst bindings) -> bindings !! i = Some (k, v) ->
  declared m bindings !! k = Some (Some v).
Proof.
  revert m i. induction bindings as [|[k' v'] bs IH]; intros m i Hnd Hi;
    [discriminate|].
  cbn in Hnd. apply NoDup_cons in Hnd as [Hk Hnd].
  destruct i as [|i]; cbn in Hi.
  - injection Hi as -> ->. rewrite declared_cons, declared_other by exact Hk.
    apply lookup_insert_eq.
  - rewrite declared_cons. apply (IH _ i Hnd Hi).
Qed.

Lemma declare_params_spec bindings : forall e a sc,
  scopes e !! a = Some sc -> NoDup (map fst bindings) ->
  (forall k, k ∈ map fst bindings -> symbols sc !! k = None) ->
  declare_params a bindings e =
  Done tt (mkRuntimeEnv
             (<[a := mkScope (declared (symbols sc) bindings) (parent sc)]>
                (scopes e))
             (global_scope e) (call_stack e)).
Proof.
  induction bindings as [|[k v] bs IH]; intros e a sc Ha Hnd Hfree.
  - cbn. rewrite list_insert_id; [destruct e; reflexivity|].
    rewrite Ha. destruct sc; reflexivity.
  - cbn in Hnd. apply NoDup_cons in Hnd as [Hk Hnd].
    cbn [declare_params]. unfold declare. rewrite Ha.
    rewrite (Hfree k) by (cbn; left).
    pose proof (lookup_lt_Some _ _ _ Ha) as Hlt.
    rewrite (IH _ a (mkScope (<[k := Some v]> (symbols sc)) (parent sc))).
    + cbn [scopes global_scope call_stack symbols parent].
      rewrite list_insert_insert_eq. reflexivity.
    + cbn [scopes]. apply list_lookup_insert_eq. exact Hlt.
    + exact Hnd.
    + intros k' Hk'. cbn [symbols]. rewrite lookup_insert_ne.
      * apply Hfree. cbn. right. exact Hk'.
      * intros ->. contradiction.
Qed.

Lemma example_functions_NoDup fn params :
  Dict.get fn example_functions = Some params -> NoDup params.
Proof.
  unfold example_functions. cbn.
  repeat (destruct (String.eqb fn _);
          [intros [= <-]; apply (bool_decide_unpack _); reflexivity|]).
  discriminate.
Qed.

(** What a call with the right number of arguments makes. *)
Lemma call_function_spec e fn params args :
  well_formed e ->
  Dict.get fn example_functions = Some params ->
  length args = length params ->
  let a := length (scopes e) in
  let frame := mkStackFrame fn a None 0 [] in
  call_function fn args e =
  Done frame
    (mkRuntimeEnv
       (scopes e
        ++ [mkScope (declared ∅ (combine params args))
                    (Some (global_scope e))])
       (global_scope e) (call_stack e ++ [frame])).
Proof.
  intros Hw Hfn Hlen a frame. unfold call_function, lookup_function.
  rewrite Hfn, Hlen, Nat.eqb_refl. cbn [negb push_stack_frame local_scope].
  rewrite (declare_params_spec _ _ a (mkScope ∅ (Some (global_scope e)))).
  - cbn [symbols parent scopes global_scope call_stack].
    unfold set_top_instruction_pointer. cbn [call_stack].
    rewrite last_snoc. cbn [scopes global_scope].
    rewrite removelast_last. unfold with_instruction_pointer. cbn.
    f_equal. f_equal.
    rewrite insert_app_r_alt by (unfold a; lia).
    replace (a - length (scopes e)) with 0 by (unfold a; lia). reflexivity.
  - cbn [scopes]. apply list_lookup_middle. reflexivity.
  - rewrite map_fst_combine by congruence.
    apply (example_functions_NoDup fn), Hfn.
  - intros k _. apply lookup_empty.
Qed.

Lemma well_formed_call_function e fn args :
  well_formed e -> well_formed (left_by e (of_res (call_function fn args e))).
Proof.
  intros Hw.
  destruct (Dict.get fn example_functions) as [params|] eqn:Hfn.
  2:{ unfold call_function, lookup_function. rewrite Hfn. exact Hw. }
  destruct (decide (length args = length params)) as [Hlen|Hlen].
  2:{ unfold call_function, lookup_function. rewrite Hfn.
      apply Nat.eqb_neq in Hlen. rewrite Hlen. exact Hw. }
  rewrite (call_function_spec e fn params args Hw Hfn Hlen). cbn [of_res left_by].
  destruct (well_formed_push e fn None (Some (global_scope e)) Hw)
    as (Hw1 & Hs1 & Hc1).
  { cbn. destruct Hw as (_ & Hg & _). apply (lookup_lt_Some _ _ _ Hg). }
  cbn [push_stack_frame of_res left_by] in Hw1.
  set (e1 := mkRuntimeEnv _ _ _) in Hw1.
  assert (Ha : scopes e1 !! length (scopes e) =
               Some (mkScope ∅ (Some (global_scope e))))
    by (apply list_lookup_middle; reflexivity).
  pose proof (well_formed_write e1 _ _ (declared ∅ (combine params args)) Ha)
    as Hwr.
  cbn [e1 scopes global_scope call_stack parent] in Hwr.
  rewrite insert_app_r_alt in Hwr by lia.
  replace (length (scopes e) - length (scopes e)) with 0 in Hwr by lia.
  apply Hwr; [|exact Hw1].
  destruct Hw as (_ & Hg & _). apply lookup_lt_Some in Hg. lia.
Qed.

Lemma well_formed_init : well_formed (init (V := V)).
Proof.
  split; [discriminate|]. split; [reflexivity|]. split.
  - intros a sc p Ha Hp. cbn in Ha.
    destruct a as [|[|a]]; cbn in Ha; try discriminate;
      injection Ha as <-; cbn in Hp; [discriminate|].
    injection Hp as <-. lia.
  - intros f Hf. cbn in Hf. apply list_elem_of_singleton in Hf as ->.
    cbn. split; lia.
Qed.

Lemma well_formed_perform c e :
  well_formed e -> in_store c e -> well_formed (perform c e).
Proof.
  intros Hw Hin. destruct c; cbn [perform].
  - apply (well_formed_push e _ _ _ Hw Hin).
  - apply well_formed_pop, Hw.
  - apply well_formed_set_variable, Hw.
  - apply well_formed_declare_variable, Hw.
  - apply well_formed_call_function, Hw.
  - apply well_formed_set_instruction_pointer, Hw.
Qed.

Lemma reachable_well_formed e : reachable e -> well_formed e.
Proof.
  induction 1 as [|c e Hr IH Hin]; [apply well_formed_init|].
  apply well_formed_perform; assumption.
Qed.

Lemma Scope_set_call_stack fuel : forall e self name v,
  call_stack (left_by e (Scope_set fuel self name v e)) = call_stack e /\
  global_scope (left_by e (Scope_set fuel self name v e)) = global_scope e /\
  length (scopes (left_by e (Scope_set fuel self name v e))) =
    length (scopes e).
Proof.
  induction fuel as [|fuel IH]; intros e self name v; [auto|].
  cbn [Scope_set]. destruct (scopes e !! self) as [sc|]; [|auto].
  assert (Hb : forall a s,
    call_stack (bind_symbol a s name v e) = call_stack e /\
    global_scope (bind_symbol a s name v e) = global_scope e /\
    length (scopes (bind_symbol a s name v e)) = length (scopes e)).
  { intros a s. cbn. rewrite length_insert. auto. }
  destruct (symbols sc !! name); [apply Hb|].
  destruct (parent sc) as [p|]; [|apply Hb].
  destruct (Scope_has fuel (scopes e) p name) as [[|]|]; [apply IH|apply Hb|auto].
Qed.

Lemma reachable_bottom e :
  reachable e ->
  exists g rest, call_stack e = g :: rest /\ function_name g = "<global>".
Proof.
  induction 1 as [|c e Hr (g & rest & Hst & Hg) Hin].
  { eexists _, _. split; reflexivity. }
  pose proof (reachable_well_formed e Hr) as Hw.
  destruct c; cbn [perform].
  - cbn. rewrite Hst. eexists _, _. split; [reflexivity|exact Hg].
  - unfold pop_stack_frame.
    destruct (Nat.leb_spec (length (call_stack e)) 1) as [Hle|Hgt]; [eauto|].
    destruct (last (call_stack e)) as [f|] eqn:Hl; [|eauto].
    cbn [left_by call_stack]. rewrite Hst in Hgt |- *.
    destruct rest as [|r rest]; [cbn in Hgt; lia|].
    eexists _, _. split; [reflexivity|exact Hg].
  - destruct (current_frame_well_formed e Hw) as (f & Hcur & _).
    unfold set_variable. rewrite Hcur.
    rewrite (proj1 (Scope_set_call_stack _ e _ _ _)). eauto.
  - destruct (current_frame_well_formed e Hw) as (f & Hcur & _).
    unfold declare_variable. rewrite Hcur. unfold declare.
    destruct (scopes e !! local_scope f) as [sc|]; [|eauto].
    destruct (symbols sc !! name); cbn; eauto.
  - destruct (Dict.get function_name0 example_functions) as [params|] eqn:Hfn.
    2:{ unfold call_function, lookup_function. rewrite Hfn. cbn. eauto. }
    destruct (decide (length args = length params)) as [Hlen|Hlen].
    2:{ unfold call_function, lookup_function. rewrite Hfn.
        apply Nat.eqb_neq in Hlen. rewrite Hlen. cbn. eauto. }
    rewrite (call_function_spec e _ params args Hw Hfn Hlen).
    cbn [of_res left_by call_stack]. rewrite Hst.
    eexists _, _. split; [reflexivity|exact Hg].
  - destruct (current_frame_well_formed e Hw) as (f & Hcur & Hl & _).
    unfold set_instruction_pointer. rewrite Hcur.
    cbn [left_by]. unfold set_top_instruction_pointer.
    rewrite Hl. cbn [call_stack]. rewrite Hst in Hl |- *.
    destruct rest as [|r rest].
    + cbn in Hl. injection Hl as <-. cbn. eexists _, _.
      split; [reflexivity|exact Hg].
    + eexists _, _. split; [reflexivity|exact Hg].
Qed.

(** X17: in every environment a program can make the call stack has the
    frame [<global>] at its bottom, so [current_frame] finds a frame;
    [pop_stack_frame] raises when that frame is the only one and leaves
    it, and otherwise takes the top frame off; and the global scope binds
    no name. *)
Theorem the_global_frame_is_never_popped (e : RuntimeEnv V)
    (Hr : reachable e) :
  (exists g rest,
      call_stack e = g :: rest /\ function_name g = "<global>") /\
  (exists f, current_frame e = Returned f e) /\
  (length (call_stack e) = 1 ->
   pop_stack_frame e =
   Failed
     (Runtime
        (mkRuntimeError "Attempted to pop global frame which is not allowed."))
     e) /\
  (1 < length (call_stack e) ->
   exists f rest,
     call_stack e = rest ++ [f] /\
     pop_stack_frame e =
     Returned f (mkRuntimeEnv (scopes e) (global_scope e) rest)) /\
  scopes e !! global_scope e = Some (mkScope ∅ None).
Proof.
  pose proof (reachable_well_formed e Hr) as Hw.
  split; [apply reachable_bottom, Hr|]. split; [|split; [|split]].
  - destruct (current_frame_well_formed e Hw) as (f & Hc & _). eauto.
  - intros Hlen. unfold pop_stack_frame. rewrite Hlen. reflexivity.
  - intros Hlen. unfold pop_stack_frame.
    destruct (Nat.leb_spec (length (call_stack e)) 1) as [Hle|_]; [lia|].
    destruct (current_frame_well_formed e Hw) as (f & _ & Hl & _).
    rewrite Hl. apply last_Some in Hl as [rest Hrest].
    exists f, rest. split; [exact Hrest|].
    rewrite Hrest, removelast_last. reflexivity.
  - apply Hw.
Qed.



(** X19: a call with the right number of arguments pushes a frame whose
    local scope binds each parameter to its argument and has the global
    scope as parent.  In the called function [get_variable] returns the
    argument for a parameter and raises for every other name: the global
    scope binds nothing, and the variables of the caller and of the top
    level are not on the chain. *)
Theorem called_function_sees_only_its_parameters
    (e : RuntimeEnv V) (fn : string) (params : list string) (args : list V)
    (Hr : reachable e)
    (Hfn : Dict.get fn example_functions = Some params)
    (Hlen : length args = length params) :
  exists frame e',
    call_function fn args e = Done frame e' /\
    call_stack e' = call_stack e ++ [frame] /\
    function_name frame = fn /\
    (forall k p a, params !! k = Some p -> args !! k = Some a ->
       get_variable p e' = Returned (Some a) e') /\
    (forall x, x ∉ params ->
       get_variable x e' =
       Failed
         (Runtime
            (mkRuntimeError
               ("Variable '" ++ x
                ++ "' is not defined in the current scope chain.")))
         e').
Proof.
  pose proof (reachable_well_formed e Hr) as Hw.
  pose proof Hw as (Hst & Hg & Hp & Hf).
  pose proof (lookup_lt_Some _ _ _ Hg) as Hglt.
  eexists _, _. split; [apply (call_function_spec e fn params args Hw Hfn Hlen)|].
  split; [reflexivity|]. split; [reflexivity|].
  assert (Hfst : map fst (combine params args) = params)
    by (apply map_fst_combine; congruence).
  split.
  - intros k p a Hk Ha. unfold get_variable, current_frame.
    cbn [call_stack]. rewrite last_snoc. cbn [local_scope scopes].
    rewrite length_app. cbn [length]. rewrite Nat.add_1_r.
    cbn [Scope_get scopes]. rewrite list_lookup_middle by reflexivity.
    cbn [symbols].
    rewrite (declared_lookup ∅ (combine params args) k p a); [reflexivity| |].
    + rewrite Hfst. apply (example_functions_NoDup fn), Hfn.
    + clear -Hk Ha. revert k args Hk Ha.
      induction params as [|p0 ps IH]; intros [|k] [|a0 args] Hk Ha;
        try discriminate.
      * cbn in *. congruence.
      * cbn in *. apply (IH k args Hk Ha).
  - intros x Hx. unfold get_variable, current_frame.
    cbn [call_stack]. rewrite last_snoc. cbn [local_scope scopes].
    rewrite length_app. cbn [length]. rewrite Nat.add_1_r.
    cbn [Scope_get scopes]. rewrite list_lookup_middle by reflexivity.
    cbn [symbols parent].
    rewrite declared_other by (rewrite Hfst; exact Hx).
    rewrite lookup_empty.
    destruct (length (scopes e)) as [|n] eqn:Hn; [lia|].
    cbn [Scope_get scopes]. rewrite lookup_app_l by lia. rewrite Hg.
    cbn [symbols parent]. rewrite lookup_empty. reflexivity.
Qed.

End RuntimeEnvFacts.

Lemma the_global_frame_is_never_popped_witness :
  let e := RuntimeEnv.init (V := Z) in
  RuntimeEnv.pop_stack_frame e =
  RuntimeEnv.Failed
    (RuntimeEnv.Runtime
       (RuntimeEnv.mkRuntimeError
          "Attempted to pop global frame which is not allowed.")) e /\
  RuntimeEnv.scopes e !! RuntimeEnv.global_scope e =
  Some (RuntimeEnv.mkScope ∅ None).
Proof.
  intros e.
  destruct (the_global_frame_is_never_popped e RuntimeEnv.reachable_init)
    as (_ & _ & Hpop & _ & Hg).
  split; [apply Hpop; reflexivity|exact Hg].
Defined.


(** [a] is declared at the top level; in the call of [foo(1, 2)] the
    parameter [x] is 1 and [a] is not defined. *)
Lemma called_function_sees_only_its_parameters_witness :
  let e :=
    RuntimeEnv.perform (RuntimeEnv.DeclareVariable "a" (Some 10%Z))
      RuntimeEnv.init in
  exists frame e',
    RuntimeEnv.call_function "foo" [1%Z; 2%Z] e = RuntimeEnv.Done frame e' /\
    RuntimeEnv.get_variable "x" e' = RuntimeEnv.Returned (Some 1%Z) e' /\
    RuntimeEnv.get_variable "a" e' =
    RuntimeEnv.Failed
      (RuntimeEnv.Runtime
         (RuntimeEnv.mkRuntimeError
            "Variable 'a' is not defined in the current scope chain.")) e'.
Proof.
  intros e.
  assert (Hr : RuntimeEnv.reachable e).
  { apply RuntimeEnv.reachable_perform;
      [apply RuntimeEnv.reachable_init|exact I]. }
  destruct (called_function_sees_only_its_parameters e "foo" ["x"; "y"]
              [1%Z; 2%Z] Hr eq_refl eq_refl)
    as (frame & e' & Hcall & _ & _ & Hparams & Hother).
  exists frame, e'. split; [exact Hcall|]. split.
  - apply (Hparams 0 "x" 1%Z); reflexivity.
  - apply (Hother "a"). apply (bool_decide_unpack _). reflexivity.
Defined.

(** ** The symbol table *)

Section SymbolTableFacts.
Import Symbols.

Lemma index_last {A} (l : list A) :
  l <> [] -> index l (Z.of_nat (length l) - 1) = Some (length l - 1).
Proof.
  intros Hne. unfold index.
  destruct l as [|x l]; [congruence|]. simpl length.
  replace (0 <=? Z.of_nat (S (length l)) - 1)%Z with true
    by (symmetry; apply Z.leb_le; lia).
  replace (Z.of_nat (S (length l)) - 1 <? Z.of_nat (S (length l)))%Z with true
    by (symmetry; apply Z.ltb_lt; lia).
  simpl. f_equal. lia.
Qed.

Lemma index_empty {A} (i : Z) : index (@nil A) i = None.
Proof.
  unfold index. change (Z.of_nat (length (@nil A))) with 0%Z.
  cbv zeta. change (- 0)%Z with 0%Z.
  destruct (Z.leb_spec 0 i), (Z.ltb_spec i 0); simpl; try reflexivity; lia.
Qed.

(** In a consistent table the current scope is the last one. *)
Lemma current_scope_last t sc :
  consistent t -> current_scope t = Some sc ->
  exists outer, scopes t = outer ++ [sc] /\
                index (scopes t) (current_level t) = Some (length outer).
Proof.
  unfold consistent, current_scope. intros Hc Hs.
  destruct (scopes t) as [|s0 l] eqn:Hsc.
  { rewrite index_empty in Hs. discriminate. }
  rewrite Hc, index_last in Hs |- * by discriminate.
  destruct (exists_last (l := s0 :: l)) as (outer & z & Heq); [discriminate|].
  rewrite Heq in Hs |- *. rewrite length_app in Hs |- *. simpl in Hs |- *.
  replace (length outer + 1 - 1) with (length outer) in Hs |- * by lia.
  rewrite lookup_app_r in Hs by lia.
  replace (length outer - length outer) with 0 in Hs by lia.
  simpl in Hs. injection Hs as ->. eauto.
Qed.

Lemma lookup_in_app l1 l2 x :
  lookup_in (l1 ++ l2) x =
  match lookup_in l1 x with
  | Some s => Some s
  | None => lookup_in l2 x
  end.
Proof.
  induction l1 as [|sc l1 IH]; simpl; [reflexivity|].
  destruct (Scope_lookup sc x); [reflexivity|apply IH].
Qed.

Lemma lookup_in_none l x :
  (forall sc, sc ∈ l -> symbols sc !! x = None) -> lookup_in l x = None.
Proof.
  induction l as [|sc l IH]; intros H; simpl; [reflexivity|].
  unfold Scope_lookup. rewrite (H sc) by left.
  apply IH. intros sc' Hin. apply H. right. exact Hin.
Qed.

(** [lookup] answers with the innermost scope that binds the name. *)
Lemma lookup_innermost t outer sc inner x :
  scopes t = outer ++ sc :: inner ->
  (forall sc', sc' ∈ inner -> symbols sc' !! x = None) ->
  lookup x t =
  match symbols sc !! x with
  | Some s => Some s
  | None => lookup_in (rev outer) x
  end.
Proof.
  intros Hsc Hinner. unfold lookup. rewrite Hsc, rev_app_distr. simpl.
  rewrite <- app_assoc, lookup_in_app.
  rewrite lookup_in_none.
  - reflexivity.
  - intros sc' Hin. apply Hinner.
    apply list_elem_of_In. apply in_rev. apply list_elem_of_In. exact Hin.
Qed.

Lemma enter_scope_consistent t :
  consistent t ->
  exists t', enter_scope t = Done tt t' /\ consistent t' /\
             scopes t' = scopes t ++ [mkScope (current_level t + 1) ∅].
Proof.
  unfold consistent, enter_scope. intros Hc. eexists. split; [reflexivity|].
  simpl. rewrite length_app. simpl. split; [lia|reflexivity].
Qed.

Lemma exit_scope_last l sc lvl :
  (0 <= lvl)%Z ->
  exit_scope (mkSymbolTable (l ++ [sc]) lvl) =
  Done tt (mkSymbolTable l (lvl - 1)).
Proof.
  intros Hge. unfold exit_scope. cbn [scopes current_level].
  replace (lvl <? 0)%Z with false by (symmetry; apply Z.ltb_ge; lia).
  rewrite removelast_last.
  destruct (l ++ [sc]) eqn:Happ; [|reflexivity].
  apply app_eq_nil in Happ as [_ Hcontra]. discriminate.
Qed.

(** [current_level] indexes the last scope in every table the methods
    make. *)
Lemma consistent_methods t :
  consistent init /\
  (consistent t ->
   (forall t', enter_scope t = Done tt t' -> consistent t') /\
   (forall t', exit_scope t = Done tt t' -> consistent t') /\
   (forall x typ m g f md s t',
       insert x typ m g f md t = Done s t' -> consistent t')).
Proof.
  split; [reflexivity|]. unfold consistent. intros Hc. split; [|split].
  - unfold enter_scope. intros t' [= <-]. cbn [scopes current_level].
    rewrite length_app. simpl. lia.
  - unfold exit_scope. destruct (current_level t <? 0)%Z; [discriminate|].
    destruct (scopes t) as [|s0 l] eqn:Hsc; [discriminate|].
    destruct (exists_last (A := Scope) (l := s0 :: l)) as (l' & z & Heq);
      [discriminate|].
    rewrite Heq in Hc. rewrite Heq, removelast_last.
    intros t' [= <-]. cbn [scopes current_level].
    rewrite length_app in Hc. simpl in Hc. lia.
  - intros x typ m g f md s t'. unfold insert.
    destruct (index _ _) as [i|]; [|discriminate].
    destruct (scopes t !! i) as [sc|]; [|discriminate].
    destruct (Scope_insert _ _); [discriminate|].
    intros [= _ <-]. cbn [scopes current_level]. rewrite length_insert.
    exact Hc.
Qed.

(** [insert] when the last scope is [sc]. *)
Lemma insert_in_last t outer sc x typ m g f md :
  consistent t -> scopes t = outer ++ [sc] ->
  insert x typ m g f md t =
  let symbol := mkSymbol x typ (current_level t) m g f (default [] md) in
  match symbols sc !! x with
  | Some _ =>
      Raised (KeyError ("Symbol '" ++ x
                        ++ "' already declared in current scope (level "
                        ++ pretty (level sc) ++ ").")) t
  | None =>
      Done symbol
        (mkSymbolTable
           (outer ++ [mkScope (level sc) (<[x := symbol]> (symbols sc))])
           (current_level t))
  end.
Proof.
  intros Hc Hsc. unfold insert.
  assert (Hi : index (scopes t) (current_level t) = Some (length outer)).
  { rewrite Hc, index_last by (rewrite Hsc; destruct outer; discriminate).
    rewrite Hsc, length_app. simpl. f_equal. lia. }
  rewrite Hi, Hsc. rewrite list_lookup_middle by reflexivity.
  unfold Scope_insert. cbn [name].
  destruct (symbols sc !! x); [reflexivity|].
  cbv zeta. f_equal. f_equal.
  rewrite insert_app_r_alt by lia.
  replace (length outer - length outer) with 0 by lia. reflexivity.
Qed.

(** C8: [insert] raises exactly when the current scope already binds the
    name, whatever the outer scopes bind; [lookup] answers with the
    innermost scope that binds the name; a binding made in an entered scope
    is the one [lookup] finds there, and [exit_scope] gives the table, and
    with it the outer binding, back. *)
Theorem insert_is_per_scope_and_lookup_is_innermost
    (t : SymbolTable) (sc : Scope) (x : string) (typ : Types.Ty)
    (m g f : bool) (md : option (list (string * string)))
    (Hc : consistent t) (Hs : current_scope t = Some sc) :
  (is_Some (symbols sc !! x) ->
   exists msg, insert x typ m g f md t = Raised (KeyError msg) t) /\
  (symbols sc !! x = None ->
   exists t',
     insert x typ m g f md t =
     Done (mkSymbol x typ (current_level t) m g f (default [] md)) t' /\
     lookup x t' =
     Some (mkSymbol x typ (current_level t) m g f (default [] md)) /\
     consistent t') /\
  (forall outer s inner,
      scopes t = outer ++ s :: inner ->
      (forall s', s' ∈ inner -> symbols s' !! x = None) ->
      lookup x t =
      match symbols s !! x with
      | Some b => Some b
      | None => lookup_in (rev outer) x
      end) /\
  (exists t1 t2,
      enter_scope t = Done tt t1 /\
      insert x typ m g f md t1 =
      Done (mkSymbol x typ (current_level t + 1) m g f (default [] md)) t2 /\
      lookup x t2 =
      Some (mkSymbol x typ (current_level t + 1) m g f (default [] md)) /\
      exit_scope t2 = Done tt t).
Proof.
  destruct (current_scope_last t sc Hc Hs) as (outer & Hsc & _).
  pose proof (insert_in_last t outer sc x typ m g f md Hc Hsc) as Hins.
  cbv zeta in Hins.
  split; [|split; [|split]].
  - intros [b Hb]. rewrite Hb in Hins. eauto.
  - intros Hn. rewrite Hn in Hins. eexists. split; [exact Hins|]. split.
    + rewrite (lookup_innermost _ outer
                 (mkScope (level sc)
                    (<[x := mkSymbol x typ (current_level t) m g f
                                     (default [] md)]> (symbols sc)))
                 [] x); [|reflexivity|].
      * cbn [symbols]. rewrite lookup_insert_eq. reflexivity.
      * intros s' Hin. apply elem_of_nil in Hin. destruct Hin.
    + unfold consistent in *. cbn [scopes current_level].
      rewrite Hc, Hsc, !length_app. reflexivity.
  - intros outer' s inner Hsc' Hinner.
    apply (lookup_innermost t outer' s inner x Hsc' Hinner).
  - destruct (enter_scope_consistent t Hc) as (t1 & Hent & Hc1 & Hsc1).
    assert (Hlvl : current_level t1 = (current_level t + 1)%Z).
    { unfold enter_scope in Hent. injection Hent as <-. reflexivity. }
    pose proof (insert_in_last t1 (scopes t) _ x typ m g f md Hc1 Hsc1) as Hins1.
    cbv zeta in Hins1. cbn [symbols level] in Hins1.
    rewrite lookup_empty, Hlvl in Hins1.
    eexists t1, _. split; [exact Hent|]. split; [exact Hins1|]. split.
    + rewrite (lookup_innermost _ (scopes t)
                 (mkScope (current_level t + 1)
                    (<[x := mkSymbol x typ (current_level t + 1) m g f
                                     (default [] md)]> ∅))
                 [] x); [|reflexivity|].
      * cbn [symbols]. rewrite lookup_insert_eq. reflexivity.
      * intros s' Hin. apply elem_of_nil in Hin. destruct Hin.
    + rewrite exit_scope_last by (unfold consistent in Hc; lia).
      replace (current_level t + 1 - 1)%Z with (current_level t) by lia.
      destruct t; reflexivity.
Qed.

End SymbolTableFacts.

Lemma insert_is_per_scope_and_lookup_is_innermost_witness :
  let outer_x :=
    Symbols.mkSymbol "x" Types.IntType 0 true true false [] in
  let inner_x :=
    Symbols.mkSymbol "x" Types.FloatType 1 false false false [] in
  exists t t1 t2,
    Symbols.insert "x" Types.IntType true true false None Symbols.init =
    Symbols.Done outer_x t /\
    (exists msg,
        Symbols.insert "x" Types.FloatType false false false None t =
        Symbols.Raised (Symbols.KeyError msg) t) /\
    Symbols.enter_scope t = Symbols.Done tt t1 /\
    Symbols.insert "x" Types.FloatType false false false None t1 =
    Symbols.Done inner_x t2 /\
    Symbols.lookup "x" t2 = Some inner_x /\
    Symbols.exit_scope t2 = Symbols.Done tt t /\
    Symbols.lookup "x" t = Some outer_x.
Proof.
  intros outer_x inner_x.
  set (t := Symbols.mkSymbolTable
              [Symbols.mkScope 0 (<["x" := outer_x]> ∅)] 0).
  pose proof (insert_is_per_scope_and_lookup_is_innermost
                t (Symbols.mkScope 0 (<["x" := outer_x]> ∅)) "x"
                Types.FloatType false false false None
                eq_refl eq_refl) as (Hfail & _ & _ & t1 & t2 & H1 & H2 & H3 & H4).
  exists t, t1, t2.
  split; [reflexivity|].
  split; [apply Hfail; eexists; apply lookup_insert_eq|].
  split; [exact H1|]. split; [exact H2|]. split; [exact H3|].
  split; [exact H4|]. reflexivity.
Defined.

(** ** The symbol table: scopes as a stack *)

Section SymbolTableStack.
Import Symbols.

Lemma enter_scope_after t :
  after (enter_scope t) =
  mkSymbolTable (scopes t ++ [mkScope (current_level t + 1) ∅])
                (current_level t + 1).
Proof. reflexivity. Qed.

(** [insert], returning or raising, changes the last scope only. *)
Lemma insert_keeps_outer t outer sc x typ m g f md :
  consistent t -> scopes t = outer ++ [sc] ->
  exists sc',
    after (insert x typ m g f md t) =
    mkSymbolTable (outer ++ [sc']) (current_level t).
Proof.
  intros Hc Hsc. rewrite (insert_in_last t outer sc) by assumption.
  cbv zeta. destruct (symbols sc !! x).
  - exists sc. simpl. destruct t. simpl in *. congruence.
  - eexists. reflexivity.
Qed.

Lemma inserts_keep_outer cs : forall t outer sc,
  forallb is_Insert cs = true ->
  consistent t -> scopes t = outer ++ [sc] ->
  exists sc',
    perform_all cs t = mkSymbolTable (outer ++ [sc']) (current_level t).
Proof.
  induction cs as [|c cs IH]; intros t outer sc Hall Hc Hsc.
  - exists sc. simpl. destruct t. simpl in *. congruence.
  - simpl in Hall. apply andb_true_iff in Hall as [Hi Hall].
    destruct c as [| |x typ m g f md]; try discriminate.
    simpl.
    destruct (insert_keeps_outer t outer sc x typ m g f md Hc Hsc)
      as [sc' Hins].
    rewrite Hins.
    destruct (IH (mkSymbolTable (outer ++ [sc']) (current_level t)) outer sc'
                Hall) as [sc'' Hall'].
    + unfold consistent in *. simpl. rewrite Hc, Hsc, !length_app. reflexivity.
    + reflexivity.
    + exists sc''. exact Hall'.
Qed.

(** X6: a scope is a stack frame of the table: after [enter_scope], any
    number of [insert] calls, raising or not, and [exit_scope], the table
    is the one before [enter_scope] again, and [exit_scope] does not
    raise. *)
Theorem exit_scope_undoes_the_scope (t : SymbolTable) (cs : list call)
    (Hc : consistent t) (Hcs : forallb is_Insert cs = true) :
  exit_scope (perform_all cs (after (enter_scope t))) = Done tt t.
Proof.
  rewrite enter_scope_after.
  destruct (inserts_keep_outer cs
              (mkSymbolTable (scopes t ++ [mkScope (current_level t + 1) ∅])
                             (current_level t + 1))
              (scopes t) (mkScope (current_level t + 1) ∅) Hcs) as [sc' ->].
  - unfold consistent in *. simpl. rewrite length_app. simpl. lia.
  - reflexivity.
  - simpl. rewrite exit_scope_last by (unfold consistent in Hc; lia).
    replace (current_level t + 1 - 1)%Z with (current_level t) by lia.
    destruct t; reflexivity.
Qed.

Lemma lookup_in_rev_insert (l : list Scope) i sc sc' y :
  l !! i = Some sc -> symbols sc' !! y = symbols sc !! y ->
  lookup_in (rev (<[i := sc']> l)) y = lookup_in (rev l) y.
Proof.
  revert i. induction l as [|a l IH]; intros i Hi Hy; [reflexivity|].
  destruct i as [|i]; simpl in Hi |- *; rewrite !lookup_in_app.
  - injection Hi as ->. simpl. unfold Scope_lookup. rewrite Hy. reflexivity.
  - rewrite (IH i Hi Hy). reflexivity.
Qed.

(** X7: [insert] of a name, returning or raising, leaves what [lookup]
    answers for every other name as it was. *)
Theorem insert_leaves_other_names (t : SymbolTable) (x y : string)
    (typ : Types.Ty) (m g f : bool) (md : option (list (string * string)))
    (Hxy : x <> y) :
  lookup y (after (insert x typ m g f md t)) = lookup y t.
Proof.
  unfold insert.
  destruct (index (scopes t) (current_level t)) as [i|]; [|reflexivity].
  destruct (scopes t !! i) as [sc|] eqn:Hi; [|reflexivity].
  unfold Scope_insert. cbn [name].
  destruct (symbols sc !! x); [reflexivity|].
  unfold lookup. cbn [after scopes].
  apply (lookup_in_rev_insert _ i sc); [exact Hi|].
  cbn [symbols]. apply lookup_insert_ne. exact Hxy.
Qed.

Lemma reachable_consistent t : reachable t -> consistent t.
Proof.
  induction 1 as [|c t Hr IH]; [reflexivity|].
  destruct (consistent_methods t) as (_ & H). specialize (H IH).
  destruct H as (He & Hx & Hi).
  destruct c as [| |x typ m g f md]; simpl.
  - apply He. reflexivity.
  - destruct (exit_scope t) as [[] t'|e t'] eqn:Hex.
    + apply Hx. reflexivity.
    + unfold exit_scope in Hex.
      destruct (current_level t <? 0)%Z; [injection Hex as _ <-; exact IH|].
      destruct (scopes t); [injection Hex as _ <-; exact IH|discriminate].
  - destruct (insert x typ m g f md t) as [s t'|e t'] eqn:Hin.
    + apply (Hi _ _ _ _ _ _ _ _ Hin).
    + unfold insert in Hin.
      destruct (index _ _); [|injection Hin as _ <-; exact IH].
      destruct (scopes t !! _); [|injection Hin as _ <-; exact IH].
      destruct (Scope_insert _ _); [injection Hin as _ <-; exact IH|].
      discriminate.
Qed.

Lemma levels_agree_init : levels_agree init.
Proof.
  intros i sc Hi. destruct i as [|i]; [|discriminate].
  injection Hi as <-. split; [reflexivity|]. intros k s Hk.
  simpl in Hk. rewrite lookup_empty in Hk. discriminate.
Qed.

Lemma levels_agree_perform c t :
  consistent t -> levels_agree t -> levels_agree (perform c t).
Proof.
  intros Hc Hl. destruct c as [| |x typ m g f md]; simpl.
  - intros i sc. simpl. intros Hi.
    apply lookup_app_Some in Hi as [Hi|[Hlen Hi]]; [apply Hl, Hi|].
    apply list_lookup_singleton_Some in Hi as [Hi <-].
    assert (i = length (scopes t)) as -> by lia.
    unfold consistent in Hc. simpl. split; [lia|].
    intros k s Hk. rewrite lookup_empty in Hk. discriminate.
  - unfold exit_scope. destruct (current_level t <? 0)%Z; [exact Hl|].
    destruct (scopes t) as [|s0 l] eqn:Hsc; [exact Hl|].
    intros i sc. cbn [after scopes]. intros Hi. apply (Hl i sc).
    rewrite Hsc.
    destruct (exists_last (A := Scope) (l := s0 :: l)) as (l' & z & Heq);
      [discriminate|].
    rewrite Heq in Hi |- *. rewrite removelast_last in Hi.
    apply lookup_app_l_Some. exact Hi.
  - destruct (scopes t) as [|s0 l] eqn:Hsc.
    { unfold insert. rewrite Hsc, index_empty. simpl. exact Hl. }
    destruct (exists_last (A := Scope) (l := s0 :: l)) as (outer & sc & Heq);
      [discriminate|].
    rewrite <- Hsc in Heq.
    rewrite (insert_in_last t outer sc) by assumption. cbv zeta.
    destruct (symbols sc !! x) eqn:Hx; [exact Hl|].
    intros i sc'. simpl. intros Hi.
    apply lookup_app_Some in Hi as [Hi|[Hlen Hi]].
    + apply Hl. rewrite Heq. apply lookup_app_l_Some. exact Hi.
    + apply list_lookup_singleton_Some in Hi as [Hi <-].
      assert (i = length outer) as -> by lia.
      destruct (Hl (length outer) sc) as [Hlev Hsym].
      { rewrite Heq. apply list_lookup_middle. reflexivity. }
      simpl. split; [exact Hlev|]. intros k s Hk.
      destruct (decide (k = x)) as [->|Hne].
      * rewrite lookup_insert_eq in Hk. injection Hk as <-. simpl.
        split; [reflexivity|]. unfold consistent in Hc.
        rewrite Hc, Heq, length_app. simpl. lia.
      * rewrite lookup_insert_ne in Hk by congruence. apply Hsym, Hk.
Qed.

Lemma reachable_levels_agree t : reachable t -> levels_agree t.
Proof.
  induction 1 as [|c t Hr IH]; [apply levels_agree_init|].
  apply levels_agree_perform; [apply reachable_consistent, Hr|exact IH].
Qed.

(** The scope that answers [lookup]: the last one that binds the name. *)
Lemma lookup_in_rev_Some (l : list Scope) x s :
  lookup_in (rev l) x = Some s ->
  exists i sc, l !! i = Some sc /\ symbols sc !! x = Some s /\
    forall j sc', i < j -> l !! j = Some sc' -> symbols sc' !! x = None.
Proof.
  induction l as [|a l IH] using rev_ind; [discriminate|].
  rewrite rev_app_distr. simpl. unfold Scope_lookup at 1.
  destruct (symbols a !! x) as [b|] eqn:Ha.
  - intros [= <-]. exists (length l), a. split; [|split].
    + apply list_lookup_middle. reflexivity.
    + exact Ha.
    + intros j sc' Hj Hl. apply lookup_lt_Some in Hl.
      rewrite length_app in Hl. simpl in Hl. lia.
  - intros H. destruct (IH H) as (i & sc & Hi & Hs & Hlater).
    exists i, sc. split; [apply lookup_app_l_Some, Hi|]. split; [exact Hs|].
    intros j sc' Hj Hl.
    apply lookup_app_Some in Hl as [Hl|[Hlen Hl]]; [apply (Hlater j), Hl; exact Hj|].
    apply list_lookup_singleton_Some in Hl as [_ <-]. exact Ha.
Qed.

(** X8: in every table a program can make, the symbol that [lookup]
    returns has the name asked for, its [scope_level] is the index of a
    scope of the table, that scope has this level and binds the name to
    the symbol, and no scope further in binds the name. *)
Theorem lookup_returns_the_innermost_binding
    (t : SymbolTable) (x : string) (s : Symbol)
    (Hr : reachable t) (Hl : lookup x t = Some s) :
  name s = x /\
  (0 <= scope_level s <= current_level t)%Z /\
  exists sc,
    scopes t !! Z.to_nat (scope_level s) = Some sc /\
    level sc = scope_level s /\
    symbols sc !! x = Some s /\
    forall j sc', Z.to_nat (scope_level s) < j ->
      scopes t !! j = Some sc' -> symbols sc' !! x = None.
Proof.
  pose proof (reachable_consistent t Hr) as Hc.
  pose proof (reachable_levels_agree t Hr) as Hlev.
  destruct (lookup_in_rev_Some _ _ _ Hl) as (i & sc & Hi & Hs & Hlater).
  destruct (Hlev i sc Hi) as [Hlsc Hsym].
  destruct (Hsym x s Hs) as [Hn Hsl].
  split; [exact Hn|]. split.
  - apply lookup_lt_Some in Hi. unfold consistent in Hc. lia.
  - exists sc. rewrite Hsl, Nat2Z.id.
    split; [exact Hi|]. split; [exact Hlsc|]. split; [exact Hs|exact Hlater].
Qed.

End SymbolTableStack.

(** A scope in which [x] is declared twice, the second time in vain, and
    [y] once. *)
Lemma exit_scope_undoes_the_scope_witness :
  let cs :=
    [ Symbols.Insert "x" Types.IntType true false false None;
      Symbols.Insert "x" Types.FloatType false false false None;
      Symbols.Insert "y" Types.BoolType false false false None ] in
  Symbols.exit_scope
    (Symbols.perform_all cs (Symbols.after (Symbols.enter_scope Symbols.init)))
  = Symbols.Done tt Symbols.init.
Proof.
  intros cs. apply exit_scope_undoes_the_scope; reflexivity.
Defined.

Lemma insert_leaves_other_names_witness :
  let t :=
    Symbols.perform (Symbols.Insert "y" Types.IntType true true false None)
      Symbols.init in
  Symbols.lookup "y"
    (Symbols.after
       (Symbols.insert "x" Types.FloatType false false false None t))
  = Symbols.lookup "y" t.
Proof.
  intros t. apply insert_leaves_other_names. discriminate.
Defined.

(** [x] declared globally and again in an entered scope: [lookup] answers
    with the symbol of level 1. *)
Lemma lookup_returns_the_innermost_binding_witness :
  let t :=
    Symbols.perform (Symbols.Insert "x" Types.FloatType false false false None)
      (Symbols.perform Symbols.EnterScope
         (Symbols.perform
            (Symbols.Insert "x" Types.IntType true true false None)
            Symbols.init)) in
  let s := Symbols.mkSymbol "x" Types.FloatType 1 false false false [] in
  Symbols.name s = "x" /\
  (0 <= Symbols.scope_level s <= Symbols.current_level t)%Z.
Proof.
  intros t s.
  assert (Hr : Symbols.reachable t).
  { repeat apply Symbols.reachable_perform. apply Symbols.reachable_init. }
  destruct (lookup_returns_the_innermost_binding t "x" s Hr eq_refl)
    as (Hn & Hl & _).
  split; assumption.
Defined.

(** ** The reference-counted heap *)

Section MemoryFacts.
Import Memory.
Context {V : Type} `{RuntimeValue V}.

Implicit Types (m : MemoryManager V) (a addr : Z) (obj : MemoryObject V).

Lemma heap_inv_init heap_size : heap_inv (init (V := V) heap_size).
Proof.
  split; [|split]; [| |cbn; lia]; intros a obj Hl; cbn [heap init] in Hl;
    rewrite lookup_empty in Hl; discriminate.
Qed.

(** The invariant speaks of the heap and of [next_addr] only. *)
Lemma heap_inv_same m m' :
  heap m' = heap m -> next_addr m' = next_addr m ->
  heap_inv m -> heap_inv m'.
Proof. unfold heap_inv. intros -> ->. tauto. Qed.

Lemma heap_inv_allocate v m : heap_inv m -> heap_inv (after (allocate v m)).
Proof.
  intros (Hc & Ha & Hn). unfold allocate.
  destruct (heap_size m <? _)%Z; [exact (conj Hc (conj Ha Hn))|].
  cbn [after]. split; [|split]; [| |cbn [next_addr]; lia];
    intros a obj; cbn [heap next_addr];
    rewrite lookup_insert; case_decide as Heq.
  - intros [= <-]. cbn [ref_count]. lia.
  - apply Hc.
  - intros _. subst a. lia.
  - intros Hl. specialize (Ha _ _ Hl). lia.
Qed.

Lemma heap_inv_deallocate a m : heap_inv m -> heap_inv (after (deallocate a m)).
Proof.
  intros (Hc & Ha & Hn). unfold deallocate.
  destruct (heap m !! a) as [obj|] eqn:Hl; [|exact (conj Hc (conj Ha Hn))].
  destruct (negb _); [exact (conj Hc (conj Ha Hn))|].
  cbn [after]. split; [|split]; [| |exact Hn];
    intros a' obj'; cbn [heap next_addr with_heap];
    rewrite lookup_delete; case_decide; try discriminate; eauto.
Qed.

Lemma heap_inv_inc_ref a m : heap_inv m -> heap_inv (after (inc_ref a m)).
Proof.
  intros (Hc & Ha & Hn). unfold inc_ref.
  destruct (heap m !! a) as [obj|] eqn:Hl; [|exact (conj Hc (conj Ha Hn))].
  cbn [after]. split; [|split]; [| |exact Hn];
    intros a' obj'; cbn [heap next_addr with_heap];
    rewrite lookup_insert; case_decide as Heq; eauto.
  - intros [= <-]. cbn [ref_count]. specialize (Hc _ _ Hl). lia.
  - intros _. subst a'. eauto.
Qed.

(** What [dec_ref] does to an object on the heap of a manager that
    satisfies the invariant. *)
Lemma dec_ref_live a obj m :
  heap_inv m -> heap m !! a = Some obj ->
  dec_ref a m =
  if Z.eqb (ref_count obj) 1
  then Done tt (with_heap m (delete a (heap m))
                          (used_heap_size m - size_in_bytes (value obj)))
  else Done tt (with_heap m
                  (<[a := mkMemoryObject (value obj) (ref_count obj - 1)]>
                     (heap m))
                  (used_heap_size m)).
Proof.
  intros (Hc & _ & _) Hl. specialize (Hc _ _ Hl). unfold dec_ref. rewrite Hl.
  cbn [ref_count].
  replace (ref_count obj - 1 <? 0)%Z with false
    by (symmetry; apply Z.ltb_ge; lia).
  destruct (Z.eqb_spec (ref_count obj) 1) as [H1|H1].
  - replace (ref_count obj - 1 =? 0)%Z with true
      by (symmetry; apply Z.eqb_eq; lia).
    unfold deallocate. cbn [heap with_heap].
    rewrite lookup_insert_eq. cbn [ref_count value].
    replace (ref_count obj - 1 =? 0)%Z with true
      by (symmetry; apply Z.eqb_eq; lia).
    cbn [negb]. unfold with_heap. cbn.
    rewrite delete_insert_eq. reflexivity.
  - replace (ref_count obj - 1 =? 0)%Z with false
      by (symmetry; apply Z.eqb_neq; lia).
    reflexivity.
Qed.

Lemma dec_ref_dead a m :
  heap m !! a = None ->
  dec_ref a m =
  Raised (mkMemoryError ("Invalid dec_ref on address " ++ pretty a)) m.
Proof. intros Hl. unfold dec_ref. rewrite Hl. reflexivity. Qed.

Lemma heap_inv_dec_ref a m : heap_inv m -> heap_inv (after (dec_ref a m)).
Proof.
  intros Hinv. destruct (heap m !! a) as [obj|] eqn:Hl.
  - rewrite (dec_ref_live a obj m Hinv Hl). destruct Hinv as (Hc & Ha & Hn).
    destruct (Z.eqb_spec (ref_count obj) 1) as [H1|H1]; cbn [after];
      (split; [|split]; [| |exact Hn]);
      intros a' obj'; cbn [heap next_addr with_heap].
    + rewrite lookup_delete. case_decide; [discriminate|apply Hc].
    + rewrite lookup_delete. case_decide; [discriminate|apply Ha].
    + rewrite lookup_insert. case_decide; [|apply Hc].
      intros [= <-]. cbn [ref_count]. specialize (Hc _ _ Hl). lia.
    + rewrite lookup_insert. case_decide; [|apply Ha].
      intros _. subst a'. eauto.
  - rewrite (dec_ref_dead a m Hl). exact Hinv.
Qed.

Lemma heap_inv_write a v m : heap_inv m -> heap_inv (after (write a v m)).
Proof.
  intros (Hc & Ha & Hn). unfold write.
  destruct (heap m !! a) as [obj|] eqn:Hl; [|exact (conj Hc (conj Ha Hn))].
  cbn [after]. split; [|split]; [| |exact Hn];
    intros a' obj'; cbn [heap next_addr with_heap];
    rewrite lookup_insert; case_decide as Heq; eauto.
  - intros [= <-]. cbn [ref_count]. eauto.
  - intros _. subst a'. eauto.
Qed.

Lemma heap_inv_read a m : heap_inv m -> heap_inv (after (read a m)).
Proof. intros Hinv. unfold read. destruct (heap m !! a); exact Hinv. Qed.

Lemma heap_inv_release items m : heap_inv m -> heap_inv (after (release items m)).
Proof.
  revert m. induction items as [|[x a] items IH]; intros m Hinv; [exact Hinv|].
  cbn [release]. pose proof (heap_inv_dec_ref a m Hinv) as Hd.
  destruct (dec_ref a m) as [[] m'|e m']; cbn [after] in Hd |- *.
  - apply IH. exact Hd.
  - exact Hd.
Qed.

Lemma heap_inv_pop_stack_frame m :
  heap_inv m -> heap_inv (after (pop_stack_frame m)).
Proof.
  intros Hinv. unfold pop_stack_frame.
  destruct (last (stack_frames m)) as [fr|]; [|exact Hinv].
  match goal with
  | |- context [release fr ?m1] =>
      pose proof (heap_inv_release fr m1
                    (heap_inv_same m m1 eq_refl eq_refl Hinv)) as Hr;
      destruct (release fr m1) as [[] m2|e m2]
  end; cbn [after] in Hr |- *.
  - apply (heap_inv_same m2); [reflexivity|reflexivity|exact Hr].
  - exact Hr.
Qed.

Lemma bind_current_heap x a m :
  heap (bind_current x a m) = heap m /\
  next_addr (bind_current x a m) = next_addr m.
Proof. unfold bind_current. destruct (current_frame_vars m); split; reflexivity. Qed.

Lemma heap_inv_declare x v m :
  heap_inv m -> heap_inv (after (declare_local_variable x v m)).
Proof.
  intros Hinv. unfold declare_local_variable.
  pose proof (heap_inv_allocate v m Hinv) as Hal.
  destruct (allocate v m) as [a m'|e m']; cbn [after] in Hal |- *; [|exact Hal].
  destruct (bind_current_heap x a m') as [Hh Hn].
  apply (heap_inv_same m'); assumption.
Qed.

(** (1) Every call keeps the invariant, whether it returns or raises. *)
Lemma heap_inv_perform c m : heap_inv m -> heap_inv (perform c m).
Proof.
  intros Hinv. destruct c; cbn [perform].
  - apply heap_inv_allocate, Hinv.
  - apply heap_inv_deallocate, Hinv.
  - apply heap_inv_inc_ref, Hinv.
  - apply heap_inv_dec_ref, Hinv.
  - apply heap_inv_read, Hinv.
  - apply heap_inv_write, Hinv.
  - exact Hinv.
  - apply heap_inv_pop_stack_frame, Hinv.
  - apply heap_inv_declare, Hinv.
  - unfold get_local_variable.
    destruct (Dict.get _ _); [apply heap_inv_read, Hinv|exact Hinv].
  - unfold set_local_variable.
    destruct (Dict.get _ _); [apply heap_inv_write, Hinv|exact Hinv].
Qed.

Lemma reachable_heap_inv m : reachable m -> heap_inv m.
Proof.
  induction 1 as [hs|c m _ IH]; [apply heap_inv_init|].
  apply heap_inv_perform, IH.
Qed.































Lemma reachable_perform_all cs m : reachable m -> reachable (perform_all cs m).
Proof.
  revert m. induction cs as [|c cs IH]; intros m Hr; [exact Hr|].
  apply IH. apply reachable_perform, Hr.
Qed.



End MemoryFacts.


(** ** The heap: accounting, allocation and local variables *)

Section MemoryAccounting.
Import Memory.
Context {V : Type} `{RuntimeValue V}.
Implicit Types m : MemoryManager V.

Lemma total_size_insert (h : gmap Z (MemoryObject V)) a obj :
  h !! a = None ->
  total_size (<[a := obj]> h) = (size_in_bytes (value obj) + total_size h)%Z.
Proof.
  intros Ha. unfold total_size.
  rewrite map_fold_insert_L; [reflexivity| |exact Ha].
  intros. lia.
Qed.

Lemma total_size_delete (h : gmap Z (MemoryObject V)) a obj :
  h !! a = Some obj ->
  total_size h = (size_in_bytes (value obj) + total_size (delete a h))%Z.
Proof.
  intros Ha. unfold total_size.
  rewrite (map_fold_delete_L _ _ a obj h); [reflexivity| |exact Ha].
  intros. lia.
Qed.

Lemma total_size_update (h : gmap Z (MemoryObject V)) a obj obj' :
  h !! a = Some obj ->
  total_size (<[a := obj']> h) =
  (total_size h - size_in_bytes (value obj) + size_in_bytes (value obj'))%Z.
Proof.
  intros Ha. rewrite <- insert_delete_eq.
  rewrite total_size_insert by apply lookup_delete_eq.
  rewrite (total_size_delete h a obj Ha). lia.
Qed.

Lemma accounted_deallocate a m : accounted m -> accounted (after (deallocate a m)).
Proof.
  unfold accounted, deallocate. intros Hm.
  destruct (heap m !! a) as [obj|] eqn:Ha; [|exact Hm].
  destruct (negb _); [exact Hm|]. cbn.
  rewrite (total_size_delete _ a obj Ha) in Hm. lia.
Qed.

Lemma accounted_dec_ref a m : accounted m -> accounted (after (dec_ref a m)).
Proof.
  unfold dec_ref. intros Hm.
  destruct (heap m !! a) as [obj|] eqn:Ha; [|exact Hm].
  cbv zeta.
  assert (Hm' : accounted
    (with_heap m (<[a := mkMemoryObject (value obj) (ref_count obj - 1)]> (heap m))
               (used_heap_size m))).
  { unfold accounted in *. cbn. rewrite (total_size_update _ a obj _ Ha).
    cbn. lia. }
  cbn [ref_count].
  destruct (_ <? 0)%Z; [exact Hm'|].
  destruct (_ =? 0)%Z; [|exact Hm'].
  apply accounted_deallocate, Hm'.
Qed.

Lemma accounted_release items : forall m,
  accounted m -> accounted (after (release items m)).
Proof.
  induction items as [|[x a] items IH]; intros m Hm; [exact Hm|].
  cbn [release]. pose proof (accounted_dec_ref a m Hm) as Hd.
  destruct (dec_ref a m) as [[] m'|e m']; [apply IH, Hd|exact Hd].
Qed.

Lemma accounted_allocate v m :
  heap_inv m -> accounted m -> accounted (after (allocate v m)).
Proof.
  unfold accounted, allocate. intros (_ & Haddr & _) Hm. cbv zeta.
  destruct (_ <? _)%Z; [exact Hm|]. cbn.
  rewrite total_size_insert; [cbn; lia|].
  destruct (heap m !! next_addr m) as [obj|] eqn:Hn; [|reflexivity].
  specialize (Haddr _ _ Hn). lia.
Qed.

Lemma accounted_perform c m :
  heap_inv m -> accounted m -> accounted (perform c m).
Proof.
  intros Hinv Hm. destruct c; cbn [perform].
  - apply accounted_allocate; assumption.
  - apply accounted_deallocate, Hm.
  - unfold inc_ref. destruct (heap m !! addr) as [obj|] eqn:Ha; [|exact Hm].
    unfold accounted in *. cbn. rewrite (total_size_update _ addr obj _ Ha).
    cbn. lia.
  - apply accounted_dec_ref, Hm.
  - unfold read. destruct (heap m !! addr); exact Hm.
  - unfold write. destruct (heap m !! addr) as [obj|] eqn:Ha; [|exact Hm].
    unfold accounted in *. cbn. rewrite (total_size_update _ addr obj _ Ha).
    cbn. lia.
  - exact Hm.
  - unfold pop_stack_frame. destruct (last (stack_frames m)) as [fr|]; [|exact Hm].
    cbv zeta.
    match goal with
    | |- context [release fr ?m1] =>
        pose proof (accounted_release fr m1 Hm) as Hr;
        destruct (release fr m1) as [[] m2|e m2]
    end; exact Hr.
  - unfold declare_local_variable.
    pose proof (accounted_allocate v m Hinv Hm) as Ha.
    destruct (allocate v m) as [a m'|e m']; [|exact Ha].
    cbn [after] in *. unfold accounted in *.
    rewrite (proj1 (bind_current_heap name a m')).
    unfold bind_current. destruct (current_frame_vars m'); exact Ha.
  - unfold get_local_variable. destruct (Dict.get _ _); [|exact Hm].
    unfold read. destruct (heap m !! _); exact Hm.
  - unfold set_local_variable. destruct (Dict.get _ _) as [a|]; [|exact Hm].
    unfold write. destruct (heap m !! a) as [obj|] eqn:Ha; [|exact Hm].
    unfold accounted in *. cbn. rewrite (total_size_update _ a obj _ Ha).
    cbn. lia.
Qed.

Lemma reachable_accounted m : reachable m -> accounted m.
Proof.
  induction 1 as [hs|c m Hr IH]; [reflexivity|].
  apply accounted_perform; [apply reachable_heap_inv, Hr|exact IH].
Qed.

(** X20: in every manager a program can reach, [used_heap_size] is the
    sum of [size_in_bytes] over the values on the heap: what [allocate]
    and [write] add to it, [deallocate] gives back. *)
Theorem used_heap_size_is_the_size_of_the_heap m (Hr : reachable m) :
  used_heap_size m = total_size (heap m).
Proof. apply reachable_accounted, Hr. Qed.

(** What [allocate] does, by the room that is left. *)
Lemma allocate_spec m (v : V) :
  reachable m ->
  ((heap_size m < used_heap_size m + size_in_bytes v)%Z ->
   allocate v m = Raised (mkMemoryError "Out of heap memory") m) /\
  ((used_heap_size m + size_in_bytes v <= heap_size m)%Z ->
   exists m',
     allocate v m = Done (next_addr m) m' /\
     heap m !! next_addr m = None /\
     read (next_addr m) m' = Done v m' /\
     (forall a obj, heap m !! a = Some obj -> heap m' !! a = Some obj) /\
     forall v', exists m'',
       write (next_addr m) v' m' = Done tt m'' /\
       read (next_addr m) m'' = Done v' m'').
Proof.
  intros Hr.
  pose proof (reachable_heap_inv m Hr) as (_ & Haddr & _).
  assert (Hfresh : heap m !! next_addr m = None).
  { destruct (heap m !! next_addr m) as [obj|] eqn:Hn; [|reflexivity].
    specialize (Haddr _ _ Hn). lia. }
  unfold allocate. cbv zeta. split; intros Hsize.
  - apply Z.ltb_lt in Hsize. rewrite Hsize. reflexivity.
  - apply Z.ltb_ge in Hsize. rewrite Hsize.
    eexists. split; [reflexivity|]. split; [exact Hfresh|]. split; [|split].
    + unfold read. cbn [heap]. rewrite lookup_insert_eq. reflexivity.
    + intros a obj Ha. cbn [heap]. rewrite lookup_insert_ne; [exact Ha|].
      intros <-. congruence.
    + intros v'. unfold write at 1. cbn [heap]. rewrite lookup_insert_eq.
      cbv zeta. eexists. split; [reflexivity|].
      unfold read. cbn [heap with_heap]. rewrite lookup_insert_eq. reflexivity.
Qed.

(** X21: [allocate] raises and changes nothing when the value does not
    fit into what is left of [heap_size].  Otherwise it returns
    [next_addr], an address that is not on the heap, and keeps the objects
    that are; [read] of the new address gives the value, and after a
    [write] to it the value written. *)
Theorem allocate_then_read_and_write m (v : V) (Hr : reachable m) :
  ((heap_size m < used_heap_size m + size_in_bytes v)%Z ->
   allocate v m = Raised (mkMemoryError "Out of heap memory") m) /\
  ((used_heap_size m + size_in_bytes v <= heap_size m)%Z ->
   exists m',
     allocate v m = Done (next_addr m) m' /\
     heap m !! next_addr m = None /\
     read (next_addr m) m' = Done v m' /\
     (forall a obj, heap m !! a = Some obj -> heap m' !! a = Some obj) /\
     forall v', exists m'',
       write (next_addr m) v' m' = Done tt m'' /\
       read (next_addr m) m'' = Done v' m'').
Proof. apply allocate_spec, Hr. Qed.

(** X22: [deallocate], called on its own, never takes an object off the
    heap: an object on the heap has a count of at least one, and
    [deallocate] raises for it as it does for an address that is not on
    the heap.  Objects leave the heap through [dec_ref] only. *)
Theorem deallocate_on_its_own_always_raises m (a : Z) (Hr : reachable m) :
  exists e, deallocate a m = Raised e m.
Proof.
  pose proof (reachable_heap_inv m Hr) as (Hcnt & _).
  unfold deallocate. destruct (heap m !! a) as [obj|] eqn:Ha; [|eauto].
  specialize (Hcnt _ _ Ha).
  destruct (Z.eqb_spec (ref_count obj) 0) as [Hz|Hz]; [lia|]. cbn. eauto.
Qed.

Lemma get_set_eq {A} (k : string) (v : A) (d : list (string * A)) :
  Dict.get k (Dict.set k v d) = Some v.
Proof.
  induction d as [|[k' w] d IH]; cbn.
  - rewrite String.eqb_refl. reflexivity.
  - destruct (String.eqb k k') eqn:Hk; cbn; rewrite Hk; [reflexivity|exact IH].
Qed.

Lemma current_vars_bind_current x a m :
  Dict.get x (current_vars (bind_current x a m)) = Some a.
Proof.
  unfold bind_current, current_vars.
  destruct (current_frame_vars m); cbn [current_frame_vars stack_frames].
  - rewrite last_snoc. cbn. apply get_set_eq.
  - apply get_set_eq.
Qed.

(** X23: a local variable holds what was stored in it.  When the value
    fits on the heap, [declare_local_variable] returns,
    [get_local_variable] of the name then gives the value, and after
    [set_local_variable] the value set; [get_local_variable] and
    [set_local_variable] of a name that the current frame does not bind
    raise and change nothing. *)
Theorem local_variables_hold_their_values m (x : string) (v : V)
    (Hr : reachable m) :
  ((used_heap_size m + size_in_bytes v <= heap_size m)%Z ->
   exists m',
     declare_local_variable x v m = Done tt m' /\
     get_local_variable x m' = Done v m' /\
     forall v', exists m'',
       set_local_variable x v' m' = Done tt m'' /\
       get_local_variable x m'' = Done v' m'') /\
  (Dict.get x (current_vars m) = None ->
   get_local_variable x m =
   Raised (mkMemoryError ("Local variable '" ++ x
                          ++ "' not found in current frame")) m /\
   set_local_variable x v m =
   Raised (mkMemoryError ("Local variable '" ++ x
                          ++ "' not found in current frame")) m).
Proof.
  split.
  - intros Hsize.
    destruct (proj2 (allocate_spec m v Hr) Hsize)
      as (m1 & Hal & _ & Hread & _ & Hwrite).
    unfold declare_local_variable. rewrite Hal.
    set (a := next_addr m) in *.
    assert (Hheap : forall y b (m0 : MemoryManager V),
              heap (bind_current y b m0) = heap m0)
      by (intros; apply bind_current_heap).
    eexists. split; [reflexivity|]. split.
    + unfold get_local_variable. rewrite current_vars_bind_current.
      unfold read in *. rewrite Hheap.
      destruct (heap m1 !! a); [|discriminate]. congruence.
    + intros v'. destruct (Hwrite v') as (m2 & Hw & Hr2).
      unfold set_local_variable. rewrite current_vars_bind_current.
      unfold write in *. rewrite Hheap.
      destruct (heap m1 !! a) as [obj|] eqn:Ha; [|discriminate].
      cbv zeta. eexists. split; [reflexivity|].
      unfold get_local_variable.
      assert (Hcv : forall h u (m0 : MemoryManager V),
                current_vars (with_heap m0 h u) = current_vars m0)
        by reflexivity.
      rewrite Hcv, current_vars_bind_current.
      unfold read. cbn [heap with_heap]. rewrite lookup_insert_eq. reflexivity.
  - intros Hx. unfold get_local_variable, set_local_variable. rewrite Hx.
    split; reflexivity.
Qed.

End MemoryAccounting.

Lemma used_heap_size_is_the_size_of_the_heap_witness :
  let m :=
    Memory.perform (Memory.Write 1 (Memory.StringValue "abcdefgh"))
      (Memory.perform (Memory.Allocate (Memory.StringValue "abc"))
         (Memory.perform (Memory.Allocate (Memory.IntValue 5))
            (Memory.init 1024))) in
  Memory.used_heap_size m = Memory.total_size (Memory.heap m).
Proof.
  intros m. apply used_heap_size_is_the_size_of_the_heap.
  repeat apply Memory.reachable_perform. apply Memory.reachable_init.
Defined.

(** A heap of 8 bytes takes an [IntValue] and not a string of 9. *)
Lemma allocate_then_read_and_write_witness :
  let m := Memory.init 8 in
  Memory.allocate (Memory.StringValue "123456789") m =
  Memory.Raised (Memory.mkMemoryError "Out of heap memory") m /\
  exists m',
    Memory.allocate (Memory.IntValue 5) m = Memory.Done 1%Z m' /\
    Memory.read 1 m' = Memory.Done (Memory.IntValue 5) m'.
Proof.
  intros m. split.
  - apply (proj1 (allocate_then_read_and_write m
                    (Memory.StringValue "123456789")
                    (Memory.reachable_init 8))).
    reflexivity.
  - destruct (proj2 (allocate_then_read_and_write m (Memory.IntValue 5)
                       (Memory.reachable_init 8)))
      as (m' & Hal & _ & Hread & _).
    + cbn. discriminate.
    + exists m'. split; [exact Hal|exact Hread].
Defined.

Lemma deallocate_on_its_own_always_raises_witness :
  let m := Memory.perform (Memory.Allocate (Memory.IntValue 5))
             (Memory.init 1024) in
  exists e, Memory.deallocate 1 m = Memory.Raised e m.
Proof.
  intros m. apply deallocate_on_its_own_always_raises.
  apply Memory.reachable_perform, Memory.reachable_init.
Defined.

Lemma local_variables_hold_their_values_witness :
  let m := Memory.perform Memory.PushStackFrame (Memory.init 1024) in
  exists m',
    Memory.declare_local_variable "n" (Memory.IntValue 5) m = Memory.Done tt m' /\
    Memory.get_local_variable "n" m' = Memory.Done (Memory.IntValue 5) m'.
Proof.
  intros m.
  assert (Hr : Memory.reachable m)
    by apply Memory.reachable_perform, Memory.reachable_init.
  destruct (proj1 (local_variables_hold_their_values m "n" (Memory.IntValue 5)
                     Hr)) as (m' & Hd & Hg & _).
  - cbn. discriminate.
  - exists m'. split; [exact Hd|exact Hg].
Defined.
